(** * Merkle-tree membership authentication: model and verified properties

    The development embeds three source units of the repository:
    - [CryptoUtils]   (src/crypto-utils.js),
    - [MerkleTree]    (src/unnamed/part_000: the tree class and
                       [MerkleTreeNode]),
    - [ZKProofSystem] (src/zk-proof.js).

    The browser capabilities the code calls ([crypto.subtle.digest],
    [crypto.getRandomValues], [Date.now]) are an interface, class [Host];
    every definition and theorem is parametric in it. *)

From Stdlib Require Import String Ascii List Bool Arith ZArith Lia.
Import ListNotations.
Open Scope string_scope.
Open Scope list_scope.
Open Scope nat_scope.

#[global] Set Warnings "-register-all".

Set Implicit Arguments.

(** ** The host environment *)

(** [sha256 s] stands for the whole pipeline of [CryptoUtils.sha256]: UTF-8
    encoding, SHA-256 digest, lowercase hex.  [getRandomHex k n] is the hex
    rendering of the [k]-th call of [crypto.getRandomValues] on [n] bytes,
    [dateNow k] the [k]-th reading of [Date.now()], in milliseconds, and
    [typeErrorMessage a] the text the engine puts in the [TypeError] it raises
    for the faulting property access [a]. *)
Class Host := {
  sha256 : string -> string;
  getRandomHex : nat -> nat -> string;
  dateNow : nat -> Z;
  typeErrorMessage : string -> string
}.

(** ** JavaScript values the code relies on *)

(** What a [throw] carries.  The source only ever constructs [Error]; a
    [TypeError] is what the engine raises when a property of [null] or
    [undefined] is read, and [access] names that read. *)
Inductive JsError :=
| Error (message : string)
| TypeError (access : string).

(** [error.message] *)
Definition message `{Host} (e : JsError) : string :=
  match e with Error m => m | TypeError a => typeErrorMessage a end.

(** How a call ends, with the state it leaves behind.  [OutOfFuel] is not a
    JavaScript outcome: it marks a loop or recursion of the model that was
    given too few steps. *)
Inductive completion (S A : Type) :=
| Return (a : A) (s : S)
| Throw (e : JsError) (s : S)
| OutOfFuel.
Arguments Return {S A} a s.
Arguments Throw {S A} e s.
Arguments OutOfFuel {S A}.

(** A number that comes out of [parseInt]: an integer or [NaN]. *)
Inductive JsNumber :=
| Num (z : Z)
| NaN.

(** [<] and [>] on numbers: every comparison with [NaN] is false. *)
Definition js_lt (a b : JsNumber) : bool :=
  match a, b with Num x, Num y => (x <? y)%Z | _, _ => false end.
Definition js_gt (a b : JsNumber) : bool := js_lt b a.

(** [Map]: entries in insertion order; [set] on a key that is present
    replaces the value and keeps the entry's position. *)
Section JsMap.
Variables K V : Type.
Variable eqb : K -> K -> bool.

Definition JsMap := list (K * V).

Fixpoint map_set (k : K) (v : V) (m : JsMap) : JsMap :=
  match m with
  | [] => [(k, v)]
  | (k', v') :: m' =>
      if eqb k' k then (k, v) :: m' else (k', v') :: map_set k v m'
  end.

Fixpoint map_get (k : K) (m : JsMap) : option V :=
  match m with
  | [] => None
  | (k', v') :: m' => if eqb k' k then Some v' else map_get k m'
  end.

Definition map_size (m : JsMap) : nat := length m.
End JsMap.

(** ** src/crypto-utils.js *)
Module CryptoUtils.
Section WithHost.
Context `{Host}.

Definition generateUserId (publicKey : string) : string := sha256 publicKey.

Definition combineHashes (left right : string) : string :=
  sha256 (left ++ right)%string.

(** [generatePublicKey] and [generateSalt] draw from the random source;
    [draws] counts the calls made so far. *)
Definition generatePublicKey (draws : nat) : string * nat :=
  (getRandomHex draws 32, S draws).

Definition generateSalt (length : nat) (draws : nat) : string * nat :=
  (getRandomHex draws length, S draws).

Definition truncateHash (hash : string) (length : nat) : string :=
  (substring 0 length hash ++ "...")%string.

(** [saltedHash(data, salt)] *)
Definition saltedHash (data salt : string) : string :=
  sha256 (data ++ salt)%string.

(** A character that [[a-f0-9]] matches under the [i] flag. *)
Definition isHexChar (c : ascii) : bool :=
  let n := nat_of_ascii c in
  ((48 <=? n) && (n <=? 57)) || ((97 <=? n) && (n <=? 102))
  || ((65 <=? n) && (n <=? 70)).

(** [isValidHash(hash)]: the test of [/^[a-f0-9]{64}$/i]. *)
Definition isValidHash (hash : string) : bool :=
  (String.length hash =? 64)
  && forallb isHexChar (list_ascii_of_string hash).

(** The hex rendering that [sha256], [generatePublicKey] and [generateSalt]
    apply to their bytes: [byte.toString(16).padStart(2, '0')] for each
    byte, joined without separator. *)
Definition hexDigit (d : nat) : ascii :=
  nth d (list_ascii_of_string "0123456789abcdef") "0"%char.

(** [byte.toString(16)]: one digit below 16, two from there on. *)
Definition toString16 (byte : Byte.byte) : string :=
  let n := Byte.to_nat byte in
  if n <? 16 then String (hexDigit n) EmptyString
  else String (hexDigit (n / 16)) (String (hexDigit (n mod 16)) EmptyString).

(** [s.padStart(2, '0')] *)
Definition padStart2 (s : string) : string :=
  match String.length s with
  | 0 => "00"
  | 1 => ("0" ++ s)%string
  | _ => s
  end.

(** The callback [byte => byte.toString(16).padStart(2, '0')]. *)
Definition byteHex (byte : Byte.byte) : string :=
  padStart2 (toString16 byte).

(** [Array.from(array, callback).join('')] *)
Definition toHex (bytes : list Byte.byte) : string :=
  String.concat EmptyString (map byteHex bytes).
End WithHost.
End CryptoUtils.

(** ** src/unnamed/part_000: the Merkle tree *)

Record LeafData := { publicKey : string; index : nat }.

(** A [MerkleTreeNode] object.  No field of a node is assigned after its
    construction, so a reference to a node is modelled by the constructed
    record together with [oid], the serial number of the [new] that made it;
    [===] on nodes compares serial numbers. *)
Inductive MerkleTreeNode :=
| mkNode (oid : nat) (hash : string) (left right : option MerkleTreeNode)
         (isLeaf : bool) (data : option LeafData).

Definition oid (n : MerkleTreeNode) : nat :=
  match n with mkNode o _ _ _ _ _ => o end.
Definition hash (n : MerkleTreeNode) : string :=
  match n with mkNode _ h _ _ _ _ => h end.
Definition left (n : MerkleTreeNode) : option MerkleTreeNode :=
  match n with mkNode _ _ l _ _ _ => l end.
Definition right (n : MerkleTreeNode) : option MerkleTreeNode :=
  match n with mkNode _ _ _ r _ _ => r end.
Definition isLeaf (n : MerkleTreeNode) : bool :=
  match n with mkNode _ _ _ _ b _ => b end.
Definition data (n : MerkleTreeNode) : option LeafData :=
  match n with mkNode _ _ _ _ _ d => d end.

(** [a === b] on two node references. *)
Definition same_node (a b : MerkleTreeNode) : bool := oid a =? oid b.

(** [x === b] where [x] may be [null]. *)
Definition ref_is (x : option MerkleTreeNode) (b : MerkleTreeNode) : bool :=
  match x with Some a => same_node a b | None => false end.

(** Arrays are mutable and shared: [_buildTreeRecursive] receives
    [this.leaves] itself and pushes onto it.  The heap maps an array reference
    to its current contents and numbers the objects it creates. *)
Record Heap := {
  next_oid : nat;
  next_arr : nat;
  arrays : nat -> list MerkleTreeNode
}.

Definition empty_heap : Heap :=
  {| next_oid := 0; next_arr := 0; arrays := fun _ => [] |}.

(** [[]]: a fresh empty array. *)
Definition new_array (h : Heap) : nat * Heap :=
  (next_arr h,
   {| next_oid := next_oid h;
      next_arr := S (next_arr h);
      arrays := fun a => if a =? next_arr h then [] else arrays h a |}).

(** [a.push(x)] *)
Definition array_push (a : nat) (x : MerkleTreeNode) (h : Heap) : Heap :=
  {| next_oid := next_oid h;
     next_arr := next_arr h;
     arrays := fun b => if b =? a then arrays h a ++ [x] else arrays h b |}.

(** [new MerkleTreeNode(hash, left, right, isLeaf, data)] *)
Definition new_MerkleTreeNode (hash : string) (left right : option MerkleTreeNode)
    (isLeaf : bool) (data : option LeafData) (h : Heap) : MerkleTreeNode * Heap :=
  (mkNode (next_oid h) hash left right isLeaf data,
   {| next_oid := S (next_oid h);
      next_arr := next_arr h;
      arrays := arrays h |}).

(** A [MerkleTree] object: [leaves] is a reference to an array, [nodes] the
    [Map] from hash to node. *)
Record MerkleTree := {
  root : option MerkleTreeNode;
  leaves : nat;
  nodes : JsMap string MerkleTreeNode
}.

Record MembershipStep := {
  step_hash : string;
  isLeft : bool;
  level : nat
}.

(** [rootHash] is what [getRootHash()] gave: a string, or [null]. *)
Record MembershipProof := {
  leafHash : string;
  leafIndex : nat;
  path : list MembershipStep;
  rootHash : option string
}.

Record TreeStats := {
  totalNodes : nat;
  leafNodes : nat;
  treeHeight : nat;
  stats_rootHash : option string
}.

(** An entry of [getLeafNodes()]. *)
Record LeafInfo := {
  info_hash : string;
  info_publicKey : string;
  info_index : nat;
  truncatedHash : string
}.

Module MerkleTree.
Section WithHost.
Context `{Host}.

Definition St : Type := MerkleTree * Heap.

(** [constructor()] *)
Definition constructor (h : Heap) : St :=
  let (a, h') := new_array h in
  ({| root := None; leaves := a; nodes := [] |}, h').

Definition set_nodes (this : MerkleTree) (m : JsMap string MerkleTreeNode) :=
  {| root := root this; leaves := leaves this; nodes := m |}.
Definition set_leaves (this : MerkleTree) (a : nat) :=
  {| root := root this; leaves := a; nodes := nodes this |}.
Definition set_root (this : MerkleTree) (r : option MerkleTreeNode) :=
  {| root := r; leaves := leaves this; nodes := nodes this |}.

(** [this.nodes.set(hash, node)] *)
Definition nodes_set (hash : string) (n : MerkleTreeNode) (this : MerkleTree) :=
  set_nodes this (map_set String.eqb hash n (nodes this)).

(** The [for] loop of [buildTree] that creates the leaves; [i] is the loop
    index and [keys] the part of [publicKeys] from [i] on. *)
Fixpoint leafLoop (keys : list string) (i : nat) (st : St) : St :=
  match keys with
  | [] => st
  | k :: keys' =>
      let (this, h) := st in
      let hash := CryptoUtils.generateUserId k in
      let (leaf, h1) :=
        new_MerkleTreeNode hash None None true
          (Some {| publicKey := k; index := i |}) h in
      let h2 := array_push (leaves this) leaf h1 in
      leafLoop keys' (S i) (nodes_set hash leaf this, h2)
  end.

(** The pairing loop of [_buildTreeRecursive]; [rest] is [nodes] from the
    loop index on.  With one element left, [right] is [undefined] and
    [right.hash] raises. *)
Fixpoint pairLoop (rest : list MerkleTreeNode) (nextLevel : nat) (st : St)
  : completion St unit :=
  match rest with
  | [] => Return tt st
  | [l] => Throw (TypeError "right.hash") st
  | l :: r :: rest' =>
      let (this, h) := st in
      let combinedHash := CryptoUtils.combineHashes (hash l) (hash r) in
      let (parent, h1) :=
        new_MerkleTreeNode combinedHash (Some l) (Some r) false None h in
      let h2 := array_push nextLevel parent h1 in
      pairLoop rest' nextLevel (nodes_set combinedHash parent this, h2)
  end.

(** [nodes.push(nodes[nodes.length - 1])] when the length is odd. *)
Definition padOdd (nodes : nat) (h : Heap) : Heap :=
  let xs := arrays h nodes in
  if Nat.odd (length xs) then
    match nth_error xs (length xs - 1) with
    | Some x => array_push nodes x h
    | None => h
    end
  else h.

(** [_buildTreeRecursive(nodes)]; [nodes] is an array reference.  On the
    empty array the source recurses for ever. *)
Fixpoint _buildTreeRecursive (fuel : nat) (nodes : nat) (st : St)
  : completion St MerkleTreeNode :=
  match fuel with
  | 0 => OutOfFuel
  | S fuel' =>
      let (this, h) := st in
      match arrays h nodes with
      | [only] => Return only st
      | _ =>
          let (nextLevel, h1) := new_array h in
          let h2 := padOdd nodes h1 in
          match pairLoop (arrays h2 nodes) nextLevel (this, h2) with
          | Return _ st' => _buildTreeRecursive fuel' nextLevel st'
          | Throw e st' => Throw e st'
          | OutOfFuel => OutOfFuel
          end
      end
  end.

(** [buildTree(publicKeys)].  The recursion halves the level at each call,
    so as many calls as there are keys are never used up. *)
Definition buildTree (publicKeys : list string) (st : St) : completion St unit :=
  let (this, h) := st in
  match publicKeys with
  | [] => Throw (Error "公钥列表不能为空") st
  | _ =>
      let (a, h1) := new_array h in
      let st1 := leafLoop publicKeys 0 (set_leaves this a, h1) in
      match _buildTreeRecursive (length publicKeys) (leaves (fst st1)) st1 with
      | Return r (this', h') => Return tt (set_root this' (Some r), h')
      | Throw e st' => Throw e st'
      | OutOfFuel => OutOfFuel
      end
  end.

(** [getRootHash()] *)
Definition getRootHash (this : MerkleTree) : option string :=
  match root this with Some r => Some (hash r) | None => None end.

(** [_findParent(node)]: first entry of [this.nodes], in insertion order,
    that is not a leaf and has [node] as a child. *)
Fixpoint findIn (m : JsMap string MerkleTreeNode) (node : MerkleTreeNode)
  : option MerkleTreeNode :=
  match m with
  | [] => None
  | (_, n) :: m' =>
      if (ref_is (left n) node || ref_is (right n) node) && negb (isLeaf n)
      then Some n else findIn m' node
  end.

Definition _findParent (this : MerkleTree) (node : MerkleTreeNode) :=
  findIn (nodes this) node.

(** The [while] loop of [generateMembershipProof]; [path] is [proof.path]
    so far.  [sibling.hash] raises when the sibling is [null]. *)
Fixpoint walk (fuel : nat) (this : MerkleTree) (currentNode : MerkleTreeNode)
    (path : list MembershipStep) : completion unit (list MembershipStep) :=
  match fuel with
  | 0 => OutOfFuel
  | S fuel' =>
      if negb (ref_is (root this) currentNode) then
        match _findParent this currentNode with
        | None => Return path tt
        | Some parent =>
            let isLeftChild := ref_is (left parent) currentNode in
            let sibling := if isLeftChild then right parent else left parent in
            match sibling with
            | None => Throw (TypeError "sibling.hash") tt
            | Some s =>
                walk fuel' this parent
                  (path ++ [{| step_hash := hash s;
                               isLeft := negb isLeftChild;
                               level := length path |}])
            end
        end
      else Return path tt
  end.

(** [generateMembershipProof(publicKey)]; [fuel] bounds the iterations of
    the loop. *)
Definition generateMembershipProof (fuel : nat) (publicKey : string) (st : St)
  : completion St MembershipProof :=
  let (this, h) := st in
  let userHash := CryptoUtils.generateUserId publicKey in
  match find (fun l => String.eqb (hash l) userHash) (arrays h (leaves this)) with
  | None => Throw (Error "用户不在树中") st
  | Some leaf =>
      match data leaf with
      | None => Throw (TypeError "leaf.data.index") st
      | Some d =>
          match walk fuel this leaf [] with
          | Return p _ =>
              Return {| leafHash := userHash;
                        leafIndex := index d;
                        path := p;
                        rootHash := getRootHash this |} st
          | Throw e _ => Throw e st
          | OutOfFuel => OutOfFuel
          end
      end
  end.

(** The [for ... of proof.path] loop of [verifyMembershipProof]. *)
Fixpoint foldPath (currentHash : string) (path : list MembershipStep) : string :=
  match path with
  | [] => currentHash
  | step :: path' =>
      foldPath
        (if isLeft step
         then CryptoUtils.combineHashes (step_hash step) currentHash
         else CryptoUtils.combineHashes currentHash (step_hash step))
        path'
  end.

(** [currentHash === proof.rootHash] *)
Definition hash_is (currentHash : string) (rootHash : option string) : bool :=
  match rootHash with
  | Some r => String.eqb currentHash r
  | None => false
  end.

(** [verifyMembershipProof(proof)]: a method, but it reads nothing of
    [this]. *)
Definition verifyMembershipProof (this : MerkleTree) (proof : MembershipProof)
  : bool :=
  hash_is (foldPath (leafHash proof) (path proof)) (rootHash proof).

(** [_calculateHeight(node)] *)
Fixpoint height (node : MerkleTreeNode) : nat :=
  match node with
  | mkNode _ _ l r leaf _ =>
      if leaf then 1
      else 1 + Nat.max (match l with Some x => height x | None => 0 end)
                       (match r with Some x => height x | None => 0 end)
  end.

Definition _calculateHeight (node : option MerkleTreeNode) : nat :=
  match node with None => 1 | Some n => height n end.

(** [getTreeStats()] *)
Definition getTreeStats (st : St) : TreeStats :=
  let (this, h) := st in
  match root this with
  | None =>
      {| totalNodes := 0; leafNodes := 0; treeHeight := 0;
         stats_rootHash := None |}
  | Some _ =>
      {| totalNodes := map_size (nodes this);
         leafNodes := length (arrays h (leaves this));
         treeHeight := _calculateHeight (root this);
         stats_rootHash := getRootHash this |}
  end.

(** The callback of [getLeafNodes]; [leaf.data.publicKey] raises when
    [data] is [null]. *)
Definition leafInfo (leaf : MerkleTreeNode) : JsError + LeafInfo :=
  match data leaf with
  | None => inl (TypeError "leaf.data.publicKey")
  | Some d =>
      inr {| info_hash := hash leaf;
             info_publicKey := publicKey d;
             info_index := index d;
             truncatedHash := CryptoUtils.truncateHash (hash leaf) 8 |}
  end.

(** [array.map(callback)], stopping at the first callback that throws. *)
Fixpoint mapLeaves (ls : list MerkleTreeNode) : JsError + list LeafInfo :=
  match ls with
  | [] => inr []
  | leaf :: ls' =>
      match leafInfo leaf with
      | inl e => inl e
      | inr i =>
          match mapLeaves ls' with
          | inl e => inl e
          | inr infos => inr (i :: infos)
          end
      end
  end.

(** [getLeafNodes()] *)
Definition getLeafNodes (st : St) : completion St (list LeafInfo) :=
  let (this, h) := st in
  match mapLeaves (arrays h (leaves this)) with
  | inl e => Throw e st
  | inr infos => Return infos st
  end.

(** [_visualizeNode(node, prefix, isLast, lines)] for a [node] that is not
    [null]; the result is [lines] after the pushes. *)
Fixpoint _visualizeNode (node : MerkleTreeNode) (prefix : string)
    (isLast : bool) (lines : list string) : list string :=
  match node with
  | mkNode _ h l r leaf _ =>
      let connector := if isLast then "└── " else "├── " in
      let nodeType := if leaf then "[叶子]" else "[内部]" in
      let hashDisplay := CryptoUtils.truncateHash h 12 in
      let lines1 :=
        lines ++ [(prefix ++ connector ++ nodeType ++ " " ++ hashDisplay)%string] in
      if negb leaf
         && (match l with Some _ => true | None => false end
             || match r with Some _ => true | None => false end)
      then
        let newPrefix := (prefix ++ (if isLast then "    " else "│   "))%string in
        let lines2 :=
          match l with
          | Some x =>
              _visualizeNode x newPrefix
                (negb (match r with Some _ => true | None => false end)) lines1
          | None => lines1
          end in
        match r with
        | Some x => _visualizeNode x newPrefix true lines2
        | None => lines2
        end
      else lines1
  end.

(** The lines [getTreeVisualization()] joins. *)
Definition visualizationLines (this : MerkleTree) : list string :=
  match root this with
  | None => []
  | Some r => _visualizeNode r EmptyString true []
  end.

Definition newline : string := String (ascii_of_nat 10) EmptyString.

(** [getTreeVisualization()] *)
Definition getTreeVisualization (this : MerkleTree) : string :=
  match root this with
  | None => "树为空"
  | Some _ => String.concat newline (visualizationLines this)
  end.
End WithHost.
End MerkleTree.

(** ** src/zk-proof.js *)

Record UserData := {
  user_publicKey : string;
  userId : string;
  user_index : Z
}.

Record Commitment := {
  commitment_hash : string;
  randomness : string;
  commitment_timestamp : Z
}.

Record Response := {
  response_hash : string;
  response_data : string;
  response_timestamp : Z
}.

(** The bundle handed to [verifyZKProof] comes from the caller: any of its
    sub-objects may be missing ([None] stands for [null] or [undefined]). *)
Record ProofBundle := {
  commitment : option Commitment;
  challenge : string;
  response : option Response;
  membershipProof : option MembershipProof;
  timestamp : Z;
  userIndex : JsNumber
}.

Record VerificationStep := {
  step : string;
  result : bool;
  details : string
}.

Record Summary := {
  totalSteps : nat;
  passedSteps : nat;
  finalResult : string
}.

Record VerificationReport := {
  isValid : bool;
  verificationSteps : list VerificationStep;
  summary : Summary
}.

Record UserPreview := {
  preview_index : Z;
  preview_userId : string;
  publicKeyPreview : string
}.

Record InitResult := {
  init_userCount : JsNumber;
  init_rootHash : option string;
  treeStats : TreeStats;
  users : list UserPreview
}.

Record ProofSummary := {
  commitmentHash : string;
  challengeHash : string;
  responseHash : string;
  pathLength : nat;
  summary_rootHash : string
}.

(** Everything outside the [ZKProofSystem] object that its methods change:
    the heap, the number of random draws and of clock readings so far. *)
Record World := {
  heap : Heap;
  draws : nat;
  ticks : nat
}.

Record ZKProofSystem := {
  merkleTree : option MerkleTree;
  userKeys : JsMap Z UserData;
  currentProof : option ProofBundle
}.

(** What [getSystemStatus()] returns: one of two object shapes. *)
Inductive SystemStatus :=
| NotInitialized (message : string)
| Initialized (userCount : nat) (rootHash : string)
              (treeHeight totalNodes : nat) (hasCurrentProof : bool).

(** [String(x)] for a value that is a string or [null], as [+] applies it. *)
Definition js_string (x : option string) : string :=
  match x with Some s => s | None => "null" end.

Module ZKProofSystem.
Section WithHost.
Context `{Host}.

Definition St : Type := ZKProofSystem * World.

(** [constructor()] *)
Definition constructor : ZKProofSystem :=
  {| merkleTree := None; userKeys := []; currentProof := None |}.

(** [Date.now()] *)
Definition Date_now (w : World) : Z * World :=
  (dateNow (ticks w),
   {| heap := heap w; draws := draws w; ticks := S (ticks w) |}).

Definition set_heap (w : World) (h : Heap) : World :=
  {| heap := h; draws := draws w; ticks := ticks w |}.
Definition set_draws (w : World) (d : nat) : World :=
  {| heap := heap w; draws := d; ticks := ticks w |}.

(** The key-generating loop of [initializeSystem]: [n] iterations are
    left and [i] is the loop index. *)
Fixpoint keyLoop (n : nat) (i : Z) (publicKeys : list string)
    (keys : JsMap Z UserData) (d : nat)
  : list string * JsMap Z UserData * nat :=
  match n with
  | 0 => (publicKeys, keys, d)
  | S n' =>
      let (publicKey, d') := CryptoUtils.generatePublicKey d in
      let userId := CryptoUtils.generateUserId publicKey in
      keyLoop n' (i + 1)%Z (publicKeys ++ [publicKey])
        (map_set Z.eqb i
           {| user_publicKey := publicKey; userId := userId; user_index := i |}
           keys)
        d'
  end.

(** How often [for (let i = 0; i < userCount; i++)] runs. *)
Definition iterations (userCount : JsNumber) : nat :=
  match userCount with Num z => Z.to_nat z | NaN => 0 end.

(** [initializeSystem(userCount)] *)
Definition initializeSystem (userCount : JsNumber) (st : St)
  : completion St InitResult :=
  let (this, w) := st in
  if js_lt userCount (Num 2) || js_gt userCount (Num 32) then
    Throw (Error "用户数量必须在2-32之间") st
  else
    let '(publicKeys, keys, d) :=
      keyLoop (iterations userCount) 0%Z [] [] (draws w) in
    let (tree, h1) := MerkleTree.constructor (heap w) in
    let this1 :=
      {| merkleTree := Some tree; userKeys := keys;
         currentProof := currentProof this |} in
    match MerkleTree.buildTree publicKeys (tree, h1) with
    | Return _ (tree', h2) =>
        let this2 :=
          {| merkleTree := Some tree'; userKeys := keys;
             currentProof := currentProof this |} in
        Return
          {| init_userCount := userCount;
             init_rootHash := MerkleTree.getRootHash tree';
             treeStats := MerkleTree.getTreeStats (tree', h2);
             users :=
               map (fun e : Z * UserData =>
                      {| preview_index := fst e;
                         preview_userId :=
                           CryptoUtils.truncateHash (userId (snd e)) 8;
                         publicKeyPreview :=
                           CryptoUtils.truncateHash (user_publicKey (snd e)) 8 |})
                   keys |}
          (this2, set_heap (set_draws w d) h2)
    | Throw e (tree', h2) =>
        Throw e
          ({| merkleTree := Some tree'; userKeys := keys;
              currentProof := currentProof this |},
           set_heap (set_draws w d) h2)
    | OutOfFuel => OutOfFuel
    end.

(** [_generateCommitment(publicKey)] *)
Definition _generateCommitment (publicKey : string) (w : World)
  : Commitment * World :=
  let (randomness, d) := CryptoUtils.generateSalt 32 (draws w) in
  let commitmentData := (publicKey ++ randomness)%string in
  let hash := sha256 commitmentData in
  let (now, w') := Date_now (set_draws w d) in
  ({| commitment_hash := hash; randomness := randomness;
      commitment_timestamp := now |}, w').

(** [_generateChallenge(commitment, membershipProof)] *)
Definition _generateChallenge (commitment : Commitment)
    (membershipProof : MembershipProof) : string :=
  let challengeData :=
    (commitment_hash commitment ++ js_string (rootHash membershipProof)
       ++ leafHash membershipProof)%string in
  sha256 challengeData.

(** [_generateResponse(publicKey, challenge, commitment)] *)
Definition _generateResponse (publicKey challenge : string)
    (commitment : Commitment) (w : World) : Response * World :=
  let responseData := (randomness commitment ++ challenge)%string in
  let hash := sha256 responseData in
  let (now, w') := Date_now w in
  ({| response_hash := hash; response_data := responseData;
      response_timestamp := now |}, w').

(** [this.userKeys.get(userIndex)]: no key of the map is [NaN]. *)
Definition userKeys_get (userIndex : JsNumber) (keys : JsMap Z UserData) :=
  match userIndex with
  | Num z => map_get Z.eqb z keys
  | NaN => None
  end.

(** [generateZKProof(userIndex)]; [fuel] goes to the loop of
    [generateMembershipProof].  [this.currentProof] is assigned before the
    summary is put together, where [truncateHash] of a [null] root hash
    raises. *)
Definition generateZKProof (fuel : nat) (userIndex : JsNumber) (st : St)
  : completion St (ProofBundle * ProofSummary) :=
  let (this, w) := st in
  match merkleTree this with
  | None => Throw (Error "系统未初始化") st
  | Some tree =>
      match userKeys_get userIndex (userKeys this) with
      | None => Throw (Error "用户不存在") st
      | Some userData =>
          match MerkleTree.generateMembershipProof fuel
                  (user_publicKey userData) (tree, heap w) with
          | OutOfFuel => OutOfFuel
          | Throw e _ => Throw e st
          | Return membershipProof _ =>
              let (commitment, w1) :=
                _generateCommitment (user_publicKey userData) w in
              let challenge := _generateChallenge commitment membershipProof in
              let (response, w2) :=
                _generateResponse (user_publicKey userData) challenge
                  commitment w1 in
              let (now, w3) := Date_now w2 in
              let proof :=
                {| commitment := Some commitment;
                   challenge := challenge;
                   response := Some response;
                   membershipProof := Some membershipProof;
                   timestamp := now;
                   userIndex := userIndex |} in
              let st' :=
                ({| merkleTree := merkleTree this;
                    userKeys := userKeys this;
                    currentProof := Some proof |}, w3) in
              match rootHash membershipProof with
              | None => Throw (TypeError "hash.substring") st'
              | Some root =>
                  Return
                    (proof,
                     {| commitmentHash :=
                          CryptoUtils.truncateHash (commitment_hash commitment) 8;
                        challengeHash := CryptoUtils.truncateHash challenge 8;
                        responseHash :=
                          CryptoUtils.truncateHash (response_hash response) 8;
                        pathLength := length (path membershipProof);
                        summary_rootHash := CryptoUtils.truncateHash root 8 |})
                    st'
              end
          end
      end
  end.

(** [_verifyResponse(proof)]; the hash is computed before
    [proof.response] is read. *)
Definition _verifyResponse (commitment : Commitment) (challenge : string)
    (response : option Response) : JsError + bool :=
  let expectedResponseData := (randomness commitment ++ challenge)%string in
  let expectedHash := sha256 expectedResponseData in
  match response with
  | None => inl (TypeError "proof.response.hash")
  | Some r => inr (String.eqb expectedHash (response_hash r))
  end.

(** [_verifyTimestamp(timestamp)] *)
Definition _verifyTimestamp (timestamp : Z) (w : World) : bool * World :=
  let (now, w') := Date_now w in
  let maxAge := (5 * 60 * 1000)%Z in
  ((now - timestamp <=? maxAge)%Z, w').

Definition membershipStep (membershipValid : bool) : VerificationStep :=
  {| step := "默克尔树成员证明验证";
     result := membershipValid;
     details := if membershipValid then "用户确实属于注册用户集合"
                else "用户不属于注册用户集合" |}.

Definition challengeStep (challengeValid : bool) : VerificationStep :=
  {| step := "挑战值验证";
     result := challengeValid;
     details := if challengeValid then "挑战值正确生成" else "挑战值不匹配" |}.

Definition responseStep (responseValid : bool) : VerificationStep :=
  {| step := "响应一致性验证";
     result := responseValid;
     details := if responseValid then "响应与承诺和挑战一致"
                else "响应验证失败" |}.

Definition timestampStep (timestampValid : bool) : VerificationStep :=
  {| step := "时间戳验证";
     result := timestampValid;
     details := if timestampValid then "证明在有效时间窗口内"
                else "证明已过期" |}.

Definition faultStep (error : JsError) : VerificationStep :=
  {| step := "验证过程";
     result := false;
     details := ("验证过程出错: " ++ message error)%string |}.

(** What the [try] block leaves: the steps pushed so far, [isValid], the
    clock, and the fault that ended the block early, if any. *)
Record TryState := {
  try_steps : list VerificationStep;
  try_isValid : bool;
  try_world : World;
  try_fault : option JsError
}.

(** The body of the [try] block of [verifyZKProof]. *)
Definition tryBlock (this : ZKProofSystem) (proof : ProofBundle) (w : World)
  : TryState :=
  let fault steps isValid e :=
    {| try_steps := steps; try_isValid := isValid; try_world := w;
       try_fault := Some e |} in
  match merkleTree this with
  | None => fault [] true (TypeError "this.merkleTree.verifyMembershipProof")
  | Some tree =>
      match membershipProof proof with
      | None => fault [] true (TypeError "proof.leafHash")
      | Some mp =>
          let membershipValid := MerkleTree.verifyMembershipProof tree mp in
          let steps1 := [membershipStep membershipValid] in
          let isValid1 := if negb membershipValid then false else true in
          match commitment proof with
          | None => fault steps1 isValid1 (TypeError "commitment.hash")
          | Some c =>
              let expectedChallenge := _generateChallenge c mp in
              let challengeValid :=
                String.eqb expectedChallenge (challenge proof) in
              let steps2 := steps1 ++ [challengeStep challengeValid] in
              let isValid2 := if negb challengeValid then false else isValid1 in
              match _verifyResponse c (challenge proof) (response proof) with
              | inl e => fault steps2 isValid2 e
              | inr responseValid =>
                  let steps3 := steps2 ++ [responseStep responseValid] in
                  let isValid3 :=
                    if negb responseValid then false else isValid2 in
                  let (timestampValid, w') :=
                    _verifyTimestamp (timestamp proof) w in
                  let steps4 := steps3 ++ [timestampStep timestampValid] in
                  let isValid4 :=
                    if negb timestampValid then false else isValid3 in
                  {| try_steps := steps4; try_isValid := isValid4;
                     try_world := w'; try_fault := None |}
              end
          end
      end
  end.

(** [verifyZKProof(proof)]; [None] is a [null] or [undefined] argument. *)
Definition verifyZKProof (proof : option ProofBundle) (st : St)
  : completion St VerificationReport :=
  let (this, w) := st in
  match proof with
  | None => Throw (Error "证明对象为空") st
  | Some p =>
      let t := tryBlock this p w in
      let verificationSteps :=
        match try_fault t with
        | Some error => try_steps t ++ [faultStep error]
        | None => try_steps t
        end in
      let isValid :=
        match try_fault t with Some _ => false | None => try_isValid t end in
      Return
        {| isValid := isValid;
           verificationSteps := verificationSteps;
           summary :=
             {| totalSteps := length verificationSteps;
                passedSteps :=
                  length (filter (fun s => result s) verificationSteps);
                finalResult := if isValid then "证明有效" else "证明无效" |} |}
        (this, try_world t)
  end.

(** [reset()] *)
Definition reset (st : St) : St :=
  let (this, w) := st in
  ({| merkleTree := None; userKeys := []; currentProof := None |}, w).

(** [getSystemStatus()]; [truncateHash] raises on the [null] root hash of a
    tree object that was never built. *)
Definition getSystemStatus (st : St) : JsError + SystemStatus :=
  let (this, w) := st in
  match merkleTree this with
  | None => inr (NotInitialized "系统未初始化")
  | Some tree =>
      let stats := MerkleTree.getTreeStats (tree, heap w) in
      match stats_rootHash stats with
      | None => inl (TypeError "hash.substring")
      | Some r =>
          inr (Initialized (map_size (userKeys this))
                 (CryptoUtils.truncateHash r 8)
                 (treeHeight stats) (totalNodes stats)
                 (match currentProof this with Some _ => true | None => false end))
      end
  end.
End WithHost.
End ZKProofSystem.


(** ** The build, as lists

    What [buildTree] creates, written without the heap: the nodes of each
    level in the order of their creation.  [build_rec_spec] and
    [buildTree_spec] below tie the code to these functions. *)
Module MerkleSpec.
Section WithHost.
Context `{Host}.

(** The index after [set(hash, node)] for each node of [L], in order. *)
Definition index_set (L : list MerkleTreeNode)
    (m : JsMap string MerkleTreeNode) : JsMap string MerkleTreeNode :=
  fold_left (fun m n => map_set String.eqb (hash n) n m) L m.

Fixpoint mkLeaves (c i : nat) (keys : list string) : list MerkleTreeNode :=
  match keys with
  | [] => []
  | k :: keys' =>
      mkNode c (CryptoUtils.generateUserId k) None None true
        (Some {| publicKey := k; index := i |})
      :: mkLeaves (S c) (S i) keys'
  end.

Fixpoint pairUp (c : nat) (xs : list MerkleTreeNode) : list MerkleTreeNode :=
  match xs with
  | l :: r :: rest =>
      mkNode c (CryptoUtils.combineHashes (hash l) (hash r))
        (Some l) (Some r) false None
      :: pairUp (S c) rest
  | _ => []
  end.

Definition padList (xs : list MerkleTreeNode) : list MerkleTreeNode :=
  if Nat.odd (length xs) then
    match nth_error xs (length xs - 1) with
    | Some x => xs ++ [x]
    | None => xs
    end
  else xs.

(** The array a level is held in, once [_buildTreeRecursive] is done with
    it. *)
Definition levelAfter (xs : list MerkleTreeNode) : list MerkleTreeNode :=
  match xs with
  | [_] => xs
  | _ => padList xs
  end.

(** Root and nodes created above the level [xs]. *)
Fixpoint buildPure (fuel c : nat) (xs : list MerkleTreeNode)
  : option (MerkleTreeNode * list MerkleTreeNode) :=
  match fuel with
  | 0 => None
  | S fuel' =>
      match xs with
      | [only] => Some (only, [])
      | _ =>
          let ps := pairUp c (padList xs) in
          match buildPure fuel' (c + length ps) ps with
          | Some (r, cr) => Some (r, ps ++ cr)
          | None => None
          end
      end
  end.

(** The node itself and everything below it. *)
Fixpoint subnodes (n : MerkleTreeNode) : list MerkleTreeNode :=
  match n with
  | mkNode _ _ l r _ _ =>
      n :: (match l with Some x => subnodes x | None => [] end)
        ++ (match r with Some x => subnodes x | None => [] end)
  end.

(** No two different internal nodes of [ns] carry the same hash. *)
Fixpoint internalHashesDistinct (ns : list MerkleTreeNode) : bool :=
  match ns with
  | [] => true
  | n :: ns' =>
      forallb (fun m => isLeaf n || isLeaf m
                        || negb (String.eqb (hash n) (hash m))
                        || (oid n =? oid m)) ns'
      && internalHashesDistinct ns'
  end.

(** The index of a built tree can find the parent of each node: internal
    nodes are told apart by their hashes. *)
Definition collisionFree (this : MerkleTree) : bool :=
  match root this with
  | Some r => internalHashesDistinct (subnodes r)
  | None => true
  end.

(** *** The build at the level of hashes *)

(** The hashes of the next level: adjacent pairs combined. *)
Fixpoint pairHashes (hs : list string) : list string :=
  match hs with
  | a :: b :: rest => CryptoUtils.combineHashes a b :: pairHashes rest
  | _ => []
  end.

(** An odd level with its last hash repeated. *)
Definition padHashes (hs : list string) : list string :=
  if Nat.odd (length hs) then
    match nth_error hs (length hs - 1) with
    | Some x => hs ++ [x]
    | None => hs
    end
  else hs.

Fixpoint rootOfLevel (fuel : nat) (hs : list string) : option string :=
  match fuel with
  | 0 => None
  | S fuel' =>
      match hs with
      | [only] => Some only
      | _ => rootOfLevel fuel' (pairHashes (padHashes hs))
      end
  end.

(** The root hash as a function of the ordered key list alone. *)
Definition merkleRoot (keys : list string) : option string :=
  rootOfLevel (length keys) (map CryptoUtils.generateUserId keys).

(** A perfect binary tree of depth [d]: childless leaves at depth 1,
    internal nodes with two children of equal depth. *)
Fixpoint perfect (d : nat) (n : MerkleTreeNode) : Prop :=
  match d with
  | 0 => False
  | S d' =>
      match d' with
      | 0 => isLeaf n = true /\ left n = None /\ right n = None
      | S _ =>
          isLeaf n = false
          /\ exists l r, left n = Some l /\ right n = Some r
                         /\ perfect d' l /\ perfect d' r
      end
  end.

(** The string a node's hash is the hash of: the key for a leaf, the two
    child hashes in left-right order for an internal node. *)
Definition nodeInput (n : MerkleTreeNode) : string :=
  if isLeaf n then
    match data n with Some d => publicKey d | None => EmptyString end
  else
    (match left n with Some l => hash l | None => EmptyString end
     ++ match right n with Some r => hash r | None => EmptyString end)%string.

(** The strings hashed to build the tree under [r]. *)
Definition treeInputs (r : MerkleTreeNode) : list string :=
  map nodeInput (subnodes r).

(** The nodes of the tree: the root and everything below it. *)
Definition treeNodes (this : MerkleTree) : list MerkleTreeNode :=
  match root this with Some r => subnodes r | None => [] end.

(** *** Tampering with a proof (for the tamper-sensitivity property) *)

Definition setStepHash (s : string) (st : MembershipStep) : MembershipStep :=
  {| step_hash := s; isLeft := isLeft st; level := level st |}.

(** The path with the sibling hash of step [i] replaced by [s]. *)
Fixpoint tamperPath (i : nat) (s : string) (path : list MembershipStep)
  : list MembershipStep :=
  match path, i with
  | [], _ => []
  | st :: path', 0 => setStepHash s st :: path'
  | st :: path', S i' => st :: tamperPath i' s path'
  end.

Definition tamperSibling (i : nat) (s : string) (p : MembershipProof) :=
  {| leafHash := leafHash p; leafIndex := leafIndex p;
     path := tamperPath i s (path p); rootHash := rootHash p |}.

Definition withRootHash (r : option string) (p : MembershipProof) :=
  {| leafHash := leafHash p; leafIndex := leafIndex p;
     path := path p; rootHash := r |}.

(** The string with the character at position [pos] replaced by [c]. *)
Fixpoint changeChar (pos : nat) (c : ascii) (s : string) : string :=
  match s, pos with
  | EmptyString, _ => EmptyString
  | String _ s', 0 => String c s'
  | String a s', S pos' => String a (changeChar pos' c s')
  end.

(** What one step of the fold hands to the hash. *)
Definition stepInput (currentHash : string) (st : MembershipStep) : string :=
  if isLeft st then (step_hash st ++ currentHash)%string
  else (currentHash ++ step_hash st)%string.

(** The strings [verifyMembershipProof] hashes, in order. *)
Fixpoint foldInputs (currentHash : string) (path : list MembershipStep)
  : list string :=
  match path with
  | [] => []
  | st :: path' =>
      stepInput currentHash st
      :: foldInputs (sha256 (stepInput currentHash st)) path'
  end.

(** The hash is injective on the strings of [S]. *)
Definition injectiveOn (S : list string) : Prop :=
  forall x y, In x S -> In y S -> sha256 x = sha256 y -> x = y.
(** An internal node as [_buildTreeRecursive] makes it: both children
    present, drawn from [A], older than the node, and hashed into it. *)
Definition internal_in (A : list MerkleTreeNode) (p : MerkleTreeNode) : Prop :=
  isLeaf p = false
  /\ exists l r, left p = Some l /\ right p = Some r
                 /\ In l A /\ In r A /\ oid l < oid p /\ oid r < oid p
                 /\ hash p = CryptoUtils.combineHashes (hash l) (hash r).
End WithHost.
End MerkleSpec.

(** ** The verification pipeline, check by check *)
Module ZKSpec.
Section WithHost.
Context `{Host}.

Definition rangeMessage : string := "用户数量必须在2-32之间".
Definition notInitializedMessage : string := "系统未初始化".

(** The four checks of [verifyZKProof], each from the bundle alone. *)
Definition membershipCheck (tree : MerkleTree) (mp : MembershipProof) : bool :=
  MerkleTree.verifyMembershipProof tree mp.
Definition challengeCheck (c : Commitment) (mp : MembershipProof)
    (p : ProofBundle) : bool :=
  String.eqb (ZKProofSystem._generateChallenge c mp) (challenge p).
Definition responseCheck (c : Commitment) (p : ProofBundle) (r : Response)
  : bool :=
  String.eqb (sha256 (randomness c ++ challenge p)%string) (response_hash r).
Definition freshnessCheck (p : ProofBundle) (w : World) : bool :=
  (dateNow (ticks w) - timestamp p <=? 5 * 60 * 1000)%Z.

(** The bundle with [response.hash] replaced. *)
Definition setResponseHash (s : string) (p : ProofBundle) : ProofBundle :=
  {| commitment := commitment p;
     challenge := challenge p;
     response :=
       match response p with
       | Some r => Some {| response_hash := s;
                           response_data := response_data r;
                           response_timestamp := response_timestamp r |}
       | None => None
       end;
     membershipProof := membershipProof p;
     timestamp := timestamp p;
     userIndex := userIndex p |}.

Definition reportOf (r1 r2 r3 r4 : bool) : VerificationReport :=
  let steps := [ZKProofSystem.membershipStep r1; ZKProofSystem.challengeStep r2;
                ZKProofSystem.responseStep r3; ZKProofSystem.timestampStep r4] in
  {| isValid := r1 && r2 && r3 && r4;
     verificationSteps := steps;
     summary :=
       {| totalSteps := 4;
          passedSteps := length (filter (fun s => result s) steps);
          finalResult := if r1 && r2 && r3 && r4 then "证明有效" else "证明无效" |} |}.

(** *** What [initializeSystem] registers *)

(** The key of identity [j] when [d] random draws were made before the
    call: each key is a draw of its own. *)
Definition drawnKey (d j : nat) : string :=
  fst (CryptoUtils.generatePublicKey (d + j)).
Definition drawnKeys (d n : nat) : list string := map (drawnKey d) (seq 0 n).

(** The entry of [userKeys] for identity [j], and what the result of
    [initializeSystem] shows of it. *)
Definition userEntry (d j : nat) : Z * UserData :=
  (Z.of_nat j,
   {| user_publicKey := drawnKey d j;
      userId := CryptoUtils.generateUserId (drawnKey d j);
      user_index := Z.of_nat j |}).
Definition userPreviewOf (d j : nat) : UserPreview :=
  {| preview_index := Z.of_nat j;
     preview_userId :=
       CryptoUtils.truncateHash (CryptoUtils.generateUserId (drawnKey d j)) 8;
     publicKeyPreview := CryptoUtils.truncateHash (drawnKey d j) 8 |}.

(** *** What [generateZKProof] puts together *)

(** The bundle made for the key [publicKey] with membership proof [mp] in
    the world [w]: one random draw, three readings of the clock. *)
Definition generatedBundle (publicKey : string) (mp : MembershipProof)
    (i : JsNumber) (w : World) : ProofBundle :=
  let rnd := fst (CryptoUtils.generateSalt 32 (draws w)) in
  let c := {| commitment_hash := sha256 (publicKey ++ rnd)%string;
              randomness := rnd;
              commitment_timestamp := dateNow (ticks w) |} in
  let ch := ZKProofSystem._generateChallenge c mp in
  {| commitment := Some c;
     challenge := ch;
     response := Some {| response_hash := sha256 (rnd ++ ch)%string;
                         response_data := (rnd ++ ch)%string;
                         response_timestamp := dateNow (1 + ticks w) |};
     membershipProof := Some mp;
     timestamp := dateNow (2 + ticks w);
     userIndex := i |}.

Definition afterGenerate (w : World) : World :=
  {| heap := heap w; draws := S (draws w); ticks := 3 + ticks w |}.

(** *** A bundle made without a key *)

(** Built from four strings and a time chosen freely: the membership proof
    has the empty path and names [h] as leaf hash and as root hash; challenge
    and response are recomputed the way the verifier does. *)
Definition keylessBundle (h commitmentHash rnd : string) (ts : Z)
    (i : JsNumber) : ProofBundle :=
  let mp := {| leafHash := h; leafIndex := 0; path := [];
               rootHash := Some h |} in
  let c := {| commitment_hash := commitmentHash; randomness := rnd;
              commitment_timestamp := ts |} in
  let ch := ZKProofSystem._generateChallenge c mp in
  {| commitment := Some c;
     challenge := ch;
     response := Some {| response_hash := sha256 (rnd ++ ch)%string;
                         response_data := (rnd ++ ch)%string;
                         response_timestamp := ts |};
     membershipProof := Some mp;
     timestamp := ts;
     userIndex := i |}.

(** Whether [i] is one of the numbers [0 .. n-1]. *)
Definition registeredIndex (n : nat) (i : JsNumber) : bool :=
  match i with
  | Num z => (0 <=? z)%Z && (z <? Z.of_nat n)%Z
  | NaN => false
  end.
End WithHost.
End ZKSpec.

(** A hash for worked examples: it brackets its input, so it is injective
    and nested hashes can be told apart. *)
#[local] Instance toyHost : Host := {
  sha256 := fun s => ("<" ++ s ++ ">")%string;
  getRandomHex := fun k n => ("key" ++ String (ascii_of_nat (48 + k)) EmptyString)%string;
  dateNow := fun k => 1000000%Z;
  typeErrorMessage := fun a => ("Cannot read " ++ a)%string
}.

(** Inputs and states of the worked examples. *)
Module Demo.

Definition fresh : MerkleTree.St := MerkleTree.constructor empty_heap.

(** The state [buildTree keys] leaves on a fresh tree. *)
Definition built (keys : list string) : MerkleTree.St :=
  match MerkleTree.buildTree keys fresh with
  | Return _ st => st
  | Throw _ st => st
  | OutOfFuel => fresh
  end.

Definition abc : list string := ["a"; "b"; "c"].
Definition aaa : list string := ["a"; "a"; "a"].

(** The proof [generateMembershipProof] gives for the second key of
    [abc]. *)
Definition proof_b : MembershipProof :=
  {| leafHash := "<b>";
     leafIndex := 1;
     path := [ {| step_hash := "<a>"; isLeft := true; level := 0 |};
               {| step_hash := "<<c><c>>"; isLeft := false; level := 1 |} ];
     rootHash := Some "<<<a><b>><<c><c>>>" |}.

Definition world0 : World := {| heap := empty_heap; draws := 0; ticks := 0 |}.

Definition noBundle : ProofBundle :=
  {| commitment := None; challenge := EmptyString; response := None;
     membershipProof := None; timestamp := 0; userIndex := NaN |}.

(** A system initialized with three identities, and the bundle it generates
    for identity 1. *)
Definition system3 : ZKProofSystem.St :=
  Eval vm_compute in
  match ZKProofSystem.initializeSystem (Num 3) (ZKProofSystem.constructor, world0) with
  | Return _ st => st
  | _ => (ZKProofSystem.constructor, world0)
  end.

Definition bundle1 : ProofBundle :=
  Eval vm_compute in
  match ZKProofSystem.generateZKProof 10 (Num 1) system3 with
  | Return (p, _) _ => p
  | _ => noBundle
  end.

Definition de : list string := ["d"; "e"].

(** The state a second [buildTree], on [keys2], leaves on the tree built
    from [keys1]. *)
Definition rebuilt (keys1 keys2 : list string) : MerkleTree.St :=
  match MerkleTree.buildTree keys2 (built keys1) with
  | Return _ st => st
  | Throw _ st => st
  | OutOfFuel => fresh
  end.

(** What [generateZKProof(1)] leaves and returns on [system3], beside
    [bundle1]. *)
Definition system3_generated : ZKProofSystem.St :=
  Eval vm_compute in
  match ZKProofSystem.generateZKProof 10 (Num 1) system3 with
  | Return _ st => st
  | _ => system3
  end.

Definition summary1 : ProofSummary :=
  Eval vm_compute in
  match ZKProofSystem.generateZKProof 10 (Num 1) system3 with
  | Return (_, s) _ => s
  | _ => {| commitmentHash := EmptyString; challengeHash := EmptyString;
            responseHash := EmptyString; pathLength := 0;
            summary_rootHash := EmptyString |}
  end.

(** The state a failed [initializeSystem(NaN)] leaves on a new system. *)
Definition systemNaN : ZKProofSystem.St :=
  Eval vm_compute in
  match ZKProofSystem.initializeSystem NaN (ZKProofSystem.constructor, world0) with
  | Throw _ st => st
  | _ => (ZKProofSystem.constructor, world0)
  end.

(** A bundle made from the strings ["h"], ["c"], ["r"] at time 1000000. *)
Definition keyless : ProofBundle :=
  ZKSpec.keylessBundle "h" "c" "r" 1000000 (Num 7).

(** A hash given by a table, with digests of one character; it is
    injective on ["a"], ["b"] and ["12"]. *)
Definition tableHost : Host := {|
  sha256 := fun s =>
    if String.eqb s "a" then "1"
    else if String.eqb s "b" then "2"
    else if String.eqb s "12" then "3"
    else "0";
  getRandomHex := fun k n => "r";
  dateNow := fun k => 0%Z;
  typeErrorMessage := fun a => a
|}.

Definition ab : list string := ["a"; "b"].

(** The tree of [ab] under the table hash, and the proof for ["a"]. *)
Definition built_table : MerkleTree.St :=
  match @MerkleTree.buildTree tableHost ab fresh with
  | Return _ st => st
  | Throw _ st => st
  | OutOfFuel => fresh
  end.

Definition proof_a_table : MembershipProof :=
  {| leafHash := "1";
     leafIndex := 0;
     path := [ {| step_hash := "2"; isLeft := false; level := 0 |} ];
     rootHash := Some "3" |}.
End Demo.

(** * Lemmas *)

Unset Implicit Arguments.

(** ** Tactics *)

(** Membership in the lists of hashed strings. *)
Ltac in_lists :=
  cbn [MerkleSpec.foldInputs MerkleSpec.tamperPath app In] in *; rewrite ?in_app_iff in *;
  cbn [In] in *; intuition auto.

(** Comparisons of serial numbers, settled by arithmetic. *)
Ltac oid_compare :=
  repeat match goal with
    | |- context [Nat.eqb ?a ?b] =>
        first [ replace (Nat.eqb a b) with true
                  by (symmetry; apply Nat.eqb_eq; lia)
              | replace (Nat.eqb a b) with false
                  by (symmetry; apply Nat.eqb_neq; lia) ]
    | H : context [Nat.eqb ?a ?b] |- _ =>
        first [ replace (Nat.eqb a b) with true in H
                  by (symmetry; apply Nat.eqb_eq; lia)
              | replace (Nat.eqb a b) with false in H
                  by (symmetry; apply Nat.eqb_neq; lia) ]
    end.

(** ** Lists, strings, numbers *)

Lemma list_pair_ind (A : Type) (P : list A -> Prop) :
  P [] -> (forall x, P [x]) -> (forall x y l, P l -> P (x :: y :: l)) ->
  forall l, P l.
Proof.
  intros H0 H1 H2.
  assert (both : forall l, P l /\ forall x, P (x :: l)).
  { induction l as [|a l [IHl IHl']]; split; auto. }
  intro l. apply both.
Qed.

Lemma even_length_cons2 (A : Type) (x y : A) (l : list A) :
  Nat.even (length (x :: y :: l)) = Nat.even (length l).
Proof. reflexivity. Qed.

Lemma odd_negb_even n : Nat.odd n = negb (Nat.even n).
Proof. reflexivity. Qed.

Lemma append_inv_head (s a b : string) :
  (s ++ a)%string = (s ++ b)%string -> a = b.
Proof.
  induction s as [|c s IH]; simpl; intro E; [exact E|].
  injection E as E. auto.
Qed.

Lemma list_of_append (a b : string) :
  list_ascii_of_string (a ++ b)%string
  = list_ascii_of_string a ++ list_ascii_of_string b.
Proof. induction a as [|c a IH]; simpl; [reflexivity | now rewrite IH]. Qed.

Lemma append_inv_tail (s a b : string) :
  (a ++ s)%string = (b ++ s)%string -> a = b.
Proof.
  intro E. apply (f_equal list_ascii_of_string) in E.
  rewrite !list_of_append in E. apply app_inv_tail in E.
  rewrite <- (string_of_list_ascii_of_string a),
          <- (string_of_list_ascii_of_string b).
  now rewrite E.
Qed.

Lemma div2_succ_le n : 2 <= n -> (n + 1) / 2 <= n - 1.
Proof.
  intro Hn.
  assert (E : n + 1 = 2 * ((n + 1) / 2) + (n + 1) mod 2) by (apply Nat.div_mod_eq).
  assert (B : (n + 1) mod 2 < 2) by (apply Nat.mod_upper_bound; lia).
  lia.
Qed.

(** ** Formatting in [CryptoUtils] *)
Module CryptoFacts.
Section WithHost.
Context `{Host}.



Lemma string_length_append (a b : string) :
  String.length (a ++ b)%string = String.length a + String.length b.
Proof. induction a; cbn; auto. Qed.



(** *** Hex rendering *)

Lemma byteHex_digits b :
  CryptoUtils.byteHex b
  = String (CryptoUtils.hexDigit (Byte.to_nat b / 16))
      (String (CryptoUtils.hexDigit (Byte.to_nat b mod 16)) EmptyString).
Proof. destruct b; reflexivity. Qed.

Lemma hexDigit_hex d : d < 16 -> CryptoUtils.isHexChar (CryptoUtils.hexDigit d) = true.
Proof.
  intro Hd. do 16 (destruct d as [|d]; [reflexivity|]). lia.
Qed.

Lemma hexDigit_inj d e :
  d < 16 -> e < 16 -> CryptoUtils.hexDigit d = CryptoUtils.hexDigit e -> d = e.
Proof.
  intros Hd He.
  do 16 (destruct d as [|d];
         [do 16 (destruct e as [|e]; [first [reflexivity | discriminate]|]); lia|]).
  lia.
Qed.

Lemma byte_bound b : Byte.to_nat b < 256.
Proof. destruct b; cbn; lia. Qed.

Lemma append_empty_r (s : string) : (s ++ EmptyString)%string = s.
Proof. induction s; cbn; congruence. Qed.

Lemma toHex_cons b bs :
  CryptoUtils.toHex (b :: bs) = (CryptoUtils.byteHex b ++ CryptoUtils.toHex bs)%string.
Proof.
  unfold CryptoUtils.toHex. cbn [map String.concat].
  destruct (map CryptoUtils.byteHex bs) eqn:E.
  - cbn [String.concat]. now rewrite append_empty_r.
  - reflexivity.
Qed.

Lemma toHex_length bs : String.length (CryptoUtils.toHex bs) = 2 * length bs.
Proof.
  induction bs as [|b bs IH]; [reflexivity|].
  rewrite toHex_cons, string_length_append, IH, byteHex_digits. cbn. lia.
Qed.

Lemma toHex_hex bs :
  forallb CryptoUtils.isHexChar (list_ascii_of_string (CryptoUtils.toHex bs)) = true.
Proof.
  induction bs as [|b bs IH]; [reflexivity|].
  rewrite toHex_cons, list_of_append, forallb_app, IH, byteHex_digits.
  pose proof (byte_bound b) as B.
  cbn [list_ascii_of_string forallb].
  rewrite (hexDigit_hex (Byte.to_nat b / 16)), (hexDigit_hex (Byte.to_nat b mod 16)).
  - reflexivity.
  - apply Nat.mod_upper_bound. lia.
  - apply Nat.Div0.div_lt_upper_bound. lia.
Qed.

Lemma byteHex_inj b c : CryptoUtils.byteHex b = CryptoUtils.byteHex c -> b = c.
Proof.
  rewrite !byteHex_digits.
  pose proof (byte_bound b) as Bb. pose proof (byte_bound c) as Bc.
  pose proof (Nat.div_mod_eq (Byte.to_nat b) 16) as Db.
  pose proof (Nat.div_mod_eq (Byte.to_nat c) 16) as Dc.
  assert (Hb1 : Byte.to_nat b / 16 < 16) by (apply Nat.Div0.div_lt_upper_bound; lia).
  assert (Hc1 : Byte.to_nat c / 16 < 16) by (apply Nat.Div0.div_lt_upper_bound; lia).
  assert (Hb0 : Byte.to_nat b mod 16 < 16) by (apply Nat.mod_upper_bound; lia).
  assert (Hc0 : Byte.to_nat c mod 16 < 16) by (apply Nat.mod_upper_bound; lia).
  set (b1 := Byte.to_nat b / 16) in *. set (b0 := Byte.to_nat b mod 16) in *.
  set (c1 := Byte.to_nat c / 16) in *. set (c0 := Byte.to_nat c mod 16) in *.
  intro E. injection E as E1 E0.
  apply hexDigit_inj in E1; [|assumption|assumption].
  apply hexDigit_inj in E0; [|assumption|assumption].
  assert (En : Byte.to_nat b = Byte.to_nat c) by lia.
  pose proof (Byte.of_to_nat b) as Ob. pose proof (Byte.of_to_nat c) as Oc.
  congruence.
Qed.

(** The rendering [sha256], [generatePublicKey] and [generateSalt] apply to
    their bytes gives two characters per byte, all of them hex digits; so
    the rendering of 32 bytes (a SHA-256 digest, a generated public key)
    passes [isValidHash], and the rendering of any other number of bytes
    does not. *)
Theorem toHex_valid (bytes : list Byte.byte) :
  String.length (CryptoUtils.toHex bytes) = 2 * length bytes
  /\ forallb CryptoUtils.isHexChar
       (list_ascii_of_string (CryptoUtils.toHex bytes)) = true
  /\ (CryptoUtils.isValidHash (CryptoUtils.toHex bytes) = true
      <-> length bytes = 32).
Proof.
  split; [apply toHex_length | split; [apply toHex_hex|]].
  unfold CryptoUtils.isValidHash.
  rewrite toHex_hex, andb_true_r, toHex_length, Nat.eqb_eq. lia.
Qed.

(** Different byte sequences never render to the same hex string. *)
Theorem toHex_injective (bytes bytes' : list Byte.byte) :
  CryptoUtils.toHex bytes = CryptoUtils.toHex bytes' -> bytes = bytes'.
Proof.
  revert bytes'. induction bytes as [|b bs IH]; intros [|c cs] E.
  - reflexivity.
  - apply (f_equal String.length) in E. rewrite !toHex_length in E. cbn in E. lia.
  - apply (f_equal String.length) in E. rewrite !toHex_length in E. cbn in E. lia.
  - rewrite !toHex_cons, !byteHex_digits in E.
    set (b1 := Byte.to_nat b / 16) in *. set (b0 := Byte.to_nat b mod 16) in *.
    set (c1 := Byte.to_nat c / 16) in *. set (c0 := Byte.to_nat c mod 16) in *.
    cbn [append] in E. injection E as E1 E0 E.
    f_equal.
    + apply byteHex_inj. rewrite !byteHex_digits.
      fold b1 b0 c1 c0. congruence.
    + now apply IH.
Qed.
End WithHost.
End CryptoFacts.

(** ** The build in terms of lists *)
Module MerkleFacts.
Import MerkleSpec.
Section WithHost.
Context `{Host}.

Lemma index_set_app L1 L2 m :
  index_set (L1 ++ L2) m = index_set L2 (index_set L1 m).
Proof. apply fold_left_app. Qed.

Lemma mkLeaves_length keys : forall c i, length (mkLeaves c i keys) = length keys.
Proof. induction keys; simpl; intros; [reflexivity | now rewrite IHkeys]. Qed.

Lemma pairUp_length xs : forall c, length (pairUp c xs) = length xs / 2.
Proof.
  induction xs as [| x | x y l IH] using list_pair_ind; intro c;
    try reflexivity.
  cbn [pairUp length]. rewrite IH.
  change (S (S (length l))) with (1 * 2 + length l).
  rewrite Nat.div_add_l by lia. lia.
Qed.

Lemma padList_length xs :
  length (padList xs) = length xs + (if Nat.odd (length xs) then 1 else 0).
Proof.
  unfold padList. destruct (Nat.odd (length xs)) eqn:E; [|lia].
  destruct (nth_error xs (length xs - 1)) eqn:N.
  - rewrite length_app. reflexivity.
  - apply nth_error_None in N. destruct xs; [discriminate E | simpl in N; lia].
Qed.

Lemma padList_even xs : Nat.even (length (padList xs)) = true.
Proof.
  rewrite padList_length. destruct (Nat.odd (length xs)) eqn:E.
  - rewrite Nat.add_1_r, Nat.even_succ. exact E.
  - rewrite Nat.add_0_r. rewrite odd_negb_even in E.
    now destruct (Nat.even (length xs)).
Qed.

Lemma padList_In xs x : In x (padList xs) <-> In x xs.
Proof.
  unfold padList. destruct (Nat.odd (length xs)); [|tauto].
  destruct (nth_error xs (length xs - 1)) eqn:N; [|tauto].
  rewrite in_app_iff. simpl. apply nth_error_In in N.
  split; [intros [?|[<-|[]]]; auto | auto].
Qed.

Lemma next_level_length xs c :
  length (pairUp c (padList xs)) = (length xs + 1) / 2.
Proof.
  rewrite pairUp_length, padList_length.
  destruct (Nat.odd (length xs)) eqn:E; [reflexivity|].
  rewrite Nat.add_0_r.
  rewrite odd_negb_even in E. apply negb_false_iff, Nat.even_spec in E.
  destruct E as [k ->].
  rewrite (Nat.mul_comm 2 k), Nat.div_add_l, Nat.div_mul by lia.
  simpl. lia.
Qed.

(** *** The loops *)

Lemma leafLoop_spec keys : forall i this h,
  let st' := MerkleTree.leafLoop keys i (this, h) in
  let lv := mkLeaves (next_oid h) i keys in
  root (fst st') = root this /\ leaves (fst st') = leaves this
  /\ nodes (fst st') = index_set lv (nodes this)
  /\ next_oid (snd st') = next_oid h + length keys
  /\ next_arr (snd st') = next_arr h
  /\ arrays (snd st') (leaves this) = arrays h (leaves this) ++ lv
  /\ forall b, b <> leaves this -> arrays (snd st') b = arrays h b.
Proof.
  induction keys as [|k keys IH]; intros i this h.
  - simpl. rewrite app_nil_r. repeat split; auto.
  - cbn [MerkleTree.leafLoop new_MerkleTreeNode].
    match goal with |- context [MerkleTree.leafLoop keys (S i) (?t, ?g)] =>
      specialize (IH (S i) t g) end.
    cbv zeta in IH |- *.
    destruct IH as (R & Lv & N & O & A & Ar & Fr).
    cbn [mkLeaves]. cbn in R, Lv, N, O, A, Ar, Fr.
    rewrite Nat.eqb_refl in Ar.
    repeat split; auto.
    + cbn [length]. lia.
    + rewrite Ar, <- app_assoc. reflexivity.
    + intros b Hb. rewrite (Fr b Hb).
      apply Nat.eqb_neq in Hb. now rewrite Hb.
Qed.

Lemma pairLoop_spec rest : forall nl this h,
  Nat.even (length rest) = true ->
  exists this' h',
    MerkleTree.pairLoop rest nl (this, h) = Return tt (this', h')
    /\ root this' = root this /\ leaves this' = leaves this
    /\ nodes this' = index_set (pairUp (next_oid h) rest) (nodes this)
    /\ next_oid h' = next_oid h + length (pairUp (next_oid h) rest)
    /\ next_arr h' = next_arr h
    /\ arrays h' nl = arrays h nl ++ pairUp (next_oid h) rest
    /\ forall b, b <> nl -> arrays h' b = arrays h b.
Proof.
  induction rest as [| x | x y l IH] using list_pair_ind; intros nl this h Ev.
  - exists this, h. simpl. rewrite app_nil_r. repeat split; auto.
  - discriminate Ev.
  - rewrite even_length_cons2 in Ev.
    cbn [MerkleTree.pairLoop new_MerkleTreeNode].
    match goal with |- context [MerkleTree.pairLoop l nl (?t, ?g)] =>
      destruct (IH nl t g Ev) as (this' & h' & E & R & Lv & N & O & A & Ar & Fr)
    end.
    exists this', h'. cbn in R, Lv, N, O, A, Ar, Fr.
    rewrite Nat.eqb_refl in Ar.
    cbn [pairUp]. repeat split; auto.
    + cbn [length]. lia.
    + rewrite Ar, <- app_assoc. reflexivity.
    + intros b Hb. rewrite (Fr b Hb).
      apply Nat.eqb_neq in Hb. now rewrite Hb.
Qed.

Lemma padOdd_spec a h :
  next_oid (MerkleTree.padOdd a h) = next_oid h
  /\ next_arr (MerkleTree.padOdd a h) = next_arr h
  /\ arrays (MerkleTree.padOdd a h) a = padList (arrays h a)
  /\ forall b, b <> a -> arrays (MerkleTree.padOdd a h) b = arrays h b.
Proof.
  unfold MerkleTree.padOdd, padList.
  destruct (Nat.odd (length (arrays h a))); [|auto].
  destruct (nth_error (arrays h a) (length (arrays h a) - 1)); [|auto].
  cbn. rewrite Nat.eqb_refl. repeat split; auto.
  intros b Hb. apply Nat.eqb_neq in Hb. now rewrite Hb.
Qed.

(** *** The recursion *)

Lemma build_rec_spec fuel : forall a this h r cr,
  a < next_arr h ->
  buildPure fuel (next_oid h) (arrays h a) = Some (r, cr) ->
  exists this' h',
    MerkleTree._buildTreeRecursive fuel a (this, h) = Return r (this', h')
    /\ root this' = root this /\ leaves this' = leaves this
    /\ nodes this' = index_set cr (nodes this)
    /\ next_oid h' = next_oid h + length cr
    /\ next_arr h <= next_arr h'
    /\ arrays h' a = levelAfter (arrays h a)
    /\ forall b, b < next_arr h -> b <> a -> arrays h' b = arrays h b.
Proof.
  induction fuel as [|fuel IH]; intros a this h r cr Ha B; [discriminate B|].
  cbn [MerkleTree._buildTreeRecursive buildPure] in *.
  assert (single : forall only, arrays h a = [only] ->
    exists this' h',
      Return only (this, h) = Return r (this', h')
      /\ root this' = root this /\ leaves this' = leaves this
      /\ nodes this' = index_set cr (nodes this)
      /\ next_oid h' = next_oid h + length cr
      /\ next_arr h <= next_arr h'
      /\ arrays h' a = levelAfter (arrays h a)
      /\ forall b, b < next_arr h -> b <> a -> arrays h' b = arrays h b).
  { intros only E. rewrite E in B. injection B as <- <-.
    exists this, h. rewrite E. cbn. repeat split; auto. }
  assert (many : (forall only, arrays h a <> [only]) ->
    levelAfter (arrays h a) = padList (arrays h a) ->
    (match buildPure fuel
             (next_oid h + length (pairUp (next_oid h) (padList (arrays h a))))
             (pairUp (next_oid h) (padList (arrays h a))) with
     | Some (r, cr) => Some (r, pairUp (next_oid h) (padList (arrays h a)) ++ cr)
     | None => None
     end = Some (r, cr)) ->
    exists this' h',
      (let (nextLevel, h1) := new_array h in
       let h2 := MerkleTree.padOdd a h1 in
       match MerkleTree.pairLoop (arrays h2 a) nextLevel (this, h2) with
       | Return _ st' => MerkleTree._buildTreeRecursive fuel nextLevel st'
       | Throw e st' => Throw e st'
       | OutOfFuel => OutOfFuel
       end) = Return r (this', h')
      /\ root this' = root this /\ leaves this' = leaves this
      /\ nodes this' = index_set cr (nodes this)
      /\ next_oid h' = next_oid h + length cr
      /\ next_arr h <= next_arr h'
      /\ arrays h' a = levelAfter (arrays h a)
      /\ forall b, b < next_arr h -> b <> a -> arrays h' b = arrays h b).
  { intros _ LA B'.
    set (xs := arrays h a) in *. set (c := next_oid h) in *.
    set (ps := pairUp c (padList xs)) in *.
    destruct (buildPure fuel (c + length ps) ps) as [[r' cr']|] eqn:BP;
      [|discriminate B'].
    injection B' as <- <-.
    unfold new_array.
    set (h1 := {| next_oid := next_oid h; next_arr := S (next_arr h);
                  arrays := fun b => if b =? next_arr h then [] else arrays h b |}).
    assert (Hne : a <> next_arr h) by lia.
    assert (A1 : arrays h1 a = xs).
    { cbn. apply Nat.eqb_neq in Hne. now rewrite Hne. }
    destruct (padOdd_spec a h1) as (O2 & N2 & A2 & F2).
    cbv zeta. set (h2 := MerkleTree.padOdd a h1) in *.
    rewrite A1 in A2. rewrite A2.
    destruct (pairLoop_spec (padList xs) (next_arr h) this h2 (padList_even xs))
      as (this3 & h3 & E3 & R3 & L3 & M3 & O3 & N3 & A3 & F3).
    rewrite E3.
    assert (Oh2 : next_oid h2 = c) by (rewrite O2; reflexivity).
    rewrite Oh2 in M3, O3, A3. fold ps in M3, O3, A3.
    assert (Anl : arrays h2 (next_arr h) = []).
    { rewrite F2 by lia. cbn. now rewrite Nat.eqb_refl. }
    rewrite Anl in A3. cbn [app] in A3.
    assert (N3' : next_arr h3 = S (next_arr h)) by (rewrite N3, N2; reflexivity).
    destruct (IH (next_arr h) this3 h3 r' cr') as
      (this' & h' & E & R & L & M & O & N & A & F).
    { lia. }
    { rewrite O3, A3. exact BP. }
    exists this', h'. rewrite E. repeat split.
    - congruence.
    - congruence.
    - rewrite M, M3, index_set_app. reflexivity.
    - rewrite O, O3, length_app. lia.
    - lia.
    - rewrite LA, F by lia. rewrite F3 by lia. exact A2.
    - intros b Hb Hba. rewrite F by lia. rewrite F3 by lia.
      rewrite F2 by auto. cbn.
      assert (Hb' : b <> next_arr h) by lia.
      apply Nat.eqb_neq in Hb'. now rewrite Hb'. }
  destruct (arrays h a) as [|x [|y l]] eqn:E.
  - apply many; [discriminate | reflexivity | exact B].
  - apply (single x). reflexivity.
  - apply many; [discriminate | reflexivity | exact B].
Qed.

Lemma buildPure_total fuel : forall c xs,
  xs <> [] -> length xs <= fuel -> exists r cr, buildPure fuel c xs = Some (r, cr).
Proof.
  induction fuel as [|fuel IH]; intros c xs Hne Hlen.
  - destruct xs; [congruence | simpl in Hlen; lia].
  - cbn [buildPure].
    assert (many : 2 <= length xs ->
      exists r cr,
        match buildPure fuel (c + length (pairUp c (padList xs)))
                (pairUp c (padList xs)) with
        | Some (r, cr) => Some (r, pairUp c (padList xs) ++ cr)
        | None => None
        end = Some (r, cr)).
    { intro H2.
      pose proof (next_level_length xs c) as NL.
      pose proof (div2_succ_le _ H2) as D.
      assert (1 <= (length xs + 1) / 2).
      { apply Nat.div_le_lower_bound; lia. }
      destruct (IH (c + length (pairUp c (padList xs))) (pairUp c (padList xs)))
        as (r & cr & E).
      - intro E0. rewrite E0 in NL. cbn [length] in NL. lia.
      - lia.
      - rewrite E. eauto. }
    destruct xs as [|x [|y l]]; [congruence | eauto | apply many; simpl; lia].
Qed.

(** What [buildTree] leaves behind, for a non-empty key list. *)
Lemma buildTree_spec keys this h :
  keys <> [] ->
  let lv := mkLeaves (next_oid h) 0 keys in
  exists r cr this' h',
    buildPure (length keys) (next_oid h + length keys) lv = Some (r, cr)
    /\ MerkleTree.buildTree keys (this, h) = Return tt (this', h')
    /\ root this' = Some r
    /\ nodes this' = index_set (lv ++ cr) (nodes this)
    /\ arrays h' (leaves this') = levelAfter lv
    /\ next_oid h' = next_oid h + length keys + length cr.
Proof.
  intros Hne lv.
  destruct (buildPure_total (length keys) (next_oid h + length keys) lv)
    as (r & cr & BP).
  { subst lv. destruct keys; [congruence | discriminate]. }
  { subst lv. rewrite mkLeaves_length. lia. }
  exists r, cr.
  unfold MerkleTree.buildTree.
  destruct keys as [|k0 keys0]; [congruence|].
  set (keys := k0 :: keys0) in *.
  unfold new_array.
  set (h1 := {| next_oid := next_oid h; next_arr := S (next_arr h);
                arrays := fun b => if b =? next_arr h then [] else arrays h b |}).
  set (t1 := MerkleTree.set_leaves this (next_arr h)).
  pose proof (leafLoop_spec keys 0 t1 h1) as LS. cbv zeta in LS.
  destruct (MerkleTree.leafLoop keys 0 (t1, h1)) as [t2 h2] eqn:EL.
  cbn [fst snd] in LS. destruct LS as (R2 & L2 & M2 & O2 & N2 & A2 & F2).
  cbn in R2, L2, M2, O2, N2, A2. rewrite Nat.eqb_refl in A2. cbn [app] in A2.
  fold lv in M2, A2.
  cbn [fst]. rewrite L2.
  destruct (build_rec_spec (length keys) (next_arr h) t2 h2 r cr)
    as (t3 & h3 & E3 & R3 & L3 & M3 & O3 & N3 & A3 & F3).
  { lia. }
  { rewrite O2, A2. exact BP. }
  rewrite E3. exists (MerkleTree.set_root t3 (Some r)), h3.
  cbn. repeat split; auto.
  - rewrite M3, M2, index_set_app. reflexivity.
  - rewrite L3, L2, A3, A2. reflexivity.
  - lia.
Qed.

(** *** Nodes and their serial numbers *)

Lemma node_induction (P : MerkleTreeNode -> Prop) :
  (forall o h l r b d,
      (forall x, l = Some x -> P x) -> (forall x, r = Some x -> P x) ->
      P (mkNode o h l r b d)) ->
  forall n, P n.
Proof.
  intro F. fix IH 1. intros [o h l r b d].
  destruct l as [y|], r as [z|]; apply F; intros x E;
    try discriminate E; injection E as <-; apply IH.
Qed.

Lemma subnodes_self n : In n (subnodes n).
Proof. destruct n. simpl. auto. Qed.

Lemma subnodes_trans r : forall p n,
  In p (subnodes r) -> In n (subnodes p) -> In n (subnodes r).
Proof.
  induction r as [o h l r b d IHl IHr] using node_induction.
  intros p n Hp Hn. cbn [subnodes] in Hp |- *.
  destruct Hp as [<- | Hp]; [exact Hn|].
  right. apply in_app_iff. apply in_app_iff in Hp.
  destruct Hp as [Hp | Hp]; [left | right].
  - destruct l as [x|]; [|destruct Hp]. eapply IHl; eauto.
  - destruct r as [x|]; [|destruct Hp]. eapply IHr; eauto.
Qed.

Lemma subnodes_child p n :
  left p = Some n \/ right p = Some n -> In n (subnodes p).
Proof.
  destruct p as [o h l r b d]. cbn [left right subnodes].
  intros [-> | ->]; right; apply in_app_iff;
    [left | right]; apply subnodes_self.
Qed.

Lemma seq_map_inj (A : Type) (f : A -> nat) (L : list A) : forall c,
  map f L = seq c (length L) ->
  forall x y, In x L -> In y L -> f x = f y -> x = y.
Proof.
  induction L as [|a L IH]; intros c E x y Hx Hy Exy; [destruct Hx|].
  cbn in E. injection E as Ea EL.
  assert (bound : forall z, In z L -> S c <= f z).
  { intros z Hz. apply (in_map f) in Hz. rewrite EL in Hz.
    apply in_seq in Hz. lia. }
  destruct Hx as [<- | Hx], Hy as [<- | Hy]; auto.
  - apply bound in Hy. lia.
  - apply bound in Hx. lia.
  - eapply IH; eauto.
Qed.

Lemma seq_map_bounds (A : Type) (f : A -> nat) (L : list A) c x :
  map f L = seq c (length L) -> In x L -> c <= f x < c + length L.
Proof.
  intros E Hx. apply (in_map f) in Hx. rewrite E in Hx. now apply in_seq in Hx.
Qed.

Lemma mkLeaves_oids keys : forall c i,
  map oid (mkLeaves c i keys) = seq c (length (mkLeaves c i keys)).
Proof. induction keys; intros; cbn; [reflexivity | now rewrite <- IHkeys]. Qed.

Lemma mkLeaves_leaf keys : forall c i n,
  In n (mkLeaves c i keys) ->
  isLeaf n = true /\ exists k, In k keys /\ hash n = CryptoUtils.generateUserId k
                               /\ data n <> None.
Proof.
  induction keys as [|k keys IH]; intros c i n Hn; [destruct Hn|].
  destruct Hn as [<- | Hn].
  - cbn. split; [reflexivity|]. exists k. repeat split; auto. discriminate.
  - destruct (IH _ _ _ Hn) as (L & k' & Hk & E & D).
    split; [exact L|]. exists k'. repeat split; auto. now right.
Qed.

Lemma mkLeaves_has keys : forall c i k,
  In k keys ->
  exists n, In n (mkLeaves c i keys) /\ hash n = CryptoUtils.generateUserId k.
Proof.
  induction keys as [|k0 keys IH]; intros c i k Hk; [destruct Hk|].
  destruct Hk as [-> | Hk].
  - eexists. split; [left; reflexivity | reflexivity].
  - destruct (IH (S c) (S i) k Hk) as (n & Hn & E).
    exists n. split; [right; exact Hn | exact E].
Qed.

Lemma mkLeaves_form keys : forall c i x,
  In x (mkLeaves c i keys) ->
  exists o k j, In k keys
    /\ x = mkNode o (CryptoUtils.generateUserId k) None None true
             (Some {| publicKey := k; index := j |}).
Proof.
  induction keys as [|k keys IH]; intros c i x Hx; [destruct Hx|].
  destruct Hx as [<- | Hx].
  - exists c, k, i. split; [now left | reflexivity].
  - destruct (IH _ _ _ Hx) as (o & k' & j & Hk & E).
    exists o, k', j. split; [now right | exact E].
Qed.

Lemma pairUp_oids xs : forall c,
  map oid (pairUp c xs) = seq c (length (pairUp c xs)).
Proof.
  induction xs as [| x | x y l IH] using list_pair_ind; intro c;
    try reflexivity.
  cbn [pairUp map length seq oid]. now rewrite <- IH.
Qed.

Lemma internal_in_incl A B p :
  incl A B -> internal_in A p -> internal_in B p.
Proof.
  intros I (L & l & r & El & Er & Hl & Hr & Ol & Or & Eh).
  split; [exact L|]. exists l, r. repeat split; auto.
Qed.

Lemma pairUp_internal xs : forall c p,
  (forall x, In x xs -> oid x < c) ->
  In p (pairUp c xs) -> internal_in xs p.
Proof.
  induction xs as [| x | x y l IH] using list_pair_ind; intros c p B Hp;
    try destruct Hp.
  - subst p. split; [reflexivity|]. exists x, y. cbn.
    repeat split; auto; apply B; cbn; auto.
  - apply internal_in_incl with (A := l).
    + intros z Hz. now do 2 right.
    + apply (IH (S c)); [|assumption].
      intros z Hz. specialize (B z (or_intror (or_intror Hz))). lia.
Qed.

Lemma pairUp_parent xs : forall c n,
  Nat.even (length xs) = true -> In n xs ->
  exists p, In p (pairUp c xs) /\ (left p = Some n \/ right p = Some n).
Proof.
  induction xs as [| x | x y l IH] using list_pair_ind; intros c n Ev Hn.
  - destruct Hn.
  - discriminate Ev.
  - rewrite even_length_cons2 in Ev. cbn [pairUp].
    destruct Hn as [<- | [<- | Hn]].
    + eexists. split; [left; reflexivity | left; reflexivity].
    + eexists. split; [left; reflexivity | right; reflexivity].
    + destruct (IH (S c) n Ev Hn) as (p & Hp & Hc).
      exists p. split; [right; exact Hp | exact Hc].
Qed.

(** What the recursion creates above a level [xs] whose nodes are all
    older than [c]. *)
Lemma buildPure_facts fuel : forall c xs r cr,
  (forall x, In x xs -> oid x < c) ->
  buildPure fuel c xs = Some (r, cr) ->
  In r (xs ++ cr)
  /\ (forall p, In p cr -> internal_in (xs ++ cr) p)
  /\ (forall n, In n (xs ++ cr) ->
        n = r \/ exists p, In p cr /\ (left p = Some n \/ right p = Some n))
  /\ (forall n, In n (xs ++ cr) -> In n (subnodes r))
  /\ map oid cr = seq c (length cr).
Proof.
  induction fuel as [|fuel IH]; intros c xs r cr B E; [discriminate E|].
  cbn [buildPure] in E.
  assert (many :
    match buildPure fuel (c + length (pairUp c (padList xs)))
            (pairUp c (padList xs)) with
    | Some (r, cr) => Some (r, pairUp c (padList xs) ++ cr)
    | None => None
    end = Some (r, cr) ->
    In r (xs ++ cr)
    /\ (forall p, In p cr -> internal_in (xs ++ cr) p)
    /\ (forall n, In n (xs ++ cr) ->
          n = r \/ exists p, In p cr /\ (left p = Some n \/ right p = Some n))
    /\ (forall n, In n (xs ++ cr) -> In n (subnodes r))
    /\ map oid cr = seq c (length cr)).
  { clear E. set (ps := pairUp c (padList xs)).
    destruct (buildPure fuel (c + length ps) ps) as [[r' cr']|] eqn:BP;
      [|discriminate].
    intro E. injection E as <- <-.
    pose proof (pairUp_oids (padList xs) c) as Ops. fold ps in Ops.
    destruct (IH (c + length ps) ps r' cr') as (Ha & Hb & Hc & Hd & He);
      [|exact BP|].
    { intros x Hx. pose proof (seq_map_bounds _ oid ps c x Ops Hx). lia. }
    assert (par : forall n, In n xs ->
              exists p, In p ps /\ (left p = Some n \/ right p = Some n)).
    { intros n Hn. apply pairUp_parent; [apply padList_even|].
      now apply padList_In. }
    split; [|split; [|split; [|split]]].
    - apply in_app_iff. right. exact Ha.
    - intros p Hp. apply in_app_iff in Hp. destruct Hp as [Hp | Hp].
      + apply internal_in_incl with (A := padList xs).
        * intros z Hz. apply in_app_iff. left. now apply padList_In.
        * apply (pairUp_internal (padList xs) c); [|exact Hp].
          intros x Hx. apply B. now apply padList_In.
      + apply internal_in_incl with (A := ps ++ cr'); [|auto].
        intros z Hz. apply in_app_iff. now right.
    - intros n Hn. apply in_app_iff in Hn. destruct Hn as [Hn | Hn].
      + right. destruct (par n Hn) as (p & Hp & Hpc).
        exists p. split; [apply in_app_iff; now left | exact Hpc].
      + destruct (Hc n Hn) as [-> | (p & Hp & Hpc)]; [now left|].
        right. exists p. split; [apply in_app_iff; now right | exact Hpc].
    - intros n Hn. apply in_app_iff in Hn. destruct Hn as [Hn | Hn]; [|auto].
      destruct (par n Hn) as (p & Hp & Hpc).
      apply subnodes_trans with (p := p).
      + apply Hd. apply in_app_iff. now left.
      + now apply subnodes_child.
    - rewrite map_app, length_app, seq_app, Ops, He. reflexivity. }
  destruct xs as [|x [|y l]]; [now apply many | | now apply many].
  injection E as <- <-. split; [|split; [|split; [|split]]]; [| | | |reflexivity].
  - now left.
  - intros p [].
  - intros n Hn. rewrite app_nil_r in Hn. destruct Hn as [<- | []]. now left.
  - intros n Hn. rewrite app_nil_r in Hn. destruct Hn as [<- | []].
    apply subnodes_self.
Qed.

(** *** The index *)

Lemma map_set_new k (v : MerkleTreeNode) m : In (k, v) (map_set String.eqb k v m).
Proof.
  induction m as [|[k' v'] m IH]; cbn; [auto|].
  destruct (String.eqb k' k); cbn; auto.
Qed.

Lemma map_set_other k (v : MerkleTreeNode) m k' v' :
  In (k', v') m -> k' <> k -> In (k', v') (map_set String.eqb k v m).
Proof.
  intros Hin Hne. induction m as [|[k1 v1] m IH]; [destruct Hin|].
  cbn. destruct Hin as [E | Hin].
  - injection E as -> ->. apply String.eqb_neq in Hne. rewrite Hne. now left.
  - destruct (String.eqb k1 k); cbn; auto.
Qed.

Lemma map_set_inv k (v : MerkleTreeNode) m e :
  In e (map_set String.eqb k v m) -> e = (k, v) \/ In e m.
Proof.
  induction m as [|[k1 v1] m IH]; cbn.
  - intros [<- | []]. now left.
  - destruct (String.eqb k1 k); cbn.
    + intros [<- | Hin]; auto.
    + intros [<- | Hin]; auto. destruct (IH Hin); auto.
Qed.

Lemma index_set_inv L : forall m e,
  In e (index_set L m) -> In e m \/ (In (snd e) L /\ hash (snd e) = fst e).
Proof.
  induction L as [|x L IH]; intros m e Hin; [now left|].
  cbn in Hin. destruct (IH _ _ Hin) as [Hm | [HL E]].
  - destruct (map_set_inv _ _ _ _ Hm) as [-> | Hm']; [|now left].
    right. cbn. auto.
  - right. cbn. auto.
Qed.

(** Under each hash the index holds a node with that hash that is no older
    than any other. *)
Lemma index_set_has L : forall c m n,
  map oid L = seq c (length L) -> In n L ->
  exists n', In (hash n, n') (index_set L m) /\ oid n <= oid n'.
Proof.
  induction L as [|x L IH] using rev_ind; intros c m n E Hn; [destruct Hn|].
  rewrite map_app, length_app, seq_app in E. cbn in E.
  assert (EL : length (map oid L) = length (seq c (length L))).
  { now rewrite length_map, length_seq. }
  destruct (app_inj_tail_iff (map oid L) (seq c (length L)) (oid x)
              (c + length L)) as [Inj _].
  destruct (Inj E) as [EL' Ex]. clear Inj.
  rewrite index_set_app. cbn.
  apply in_app_iff in Hn. destruct Hn as [Hn | [<- | []]].
  - destruct (IH c m n EL' Hn) as (n' & Hin & Ho).
    destruct (String.eqb (hash n) (hash x)) eqn:Eh.
    + apply String.eqb_eq in Eh. exists x. rewrite Eh.
      split; [apply map_set_new|].
      pose proof (seq_map_bounds _ oid L c n EL' Hn). lia.
    + apply String.eqb_neq in Eh. exists n'.
      split; [now apply map_set_other | exact Ho].
  - exists x. split; [apply map_set_new | lia].
Qed.

Lemma internalHashesDistinct_spec ns :
  internalHashesDistinct ns = true ->
  forall n m, In n ns -> In m ns -> isLeaf n = false -> isLeaf m = false ->
              hash n = hash m -> oid n = oid m.
Proof.
  induction ns as [|a ns IH]; intros D n m Hn Hm Ln Lm E; [destruct Hn|].
  cbn in D. apply andb_true_iff in D. destruct D as [Da D].
  rewrite forallb_forall in Da.
  assert (head : forall x, In x ns -> isLeaf a = false -> isLeaf x = false ->
                           hash a = hash x -> oid a = oid x).
  { intros x Hx La Lx Ex. specialize (Da x Hx).
    rewrite La, Lx, Ex, String.eqb_refl in Da. cbn in Da.
    now apply Nat.eqb_eq. }
  destruct Hn as [<- | Hn], Hm as [<- | Hm]; auto.
  symmetry. auto.
Qed.

Lemma findIn_Some m node : forall p,
  MerkleTree.findIn m node = Some p ->
  (exists k, In (k, p) m)
  /\ (ref_is (left p) node || ref_is (right p) node) && negb (isLeaf p) = true.
Proof.
  induction m as [|[k n] m IH]; intros p E; [discriminate E|].
  cbn in E.
  destruct ((ref_is (left n) node || ref_is (right n) node) && negb (isLeaf n))
    eqn:T.
  - injection E as <-. split; [exists k; now left | exact T].
  - destruct (IH p E) as [[k' Hin] T']. split; [exists k'; now right | exact T'].
Qed.

Lemma findIn_exists m node : forall k p,
  In (k, p) m ->
  (ref_is (left p) node || ref_is (right p) node) && negb (isLeaf p) = true ->
  exists p', MerkleTree.findIn m node = Some p'.
Proof.
  induction m as [|[k1 n] m IH]; intros k p Hin T; [destruct Hin|].
  cbn.
  destruct ((ref_is (left n) node || ref_is (right n) node) && negb (isLeaf n))
    eqn:T1; [eauto|].
  destruct Hin as [E | Hin]; [|eauto].
  injection E as -> ->. congruence.
Qed.

Lemma levelAfter_In xs x : In x (levelAfter xs) <-> In x xs.
Proof.
  destruct xs as [|a [|b l]]; cbn [levelAfter]; try tauto; apply padList_In.
Qed.

Lemma find_exists (A : Type) (f : A -> bool) (l : list A) x :
  In x l -> f x = true -> exists y, find f l = Some y.
Proof.
  induction l as [|a l IH]; intros Hin Hf; [destruct Hin|].
  cbn. destruct (f a) eqn:Fa; [eauto|].
  destruct Hin as [-> | Hin]; [congruence | auto].
Qed.

(** *** A tree built on a fresh [MerkleTree] object *)

Lemma built_facts h keys t h' :
  MerkleTree.buildTree keys (MerkleTree.constructor h) = Return tt (t, h') ->
  let lv := mkLeaves (next_oid h) 0 keys in
  exists r cr,
    buildPure (length keys) (next_oid h + length keys) lv = Some (r, cr)
    /\ root t = Some r
    /\ nodes t = index_set (lv ++ cr) []
    /\ arrays h' (leaves t) = levelAfter lv
    /\ next_oid h' = next_oid h + length keys + length cr
    /\ keys <> [].
Proof.
  intros E lv.
  assert (Hne : keys <> []).
  { intros ->. cbn in E. discriminate E. }
  unfold MerkleTree.constructor, new_array in E.
  match type of E with MerkleTree.buildTree keys (?t0, ?h0) = _ =>
    destruct (buildTree_spec keys t0 h0 Hne) as
      (r & cr & t1 & h1 & BP & E1 & R & M & A & O) end.
  rewrite E1 in E. injection E as <- <-.
  exists r, cr. cbn in BP, M, O. auto 10.
Qed.

Lemma built_returns h keys :
  keys <> [] ->
  exists t h', MerkleTree.buildTree keys (MerkleTree.constructor h)
               = Return tt (t, h').
Proof.
  intro Hne. unfold MerkleTree.constructor, new_array.
  match goal with |- context [MerkleTree.buildTree keys (?t0, ?h0)] =>
    destruct (buildTree_spec keys t0 h0 Hne) as
      (r & cr & t1 & h1 & BP & E1 & _) end.
  eauto.
Qed.

(** *** The walk from a node to the root *)

Section Walk.
Variable this : MerkleTree.
Variable A : list MerkleTreeNode.
Variable r : MerkleTreeNode.
Variable c0 : nat.
Hypothesis root_r : root this = Some r.
Hypothesis oids : map oid A = seq c0 (length A).
Hypothesis r_in : In r A.
Hypothesis parent_indexed : forall n, In n A ->
  n = r \/ exists p, In p A /\ isLeaf p = false
                     /\ (left p = Some n \/ right p = Some n)
                     /\ In (hash p, p) (nodes this).
Hypothesis index_in : forall k p, In (k, p) (nodes this) -> In p A.
Hypothesis internals : forall p, In p A -> isLeaf p = false -> internal_in A p.

Lemma same_oid n m : In n A -> In m A -> oid n = oid m -> n = m.
Proof. apply (seq_map_inj _ oid A c0 oids). Qed.

Lemma walk_ok k : forall n path,
  In n A -> c0 + length A - oid n <= k ->
  exists steps,
    MerkleTree.foldPath (hash n) steps = hash r
    /\ forall fuel, k < fuel ->
         MerkleTree.walk fuel this n path = Return (path ++ steps) tt.
Proof.
  induction k as [|k IH]; intros n path Hn Hk.
  { pose proof (seq_map_bounds _ oid A c0 n oids Hn). lia. }
  destruct (Nat.eqb (oid r) (oid n)) eqn:Er.
  - apply Nat.eqb_eq in Er. apply same_oid in Er; auto. subst n.
    exists []. split; [reflexivity|].
    intros [|fuel] Hf; [lia|].
    cbn [MerkleTree.walk]. rewrite root_r. cbn [ref_is]. unfold same_node.
    rewrite Nat.eqb_refl. cbn. now rewrite app_nil_r.
  - destruct (parent_indexed n Hn) as [-> | (p & Hp & Lp & Hc & Hidx)].
    { rewrite Nat.eqb_refl in Er. discriminate Er. }
    assert (T : (ref_is (left p) n || ref_is (right p) n) && negb (isLeaf p)
                = true).
    { rewrite Lp. cbn. rewrite andb_true_r. apply orb_true_iff.
      destruct Hc as [-> | ->]; [left | right]; cbn; apply Nat.eqb_refl. }
    destruct (findIn_exists _ n _ _ Hidx T) as (q & Fq).
    destruct (findIn_Some _ _ _ Fq) as [[kq Hq] Tq].
    apply index_in in Hq.
    apply andb_true_iff in Tq. destruct Tq as [Tc Tl].
    apply negb_true_iff in Tl.
    destruct (internals q Hq Tl) as (_ & l & rr & El & Err & Hl & Hrr & Ol & Orr & Eh).
    rewrite El, Err in Tc. cbn [ref_is] in Tc. unfold same_node in Tc.
    destruct (Nat.eqb (oid l) (oid n)) eqn:Eln.
    + assert (l = n) by (apply same_oid; auto; now apply Nat.eqb_eq). subst l.
      set (st := {| step_hash := hash rr; isLeft := false;
                    level := length path |}).
      destruct (IH q (path ++ [st]) Hq) as (steps & Hfold & Hwalk); [lia|].
      exists (st :: steps). split.
      * cbn. rewrite <- Eh. exact Hfold.
      * intros [|fuel] Hf; [lia|].
        cbn [MerkleTree.walk]. rewrite root_r. cbn [ref_is]. unfold same_node.
        rewrite Er. cbn [negb]. unfold MerkleTree._findParent. rewrite Fq.
        rewrite El, Err. cbn [ref_is]. unfold same_node. rewrite Eln.
        cbn [negb]. fold st. rewrite Hwalk by lia.
        now rewrite <- app_assoc.
    + cbn in Tc. apply Nat.eqb_eq in Tc.
      assert (rr = n) by (apply same_oid; auto). subst rr.
      set (st := {| step_hash := hash l; isLeft := true;
                    level := length path |}).
      destruct (IH q (path ++ [st]) Hq) as (steps & Hfold & Hwalk); [lia|].
      exists (st :: steps). split.
      * cbn. rewrite <- Eh. exact Hfold.
      * intros [|fuel] Hf; [lia|].
        cbn [MerkleTree.walk]. rewrite root_r. cbn [ref_is]. unfold same_node.
        rewrite Er. cbn [negb]. unfold MerkleTree._findParent. rewrite Fq.
        rewrite El, Err. cbn [ref_is]. unfold same_node. rewrite Eln.
        cbn [negb]. fold st. rewrite Hwalk by lia.
        now rewrite <- app_assoc.
Qed.
End Walk.

(** *** Round trip *)

(** C1, amended: on a tree built from a key list, if no two different
    internal nodes of the tree carry the same hash, then for every key [k]
    of the list [generateMembershipProof(k)] returns a proof (as soon as
    its loop is given more steps than nodes were created) and
    [verifyMembershipProof] accepts it. *)
Theorem membership_roundtrip h keys k t h' :
  MerkleTree.buildTree keys (MerkleTree.constructor h) = Return tt (t, h') ->
  In k keys ->
  collisionFree t = true ->
  exists proof,
    MerkleTree.verifyMembershipProof t proof = true
    /\ forall fuel, next_oid h' - next_oid h < fuel ->
         MerkleTree.generateMembershipProof fuel k (t, h') = Return proof (t, h').
Proof.
  intros E Hk CF.
  destruct (built_facts h keys t h' E) as (r & cr & BP & R & M & Ar & O & Hne).
  set (c0 := next_oid h) in *.
  set (lv := mkLeaves c0 0 keys) in *.
  assert (Llv : length lv = length keys) by apply mkLeaves_length.
  destruct (buildPure_facts (length keys) (c0 + length keys) lv r cr)
    as (Ha & Hb & Hc & Hd & He); [|exact BP|].
  { intros x Hx.
    pose proof (seq_map_bounds _ oid lv c0 x (mkLeaves_oids keys c0 0) Hx). lia. }
  set (A := lv ++ cr) in *.
  assert (oids : map oid A = seq c0 (length A)).
  { unfold A. rewrite map_app, length_app, seq_app, He, <- Llv.
    f_equal. apply mkLeaves_oids. }
  assert (internal_cr : forall p, In p A -> isLeaf p = false -> In p cr).
  { intros p Hp Lp. apply in_app_iff in Hp. destruct Hp as [Hp | Hp]; [|exact Hp].
    apply mkLeaves_leaf in Hp. destruct Hp as [Lt _]. congruence. }
  unfold collisionFree in CF. rewrite R in CF.
  pose proof (internalHashesDistinct_spec _ CF) as Dist.
  assert (indexed : forall p, In p cr -> In (hash p, p) (nodes t)).
  { intros p Hp.
    assert (HpA : In p A) by (apply in_app_iff; now right).
    destruct (index_set_has A c0 [] p oids HpA) as (n' & Hin & Ho).
    rewrite <- M in Hin.
    assert (Hn' : In n' A /\ hash n' = hash p).
    { rewrite M in Hin. destruct (index_set_inv _ _ _ Hin) as [[] | HH]. exact HH. }
    destruct Hn' as [Hn'A Eh].
    assert (Hn'cr : In n' cr).
    { apply in_app_iff in Hn'A. destruct Hn'A as [Hl | Hc']; [|exact Hc'].
      pose proof (seq_map_bounds _ oid lv c0 n' (mkLeaves_oids keys c0 0) Hl).
      pose proof (seq_map_bounds _ oid cr _ p He Hp). lia. }
    assert (n' = p).
    { apply (seq_map_inj _ oid A c0 oids); auto.
      apply Dist; auto; try (apply Hd; assumption);
        try (now destruct (Hb _ Hn'cr)); now destruct (Hb _ Hp). }
    now subst n'. }
  destruct (mkLeaves_has keys c0 0 k Hk) as (n & Hn & En).
  assert (Hfind : exists leaf,
             find (fun l => String.eqb (hash l) (CryptoUtils.generateUserId k))
                  (arrays h' (leaves t)) = Some leaf).
  { apply find_exists with (x := n).
    - rewrite Ar. now apply levelAfter_In.
    - rewrite En. apply String.eqb_refl. }
  destruct Hfind as (leaf & Hfind).
  destruct (find_some _ _ Hfind) as [Hleaf Eleaf].
  rewrite Ar in Hleaf. apply -> levelAfter_In in Hleaf.
  apply String.eqb_eq in Eleaf.
  destruct (mkLeaves_leaf keys c0 0 leaf Hleaf) as (_ & _ & _ & _ & Dl).
  destruct (data leaf) as [d|] eqn:Ed; [clear Dl | congruence].
  destruct (walk_ok t A r c0 R oids Ha) with (k := length A) (n := leaf)
    (path := @nil MembershipStep) as (steps & Hfold & Hwalk).
  - intros x Hx. destruct (Hc x Hx) as [-> | (p & Hp & Hpc)]; [now left|].
    right. exists p. repeat split; auto.
    + apply in_app_iff. now right.
    + now destruct (Hb p Hp).
  - intros k' p Hin. rewrite M in Hin.
    destruct (index_set_inv _ _ _ Hin) as [[] | [HH _]]. exact HH.
  - intros p Hp Lp. apply Hb. now apply internal_cr.
  - apply in_app_iff. now left.
  - pose proof (seq_map_bounds _ oid lv c0 leaf (mkLeaves_oids keys c0 0) Hleaf).
    lia.
  - exists {| leafHash := CryptoUtils.generateUserId k; leafIndex := index d;
              path := steps; rootHash := Some (hash r) |}.
    split.
    + unfold MerkleTree.verifyMembershipProof. cbn.
      rewrite <- Eleaf, Hfold. apply String.eqb_refl.
    + intros fuel Hf. unfold MerkleTree.generateMembershipProof.
      rewrite Hfind, Ed, Hwalk.
      * unfold MerkleTree.getRootHash. rewrite R. reflexivity.
      * unfold A. rewrite length_app. lia.
Qed.

(** *** Leaves and statistics *)

Lemma mkLeaves_nth keys : forall c i j key,
  nth_error keys j = Some key ->
  nth_error (mkLeaves c i keys) j
  = Some (mkNode (c + j) (CryptoUtils.generateUserId key) None None true
            (Some {| publicKey := key; index := i + j |})).
Proof.
  induction keys as [|k keys IH]; intros c i j key E.
  - destruct j; discriminate E.
  - destruct j as [|j]; cbn in E |- *.
    + injection E as ->. now rewrite !Nat.add_0_r.
    + rewrite (IH (S c) (S i) j key E).
      now rewrite <- !Nat.add_succ_comm.
Qed.

Lemma levelAfter_length xs :
  length (levelAfter xs)
  = length xs + (if Nat.odd (length xs) && (1 <? length xs) then 1 else 0).
Proof.
  destruct xs as [|a [|b l]]; cbn [levelAfter]; try reflexivity.
  rewrite padList_length. cbn [length].
  replace (1 <? S (S (length l))) with true by reflexivity.
  now rewrite andb_true_r.
Qed.

Lemma levelAfter_prefix xs j :
  j < length xs -> nth_error (levelAfter xs) j = nth_error xs j.
Proof.
  intro Hj. destruct xs as [|a [|b l]]; cbn [levelAfter]; try reflexivity.
  unfold padList. destruct (Nat.odd _); [|reflexivity].
  destruct (nth_error (a :: b :: l) (length (a :: b :: l) - 1));
    [|reflexivity].
  now apply nth_error_app1.
Qed.

Lemma levelAfter_extra xs :
  Nat.odd (length xs) && (1 <? length xs) = true ->
  nth_error (levelAfter xs) (length xs) = nth_error xs (length xs - 1).
Proof.
  intro Hodd. apply andb_true_iff in Hodd. destruct Hodd as [Hodd Hlen].
  destruct xs as [|a [|b l]]; try discriminate.
  cbn [levelAfter]. unfold padList. rewrite Hodd.
  destruct (nth_error (a :: b :: l) (length (a :: b :: l) - 1)) eqn:N.
  - rewrite nth_error_app2 by lia. now rewrite Nat.sub_diag.
  - apply nth_error_None in N. cbn in N. lia.
Qed.

(** C3, as the code has it: after [buildTree] on [n] keys the leaf array
    starts with the [n] leaves in key order, each with the hash of its key
    and its position as index; but when [n] is odd and greater than 1 the
    array has one more entry, the last leaf again, and [getTreeStats()]
    reports [leafNodes = n + 1]. *)
Theorem leaves_after_build h keys t h' :
  MerkleTree.buildTree keys (MerkleTree.constructor h) = Return tt (t, h') ->
  let n := length keys in
  let leafArray := arrays h' (leaves t) in
  let extra := Nat.odd n && (1 <? n) in
  (forall i key, nth_error keys i = Some key ->
     exists leaf, nth_error leafArray i = Some leaf
                  /\ hash leaf = CryptoUtils.generateUserId key
                  /\ data leaf = Some {| publicKey := key; index := i |})
  /\ length leafArray = n + (if extra then 1 else 0)
  /\ leafNodes (MerkleTree.getTreeStats (t, h')) = n + (if extra then 1 else 0)
  /\ (extra = true -> nth_error leafArray n = nth_error leafArray (n - 1)).
Proof.
  intros E n leafArray extra.
  destruct (built_facts h keys t h' E) as (r & cr & BP & R & M & Ar & O & Hne).
  set (lv := mkLeaves (next_oid h) 0 keys) in *.
  assert (Llv : length lv = n) by apply mkLeaves_length.
  assert (Len : length leafArray = n + (if extra then 1 else 0)).
  { unfold leafArray. rewrite Ar, levelAfter_length, Llv. reflexivity. }
  split; [|split; [exact Len|split]].
  - intros i key Hi.
    assert (i < n) by (apply nth_error_Some; congruence).
    eexists. split; [|split].
    + unfold leafArray. rewrite Ar, levelAfter_prefix by lia.
      apply mkLeaves_nth. exact Hi.
    + reflexivity.
    + reflexivity.
  - cbn. rewrite R. cbn. exact Len.
  - intro Hex. unfold leafArray. rewrite Ar.
    rewrite <- Llv. rewrite levelAfter_extra by (rewrite Llv; exact Hex).
    symmetry. apply levelAfter_prefix.
    rewrite Llv. unfold extra in Hex. apply andb_true_iff in Hex.
    destruct Hex as [_ Hex]. apply Nat.ltb_lt in Hex. lia.
Qed.

(** *** Height *)

Lemma log2_up_half n : 2 <= n -> Nat.log2_up n = S (Nat.log2_up ((n + 1) / 2)).
Proof.
  intro Hn. set (m := (n + 1) / 2).
  assert (E : n + 1 = 2 * m + (n + 1) mod 2) by apply Nat.div_mod_eq.
  assert (B : (n + 1) mod 2 < 2) by (apply Nat.mod_upper_bound; lia).
  apply Nat.log2_up_unique; [lia|]. cbn [pred].
  destruct (Nat.eq_dec m 1) as [E1 | N1].
  - rewrite E1. cbn. lia.
  - assert (Hm : 1 < m) by lia.
    pose proof (Nat.log2_up_spec m Hm) as [S1 S2].
    pose proof (Nat.log2_up_pos m Hm) as Lpos.
    destruct (Nat.log2_up m) as [|L]; [lia|].
    cbn [pred] in S1. rewrite (Nat.pow_succ_r' 2 (S L)).
    rewrite (Nat.pow_succ_r' 2 L) in *. lia.
Qed.

Lemma pairUp_height xs hh : forall c p,
  (forall x, In x xs -> MerkleTree.height x = hh) ->
  In p (pairUp c xs) -> MerkleTree.height p = S hh.
Proof.
  induction xs as [| x | x y l IH] using list_pair_ind; intros c p Hh Hp;
    try destruct Hp.
  - subst p. cbn. rewrite (Hh x), (Hh y) by (cbn; auto).
    now rewrite Nat.max_id.
  - apply (IH (S c)); [|assumption]. intros z Hz. apply Hh. now do 2 right.
Qed.

Lemma buildPure_height fuel : forall c xs r cr hh,
  xs <> [] ->
  (forall x, In x xs -> MerkleTree.height x = hh) ->
  buildPure fuel c xs = Some (r, cr) ->
  MerkleTree.height r = hh + Nat.log2_up (length xs).
Proof.
  induction fuel as [|fuel IH]; intros c xs r cr hh Hne Hh E; [discriminate E|].
  cbn [buildPure] in E.
  assert (many : 2 <= length xs ->
    match buildPure fuel (c + length (pairUp c (padList xs)))
            (pairUp c (padList xs)) with
    | Some (r, cr) => Some (r, pairUp c (padList xs) ++ cr)
    | None => None
    end = Some (r, cr) ->
    MerkleTree.height r = hh + Nat.log2_up (length xs)).
  { clear E. intros H2. set (ps := pairUp c (padList xs)).
    destruct (buildPure fuel (c + length ps) ps) as [[r' cr']|] eqn:BP;
      [|discriminate].
    intro E. injection E as <- <-.
    pose proof (next_level_length xs c) as NL. fold ps in NL.
    assert (Hne' : ps <> []).
    { intro E0. rewrite E0 in NL. cbn [length] in NL.
      assert (1 <= (length xs + 1) / 2) by (apply Nat.div_le_lower_bound; lia).
      lia. }
    assert (Hh' : forall p, In p ps -> MerkleTree.height p = S hh).
    { intros p Hp. apply (pairUp_height (padList xs) hh c p); [|exact Hp].
      intros x Hx. apply Hh. now apply padList_In. }
    rewrite (IH _ _ _ _ (S hh) Hne' Hh' BP), NL, (log2_up_half (length xs) H2).
    lia. }
  destruct xs as [|x [|y l]]; [congruence | | apply many; [cbn; lia | exact E]].
  injection E as <- <-. cbn. rewrite (Hh x) by (now left). lia.
Qed.

(** C8: the height [getTreeStats()] reports for a tree built from [n] keys
    is 1 for [n = 1], [k + 1] for [n = 2^k], and in every case
    [ceil(log2 n) + 1]: [height - 1] is the least exponent [e] with
    [n <= 2^e]. *)
Theorem tree_height h keys t h' :
  MerkleTree.buildTree keys (MerkleTree.constructor h) = Return tt (t, h') ->
  let n := length keys in
  let height := treeHeight (MerkleTree.getTreeStats (t, h')) in
  (n = 1 -> height = 1)
  /\ (forall k, n = 2 ^ k -> height = k + 1)
  /\ height = Nat.log2_up n + 1
  /\ n <= 2 ^ (height - 1)
  /\ (forall e, n <= 2 ^ e -> height - 1 <= e).
Proof.
  intros E n height.
  destruct (built_facts h keys t h' E) as (r & cr & BP & R & M & Ar & O & Hne).
  set (lv := mkLeaves (next_oid h) 0 keys) in *.
  assert (Llv : length lv = n) by apply mkLeaves_length.
  assert (Hh : height = Nat.log2_up n + 1).
  { unfold height. cbn. rewrite R. cbn.
    rewrite (buildPure_height _ _ lv r cr 1) with (3 := BP).
    - rewrite Llv. lia.
    - intro E0. rewrite E0 in Llv. cbn in Llv. destruct keys; [congruence|].
      discriminate Llv.
    - intros x Hx. apply mkLeaves_leaf in Hx. destruct Hx as [Lx _].
      destruct x. cbn in Lx |- *. now rewrite Lx. }
  assert (Hpos : 0 < n).
  { destruct keys; [congruence | cbn; lia]. }
  split; [|split; [|split; [exact Hh|split]]].
  - intros ->. rewrite Hh. reflexivity.
  - intros k ->. rewrite Hh, Nat.log2_up_pow2 by lia. reflexivity.
  - rewrite Hh, Nat.add_sub. apply Nat.log2_log2_up_spec. exact Hpos.
  - intros e He. rewrite Hh, Nat.add_sub.
    apply Nat.log2_up_le_pow2; assumption.
Qed.

(** *** Proofs with an empty path *)

(** C10: a proof with an empty path whose leaf hash and root hash are the
    same string passes [verifyMembershipProof], whatever the leaf index
    and whatever tree the method is called on. *)
Theorem empty_path_proof_verifies (this : MerkleTree) (h : string) (i : nat) :
  MerkleTree.verifyMembershipProof this
    {| leafHash := h; leafIndex := i; path := []; rootHash := Some h |} = true.
Proof. unfold MerkleTree.verifyMembershipProof. cbn. apply String.eqb_refl. Qed.

(** *** Tamper sensitivity *)

Lemma foldPath_cons cur st path :
  MerkleTree.foldPath cur (st :: path)
  = MerkleTree.foldPath (sha256 (stepInput cur st)) path.
Proof. cbn. unfold stepInput, CryptoUtils.combineHashes. now destruct (isLeft st). Qed.

Lemma injectiveOn_incl S S' : incl S S' -> injectiveOn S' -> injectiveOn S.
Proof. intros I J x y Hx Hy. apply J; auto. Qed.

Lemma stepInput_inj_current st cur cur' :
  stepInput cur st = stepInput cur' st -> cur = cur'.
Proof.
  unfold stepInput. destruct (isLeft st).
  - apply append_inv_head.
  - apply append_inv_tail.
Qed.

Lemma stepInput_inj_sibling st s cur :
  stepInput cur (setStepHash s st) = stepInput cur st -> s = step_hash st.
Proof.
  unfold stepInput. cbn. destruct (isLeft st).
  - apply append_inv_tail.
  - apply append_inv_head.
Qed.

(** Once the running hashes differ they stay different. *)
Lemma fold_diverges path : forall cur cur',
  cur <> cur' ->
  injectiveOn (foldInputs cur path ++ foldInputs cur' path) ->
  MerkleTree.foldPath cur path <> MerkleTree.foldPath cur' path.
Proof.
  induction path as [|st path IH]; intros cur cur' Hne J; [exact Hne|].
  rewrite !foldPath_cons. apply IH.
  - intro E. apply Hne, (stepInput_inj_current st).
    apply J; [in_lists | in_lists | exact E].
  - eapply injectiveOn_incl; [|exact J]. intros x Hx. in_lists.
Qed.

Lemma tamper_diverges path : forall i st s cur,
  nth_error path i = Some st ->
  s <> step_hash st ->
  injectiveOn (foldInputs cur path ++ foldInputs cur (tamperPath i s path)) ->
  MerkleTree.foldPath cur (tamperPath i s path) <> MerkleTree.foldPath cur path.
Proof.
  induction path as [|st0 path IH]; intros i st s cur Hi Hs J.
  - destruct i; discriminate Hi.
  - destruct i as [|i]; cbn [tamperPath]; rewrite !foldPath_cons.
    + injection Hi as ->. apply fold_diverges.
      * intro E. apply Hs, (stepInput_inj_sibling st s cur).
        apply J; [in_lists | in_lists | exact E].
      * eapply injectiveOn_incl; [|exact J]. intros x Hx. in_lists.
    + cbn in Hi. apply (IH i st s _ Hi Hs).
      eapply injectiveOn_incl; [|exact J]. intros x Hx. in_lists.
Qed.

Lemma changeChar_differs s : forall pos c a,
  nth_error (list_ascii_of_string s) pos = Some a -> c <> a ->
  changeChar pos c s <> s.
Proof.
  induction s as [|b s IH]; intros pos c a Hn Hc.
  - destruct pos; discriminate Hn.
  - destruct pos as [|pos]; cbn in Hn |- *.
    + injection Hn as ->. intro E. injection E as E. contradiction.
    + intro E. injection E as E. exact (IH pos c a Hn Hc E).
Qed.

(** C6: if a membership proof verifies, then (1) replacing the sibling hash
    of any one step of its path by a different string, in particular by
    the same string with one character changed, makes verification return
    false, provided the hash is injective on the strings hashed while
    folding the two paths; and (2) replacing [rootHash] by any other value
    makes verification return false. *)
Theorem tamper_sensitivity (this : MerkleTree) (p : MembershipProof) :
  MerkleTree.verifyMembershipProof this p = true ->
  (forall i st s,
      nth_error (path p) i = Some st ->
      s <> step_hash st ->
      injectiveOn (foldInputs (leafHash p) (path p)
                   ++ foldInputs (leafHash p) (tamperPath i s (path p))) ->
      MerkleTree.verifyMembershipProof this (tamperSibling i s p) = false)
  /\ (forall i st pos c a,
      nth_error (path p) i = Some st ->
      nth_error (list_ascii_of_string (step_hash st)) pos = Some a ->
      c <> a ->
      let s := changeChar pos c (step_hash st) in
      injectiveOn (foldInputs (leafHash p) (path p)
                   ++ foldInputs (leafHash p) (tamperPath i s (path p))) ->
      MerkleTree.verifyMembershipProof this (tamperSibling i s p) = false)
  /\ (forall r, r <> rootHash p ->
      MerkleTree.verifyMembershipProof this (withRootHash r p) = false).
Proof.
  unfold MerkleTree.verifyMembershipProof. intro V.
  destruct (rootHash p) as [root|] eqn:ER; [|discriminate V].
  cbn in V. apply String.eqb_eq in V.
  assert (sibling : forall i st s,
      nth_error (path p) i = Some st ->
      s <> step_hash st ->
      injectiveOn (foldInputs (leafHash p) (path p)
                   ++ foldInputs (leafHash p) (tamperPath i s (path p))) ->
      MerkleTree.hash_is
        (MerkleTree.foldPath (leafHash (tamperSibling i s p))
           (path (tamperSibling i s p)))
        (rootHash (tamperSibling i s p)) = false).
  { intros i st s Hi Hs J. cbn. rewrite ER. cbn.
    apply String.eqb_neq. rewrite <- V.
    now apply (tamper_diverges (path p) i st s). }
  split; [exact sibling | split].
  - intros i st pos c a Hi Hpos Hc J. apply (sibling i st _ Hi); [|exact J].
    now apply (changeChar_differs _ pos c a).
  - intros r Hr. cbn. destruct r as [r|]; [|reflexivity]. cbn.
    apply String.eqb_neq. rewrite V. congruence.
Qed.

(** *** The three-key example *)

Lemma findIn_unique idx n q :
  (exists k, In (k, q) idx) ->
  (ref_is (left q) n || ref_is (right q) n) && negb (isLeaf q) = true ->
  (forall k' q', In (k', q') idx ->
     (ref_is (left q') n || ref_is (right q') n) && negb (isLeaf q') = true ->
     q' = q) ->
  MerkleTree.findIn idx n = Some q.
Proof.
  intros [k Hk] T U.
  destruct (findIn_exists idx n k q Hk T) as (q' & F).
  destruct (findIn_Some idx n q' F) as [[k' Hk'] T'].
  now rewrite F, (U k' q' Hk' T').
Qed.

(** An entry stays in the index when no later node has the same hash. *)
Lemma index_keeps L c p :
  map oid L = seq c (length L) -> In p L ->
  (forall q, In q L -> oid p < oid q -> hash q <> hash p) ->
  In (hash p, p) (index_set L []).
Proof.
  intros oids Hp later.
  destruct (index_set_has L c [] p oids Hp) as (n' & Hin & Ho).
  destruct (index_set_inv _ _ _ Hin) as [[] | [Hn' Eh]]. cbn in Hn', Eh.
  destruct (Nat.eq_dec (oid p) (oid n')) as [E | N].
  - pose proof (seq_map_inj _ oid L c oids p n' Hp Hn' E) as Epn.
    rewrite Epn at 2. exact Hin.
  - exfalso. apply (later n' Hn'); [lia | exact Eh].
Qed.

(** C2, amended: building from [[k0; k1; k2]] makes three leaves with
    hashes [Li = H(ki)], pads the odd level by pairing the last leaf with
    itself, and gives parents [P0 = H(L0 ++ L1)], [P1 = H(L2 ++ L2)] and
    root [H(P0 ++ P1)].  Provided [L0 <> L1], [P0 <> P1] and [P0] differs
    from the root hash, the proof generated for [k1] has the path
    [[{L0, left, 0}; {P1, right, 1}]]; folding that path from [L1] gives
    [H(L0 ++ L1)], then [H(that ++ P1)], the root hash, so the proof
    verifies. *)
Theorem three_key_example h k0 k1 k2 t h' :
  MerkleTree.buildTree [k0; k1; k2] (MerkleTree.constructor h)
  = Return tt (t, h') ->
  let L0 := CryptoUtils.generateUserId k0 in
  let L1 := CryptoUtils.generateUserId k1 in
  let L2 := CryptoUtils.generateUserId k2 in
  let P0 := CryptoUtils.combineHashes L0 L1 in
  let P1 := CryptoUtils.combineHashes L2 L2 in
  let R := CryptoUtils.combineHashes P0 P1 in
  let path1 := [ {| step_hash := L0; isLeft := true; level := 0 |};
                 {| step_hash := P1; isLeft := false; level := 1 |} ] in
  (exists l0 l1 l2 p0 p1 r,
      firstn 3 (arrays h' (leaves t)) = [l0; l1; l2]
      /\ hash l0 = L0 /\ hash l1 = L1 /\ hash l2 = L2
      /\ isLeaf l0 = true /\ isLeaf l1 = true /\ isLeaf l2 = true
      /\ left p0 = Some l0 /\ right p0 = Some l1 /\ hash p0 = P0
      /\ left p1 = Some l2 /\ right p1 = Some l2 /\ hash p1 = P1
      /\ left r = Some p0 /\ right r = Some p1 /\ hash r = R
      /\ root t = Some r)
  /\ MerkleTree.foldPath L1 path1
     = CryptoUtils.combineHashes (CryptoUtils.combineHashes L0 L1) P1
  /\ MerkleTree.foldPath L1 path1 = R
  /\ (L0 <> L1 -> P0 <> P1 -> P0 <> R ->
      forall fuel, 2 < fuel ->
        MerkleTree.generateMembershipProof fuel k1 (t, h')
        = Return {| leafHash := L1; leafIndex := 1; path := path1;
                    rootHash := Some R |} (t, h')
        /\ MerkleTree.verifyMembershipProof t
             {| leafHash := L1; leafIndex := 1; path := path1;
                rootHash := Some R |} = true).
Proof.
  intros E L0 L1 L2 P0 P1 R path1.
  destruct (built_facts h _ t h' E) as (r & cr & BP & Rt & M & Ar & O & Hne).
  set (c := next_oid h) in *.
  assert (oids : map oid (mkLeaves c 0 [k0; k1; k2] ++ cr)
                 = seq c (length (mkLeaves c 0 [k0; k1; k2] ++ cr))).
  { destruct (buildPure_facts 3 (c + 3) (mkLeaves c 0 [k0; k1; k2]) r cr)
      as (_ & _ & _ & _ & He); [|exact BP|].
    { intros x Hx.
      pose proof (seq_map_bounds _ oid _ c x (mkLeaves_oids _ c 0) Hx) as B.
      rewrite mkLeaves_length in B. cbn [length] in B. lia. }
    rewrite map_app, length_app, seq_app, He, mkLeaves_length.
    reflexivity. }
  clear O. cbn in BP. injection BP as <- <-.
  cbn [mkLeaves app levelAfter padList length Nat.odd Nat.even negb
       nth_error Nat.sub] in M, Ar, oids.
  fold L0 L1 L2 in M, Ar, oids, Rt. fold P0 P1 in M, oids, Rt.
  fold R in M, oids, Rt.
  set (l0 := mkNode c L0 None None true (Some {| publicKey := k0; index := 0 |}))
    in *.
  set (l1 := mkNode (S c) L1 None None true
               (Some {| publicKey := k1; index := 1 |})) in *.
  set (l2 := mkNode (S (S c)) L2 None None true
               (Some {| publicKey := k2; index := 2 |})) in *.
  set (p0 := mkNode (c + 3) P0 (Some l0) (Some l1) false None) in *.
  set (p1 := mkNode (S (c + 3)) P1 (Some l2) (Some l2) false None) in *.
  set (r := mkNode (c + 3 + 2) R (Some p0) (Some p1) false None) in *.
  assert (Fold : MerkleTree.foldPath L1 path1 = R) by reflexivity.
  split; [|split; [reflexivity | split; [exact Fold|]]].
  { exists l0, l1, l2, p0, p1, r. rewrite Ar. cbn. auto 20. }
  intros N01 NP NR fuel Hf.
  split; [| unfold MerkleTree.verifyMembershipProof; cbn [leafHash path rootHash];
            rewrite Fold; cbn; apply String.eqb_refl].
  set (six := [l0; l1; l2; p0; p1; r]) in *.
  assert (in_six : forall k q, In (k, q) (nodes t) -> In q six).
  { intros k q Hin. rewrite M in Hin.
    destruct (index_set_inv _ _ _ Hin) as [[] | [Hq _]]. exact Hq. }
  assert (Ip0 : In (hash p0, p0) (nodes t)).
  { rewrite M. apply (index_keeps six c); [exact oids | cbn; auto |].
    intros q Hq Hlt.
    destruct Hq as [<- | [<- | [<- | [<- | [<- | [<- | []]]]]]];
      cbn in Hlt |- *; try lia; congruence. }
  assert (Ir : In (hash r, r) (nodes t)).
  { rewrite M. apply (index_keeps six c); [exact oids | cbn; auto 10 |].
    intros q Hq Hlt.
    destruct Hq as [<- | [<- | [<- | [<- | [<- | [<- | []]]]]]];
      cbn in Hlt |- *; lia. }
  assert (F1 : MerkleTree.findIn (nodes t) l1 = Some p0).
  { apply findIn_unique.
    - eexists. exact Ip0.
    - cbn -[Nat.eqb]. unfold same_node. cbn -[Nat.eqb]. oid_compare. reflexivity.
    - intros k q Hin T. apply in_six in Hin.
      destruct Hin as [<- | [<- | [<- | [<- | [<- | [<- | []]]]]]];
        cbn -[Nat.eqb] in T; unfold same_node in T; cbn -[Nat.eqb] in T;
        oid_compare;
        try discriminate T; reflexivity. }
  assert (F2 : MerkleTree.findIn (nodes t) p0 = Some r).
  { apply findIn_unique.
    - eexists. exact Ir.
    - cbn -[Nat.eqb]. unfold same_node. cbn -[Nat.eqb]. oid_compare. reflexivity.
    - intros k q Hin T. apply in_six in Hin.
      destruct Hin as [<- | [<- | [<- | [<- | [<- | [<- | []]]]]]];
        cbn -[Nat.eqb] in T; unfold same_node in T; cbn -[Nat.eqb] in T;
        oid_compare;
        try discriminate T; reflexivity. }
  destruct fuel as [|[|[|fuel]]]; try lia.
  unfold MerkleTree.generateMembershipProof. rewrite Ar.
  cbn [find hash l0 l1]. fold L1.
  replace (String.eqb L0 L1) with false
    by (symmetry; now apply String.eqb_neq).
  rewrite String.eqb_refl. cbn [data l1 index].
  cbn [MerkleTree.walk]. unfold MerkleTree._findParent.
  rewrite Rt. cbn [ref_is]. unfold same_node. cbn [oid r l1 p0].
  oid_compare. cbn [negb]. rewrite F1.
  cbn [left right p0 ref_is]. unfold same_node. cbn [oid l0 l1].
  oid_compare. cbn [negb app length hash l0].
  rewrite F2. cbn [left right r ref_is]. unfold same_node. cbn [oid p0].
  oid_compare. cbn [negb app length hash p1 l2 oid r].
  oid_compare. cbn [negb].
  unfold MerkleTree.getRootHash. rewrite Rt. reflexivity.
Qed.

(** *** A build from any state *)

Lemma built_any keys this h t h' :
  MerkleTree.buildTree keys (this, h) = Return tt (t, h') ->
  let lv := mkLeaves (next_oid h) 0 keys in
  keys <> []
  /\ exists r cr,
      buildPure (length keys) (next_oid h + length keys) lv = Some (r, cr)
      /\ root t = Some r
      /\ nodes t = index_set (lv ++ cr) (nodes this)
      /\ arrays h' (leaves t) = levelAfter lv
      /\ next_oid h' = next_oid h + length keys + length cr.
Proof.
  intros E lv.
  assert (Hne : keys <> []).
  { intros ->. cbn in E. discriminate E. }
  split; [exact Hne|].
  destruct (buildTree_spec keys this h Hne) as
    (r & cr & t1 & h1 & BP & E1 & R & M & A & O).
  rewrite E1 in E. injection E as <- <-.
  exists r, cr. auto 10.
Qed.

(** [buildTree] throws on the empty key list and leaves the tree as it was;
    on every other key list it returns, whatever state the tree object was
    in (new, built before, or left unbuilt by a failed call), and the tree then
    has a root. *)
Theorem buildTree_returns_iff (keys : list string) (st : MerkleTree.St) :
  (keys = [] ->
   MerkleTree.buildTree keys st = Throw (Error "公钥列表不能为空") st)
  /\ (keys <> [] ->
      exists t h', MerkleTree.buildTree keys st = Return tt (t, h')
                   /\ MerkleTree.getRootHash t <> None).
Proof.
  destruct st as [this h]. split.
  - intros ->. reflexivity.
  - intro Hne.
    destruct (buildTree_spec keys this h Hne) as
      (r & cr & t1 & h1 & BP & E1 & R & M & A & O).
    exists t1, h1. split; [exact E1|].
    unfold MerkleTree.getRootHash. rewrite R. discriminate.
Qed.

(** *** The index across builds *)

Lemma map_set_keeps_key k (v : MerkleTreeNode) m k' :
  In k' (map fst m) -> In k' (map fst (map_set String.eqb k v m)).
Proof.
  induction m as [|[k1 v1] m IH]; cbn; [tauto|].
  destruct (String.eqb k1 k) eqn:E; cbn.
  - apply String.eqb_eq in E. subst k1. tauto.
  - intros [<- | Hin]; auto.
Qed.

Lemma map_set_size k (v : MerkleTreeNode) m :
  length m <= length (map_set String.eqb k v m).
Proof.
  induction m as [|[k1 v1] m IH]; cbn; [lia|].
  destruct (String.eqb k1 k); cbn; lia.
Qed.

Lemma index_set_keeps L : forall m k,
  In k (map fst m) -> In k (map fst (index_set L m)).
Proof.
  induction L as [|x L IH]; intros m k Hin; [exact Hin|].
  cbn. apply IH. now apply map_set_keeps_key.
Qed.

Lemma index_set_size L : forall m, length m <= length (index_set L m).
Proof.
  induction L as [|x L IH]; intro m; [cbn; lia|].
  cbn. pose proof (map_set_size (hash x) x m). pose proof (IH (map_set String.eqb (hash x) x m)).
  unfold index_set in *. lia.
Qed.

(** [buildTree] never clears [this.nodes]: every hash that was a key of the
    index before the call still is one after it, so on a tree object that was
    built before the index (and [totalNodes]) can only grow. *)
Theorem rebuild_keeps_index keys this h t h' :
  MerkleTree.buildTree keys (this, h) = Return tt (t, h') ->
  (forall k, In k (map fst (nodes this)) -> In k (map fst (nodes t)))
  /\ map_size (nodes this) <= totalNodes (MerkleTree.getTreeStats (t, h')).
Proof.
  intro E. destruct (built_any keys this h t h' E) as (_ & r & cr & _ & R & M & _).
  split.
  - intros k Hk. rewrite M. now apply index_set_keeps.
  - cbn. rewrite R. cbn. rewrite M. apply index_set_size.
Qed.

(** *** The root hash *)

Lemma padList_hashes xs : map hash (padList xs) = padHashes (map hash xs).
Proof.
  unfold padList, padHashes. rewrite length_map.
  destruct (Nat.odd (length xs)); [|reflexivity].
  rewrite nth_error_map.
  destruct (nth_error xs (length xs - 1)); cbn; [|reflexivity].
  now rewrite map_app.
Qed.

Lemma pairUp_hashes xs : forall c, map hash (pairUp c xs) = pairHashes (map hash xs).
Proof.
  induction xs as [| x | x y l IH] using list_pair_ind; intro c; try reflexivity.
  cbn. now rewrite IH.
Qed.

Lemma buildPure_root_hash fuel : forall c xs r cr,
  buildPure fuel c xs = Some (r, cr) ->
  rootOfLevel fuel (map hash xs) = Some (hash r).
Proof.
  induction fuel as [|fuel IH]; intros c xs r cr E; [discriminate E|].
  cbn [buildPure rootOfLevel] in *.
  assert (many :
    match buildPure fuel (c + length (pairUp c (padList xs)))
            (pairUp c (padList xs)) with
    | Some (r, cr) => Some (r, pairUp c (padList xs) ++ cr)
    | None => None
    end = Some (r, cr) ->
    rootOfLevel fuel (pairHashes (padHashes (map hash xs))) = Some (hash r)).
  { clear E.
    destruct (buildPure fuel (c + length (pairUp c (padList xs)))
                (pairUp c (padList xs))) as [[r' cr']|] eqn:BP; [|discriminate].
    intro E. injection E as <- <-.
    rewrite <- padList_hashes, <- (pairUp_hashes _ c). exact (IH _ _ _ _ BP). }
  destruct xs as [|x [|y l]]; [now apply many | | now apply many].
  injection E as <- <-. reflexivity.
Qed.

(** The root hash depends on the ordered key list only: after [buildTree]
    [getRootHash()] is the value of the level-by-level recursion over the
    key hashes, whatever the heap and the tree object were before; two
    builds of the same keys give the same root hash. *)
Theorem root_hash_of_keys keys this h t h' :
  MerkleTree.buildTree keys (this, h) = Return tt (t, h') ->
  MerkleTree.getRootHash t = merkleRoot keys
  /\ forall this2 h2 t2 h2',
       MerkleTree.buildTree keys (this2, h2) = Return tt (t2, h2') ->
       MerkleTree.getRootHash t2 = MerkleTree.getRootHash t.
Proof.
  assert (one : forall this h t h',
    MerkleTree.buildTree keys (this, h) = Return tt (t, h') ->
    MerkleTree.getRootHash t = merkleRoot keys).
  { clear. intros this h t h' E.
    destruct (built_any keys this h t h' E) as (_ & r & cr & BP & R & _).
    unfold MerkleTree.getRootHash, merkleRoot. rewrite R.
    apply buildPure_root_hash in BP. rewrite <- BP.
    f_equal. clear. generalize (next_oid h) 0.
    induction keys as [|k keys IH]; intros c i; cbn; [reflexivity|].
    f_equal. apply IH. }
  intro E. split; [now apply (one this h t h')|].
  intros this2 h2 t2 h2' E2.
  now rewrite (one _ _ _ _ E), (one _ _ _ _ E2).
Qed.

(** *** The shape of the tree *)

Lemma perfect_height d : forall n, perfect d n -> MerkleTree.height n = d.
Proof.
  induction d as [|d IH]; intros n P; [destruct P|].
  destruct n as [o hs l r leaf dt]. cbn [perfect] in P.
  destruct d as [|d].
  - destruct P as (P & _ & _). cbn in P |- *. now rewrite P.
  - destruct P as (Lf & x & y & El & Er & Px & Py). cbn in Lf, El, Er. subst.
    cbn [MerkleTree.height].
    rewrite (IH x Px), (IH y Py), Nat.max_id. reflexivity.
Qed.

Lemma pairUp_perfect xs d : forall c p,
  (forall x, In x xs -> perfect (S d) x) ->
  In p (pairUp c xs) -> perfect (S (S d)) p.
Proof.
  induction xs as [| x | x y l IH] using list_pair_ind; intros c p Hx Hp;
    try destruct Hp.
  - subst p. cbn [perfect]. split; [reflexivity|].
    exists x, y. repeat split; apply Hx; cbn; auto.
  - apply (IH (S c)); [|assumption]. intros z Hz. apply Hx. now do 2 right.
Qed.

Lemma buildPure_perfect fuel : forall c xs r cr d,
  xs <> [] ->
  (forall x, In x xs -> perfect (S d) x) ->
  buildPure fuel c xs = Some (r, cr) ->
  perfect (S d + Nat.log2_up (length xs)) r.
Proof.
  induction fuel as [|fuel IH]; intros c xs r cr d Hne Hx E; [discriminate E|].
  cbn [buildPure] in E.
  assert (many : 2 <= length xs ->
    match buildPure fuel (c + length (pairUp c (padList xs)))
            (pairUp c (padList xs)) with
    | Some (r, cr) => Some (r, pairUp c (padList xs) ++ cr)
    | None => None
    end = Some (r, cr) ->
    perfect (S d + Nat.log2_up (length xs)) r).
  { clear E. intros H2. set (ps := pairUp c (padList xs)).
    destruct (buildPure fuel (c + length ps) ps) as [[r' cr']|] eqn:BP;
      [|discriminate].
    intro E. injection E as <- <-.
    pose proof (next_level_length xs c) as NL. fold ps in NL.
    assert (Hne' : ps <> []).
    { intro E0. rewrite E0 in NL. cbn [length] in NL.
      assert (1 <= (length xs + 1) / 2) by (apply Nat.div_le_lower_bound; lia).
      lia. }
    assert (Hp : forall p, In p ps -> perfect (S (S d)) p).
    { intros p Hp. apply (pairUp_perfect (padList xs) d c p); [|exact Hp].
      intros x Hin. apply Hx. now apply padList_In. }
    pose proof (IH _ _ _ _ (S d) Hne' Hp BP) as P.
    rewrite NL in P. rewrite (log2_up_half (length xs) H2).
    replace (S d + S (Nat.log2_up ((length xs + 1) / 2)))
      with (S (S d) + Nat.log2_up ((length xs + 1) / 2)) by lia.
    exact P. }
  destruct xs as [|x [|y l]]; [congruence | | apply many; [cbn; lia | exact E]].
  injection E as <- <-. cbn [length]. rewrite Nat.log2_up_1, Nat.add_0_r.
  apply Hx. now left.
Qed.

Lemma mkLeaves_perfect keys c i x : In x (mkLeaves c i keys) -> perfect 1 x.
Proof.
  intro Hx. destruct (mkLeaves_form keys c i x Hx) as (o & k & j & _ & ->).
  cbn. auto.
Qed.

Lemma visualize_length d : forall n prefix isLast lines,
  perfect d n ->
  length (MerkleTree._visualizeNode n prefix isLast lines)
  = length lines + (2 ^ d - 1).
Proof.
  induction d as [|d IH]; intros n prefix isLast lines P; [destruct P|].
  destruct n as [o hs l r leaf dt]. cbn [perfect] in P.
  destruct d as [|d].
  - destruct P as (P & _ & _). cbn in P. subst leaf.
    cbn [MerkleTree._visualizeNode negb andb].
    rewrite length_app. reflexivity.
  - destruct P as (Lf & x & y & El & Er & Px & Py). cbn in Lf, El, Er. subst.
    cbn [MerkleTree._visualizeNode negb andb orb].
    rewrite (IH y _ _ _ Py), (IH x _ _ _ Px), length_app. cbn [length].
    assert (1 <= 2 ^ S d) by (apply Nat.pow_lower_bound; lia).
    rewrite (Nat.pow_succ_r' 2 (S d)). lia.
Qed.

(** After [buildTree] the nodes under the root form a perfect binary tree:
    [getTreeVisualization()] joins exactly [2^height - 1] lines, with
    [height] as [getTreeStats()] reports it.  Three keys give 7 lines: the
    padding leaf and its subtree are printed twice. *)
Theorem visualization_lines keys this h t h' :
  MerkleTree.buildTree keys (this, h) = Return tt (t, h') ->
  let height := treeHeight (MerkleTree.getTreeStats (t, h')) in
  length (MerkleTree.visualizationLines t) = 2 ^ height - 1
  /\ height = Nat.log2_up (length keys) + 1
  /\ MerkleTree.getTreeVisualization t
     = String.concat MerkleTree.newline (MerkleTree.visualizationLines t).
Proof.
  intros E height.
  destruct (built_any keys this h t h' E) as (Hne & r & cr & BP & R & _).
  set (lv := mkLeaves (next_oid h) 0 keys) in *.
  assert (Llv : length lv = length keys) by apply mkLeaves_length.
  assert (Hlv : lv <> []).
  { intro E0. rewrite E0 in Llv. destruct keys; [congruence | discriminate]. }
  pose proof (buildPure_perfect _ _ lv r cr 0 Hlv
                (mkLeaves_perfect keys (next_oid h) 0) BP) as P.
  rewrite Llv in P.
  assert (Hh : height = Nat.log2_up (length keys) + 1).
  { unfold height. cbn. rewrite R. cbn. rewrite (perfect_height _ _ P). lia. }
  split; [|split; [exact Hh|]].
  - unfold MerkleTree.visualizationLines. rewrite R.
    rewrite (visualize_length _ _ _ _ _ P), Hh. cbn [length].
    rewrite (Nat.add_comm (Nat.log2_up (length keys)) 1). reflexivity.
  - unfold MerkleTree.getTreeVisualization. now rewrite R.
Qed.

(** *** The leaf list *)

Lemma mapLeaves_mkLeaves keys : forall c i,
  MerkleTree.mapLeaves (mkLeaves c i keys)
  = inr (map (fun p : nat * string =>
                {| info_hash := CryptoUtils.generateUserId (snd p);
                   info_publicKey := snd p;
                   info_index := fst p;
                   truncatedHash :=
                     CryptoUtils.truncateHash (CryptoUtils.generateUserId (snd p)) 8 |})
           (combine (seq i (length keys)) keys)).
Proof.
  induction keys as [|k keys IH]; intros c i; [reflexivity|].
  cbn. now rewrite IH.
Qed.

Lemma mapLeaves_app xs ys infos1 infos2 :
  MerkleTree.mapLeaves xs = inr infos1 -> MerkleTree.mapLeaves ys = inr infos2 ->
  MerkleTree.mapLeaves (xs ++ ys) = inr (infos1 ++ infos2).
Proof.
  revert infos1. induction xs as [|x xs IH]; intros infos1 Ex Ey; cbn in *.
  - injection Ex as <-. exact Ey.
  - destruct (MerkleTree.leafInfo x); [discriminate|].
    destruct (MerkleTree.mapLeaves xs) as [e|infos']; [discriminate|].
    injection Ex as <-. now rewrite (IH infos' eq_refl Ey).
Qed.

Lemma levelAfter_cases xs :
  levelAfter xs = xs \/ exists x, In x xs /\ levelAfter xs = xs ++ [x].
Proof.
  destruct xs as [|a [|b l]]; cbn [levelAfter]; auto.
  unfold padList. destruct (Nat.odd _); auto.
  destruct (nth_error (a :: b :: l) (length (a :: b :: l) - 1)) eqn:N; auto.
  right. exists m. split; [|reflexivity]. eapply nth_error_In; eauto.
Qed.

Lemma map_snd_combine (A B : Type) (l : list A) : forall (l' : list B),
  length l = length l' -> map snd (combine l l') = l'.
Proof.
  induction l as [|a l IH]; intros [|b l'] E; cbn in *; try discriminate;
    [reflexivity|].
  f_equal. apply IH. lia.
Qed.

Lemma map_fst_combine (A B : Type) (l : list A) : forall (l' : list B),
  length l = length l' -> map fst (combine l l') = l.
Proof.
  induction l as [|a l IH]; intros [|b l'] E; cbn in *; try discriminate;
    [reflexivity|].
  f_equal. apply IH. lia.
Qed.

(** [getLeafNodes()] after [buildTree(keys)] never throws and gives the
    keys back: the first [n] entries carry the keys in order with indices
    [0 .. n-1], every entry's hash is the hash of its key, and there is at
    most one entry more than keys. *)
Theorem leaf_nodes_round_trip keys this h t h' :
  MerkleTree.buildTree keys (this, h) = Return tt (t, h') ->
  let n := length keys in
  exists infos,
    MerkleTree.getLeafNodes (t, h') = Return infos (t, h')
    /\ map info_publicKey (firstn n infos) = keys
    /\ map info_index (firstn n infos) = seq 0 n
    /\ (forall i, In i infos ->
          info_hash i = CryptoUtils.generateUserId (info_publicKey i)
          /\ truncatedHash i = CryptoUtils.truncateHash (info_hash i) 8
          /\ In (info_publicKey i) keys)
    /\ n <= length infos <= n + 1.
Proof.
  intros E n.
  destruct (built_any keys this h t h' E) as (Hne & r & cr & _ & _ & _ & Ar & _).
  set (lv := mkLeaves (next_oid h) 0 keys) in *.
  set (f := fun p : nat * string =>
              {| info_hash := CryptoUtils.generateUserId (snd p);
                 info_publicKey := snd p;
                 info_index := fst p;
                 truncatedHash :=
                   CryptoUtils.truncateHash (CryptoUtils.generateUserId (snd p)) 8 |}).
  set (base := map f (combine (seq 0 n) keys)).
  assert (Lbase : length base = n).
  { unfold base. rewrite length_map, length_combine, length_seq. apply Nat.min_id. }
  assert (Ebase : MerkleTree.mapLeaves lv = inr base) by apply mapLeaves_mkLeaves.
  assert (Pbase : map info_publicKey base = keys).
  { unfold base. rewrite map_map. cbn.
    apply map_snd_combine. now rewrite length_seq. }
  assert (Ibase : map info_index base = seq 0 n).
  { unfold base. rewrite map_map. cbn.
    apply map_fst_combine. now rewrite length_seq. }
  assert (Gbase : forall i, In i base ->
            info_hash i = CryptoUtils.generateUserId (info_publicKey i)
            /\ truncatedHash i = CryptoUtils.truncateHash (info_hash i) 8
            /\ In (info_publicKey i) keys).
  { intros i Hi. unfold base in Hi. apply in_map_iff in Hi.
    destruct Hi as ([j k] & <- & Hin). cbn. repeat split.
    apply in_combine_r in Hin. exact Hin. }
  unfold MerkleTree.getLeafNodes. rewrite Ar.
  destruct (levelAfter_cases lv) as [-> | (x & Hx & ->)].
  - exists base. rewrite Ebase. rewrite firstn_all2 by lia.
    repeat split; auto; try lia. apply Gbase; assumption. apply Gbase; assumption.
    apply Gbase; assumption.
  - destruct (mkLeaves_form keys _ _ x Hx) as (o & k & j & Hk & ->).
    set (x := mkNode o (CryptoUtils.generateUserId k) None None true
                (Some {| publicKey := k; index := j |})) in *.
    assert (Ex : MerkleTree.mapLeaves [x] = inr [f (j, k)]) by reflexivity.
    rewrite (mapLeaves_app lv [x] base _ Ebase Ex).
    exists (base ++ [f (j, k)]).
    rewrite firstn_app, Lbase, Nat.sub_diag, firstn_all2 by lia.
    cbn [firstn]. rewrite app_nil_r, length_app. cbn [length].
    split; [reflexivity | split; [exact Pbase | split; [exact Ibase | split; [|lia]]]].
    intros i Hi. apply in_app_iff in Hi. destruct Hi as [Hi | [<- | []]].
    + now apply Gbase.
    + cbn. auto.
Qed.

(** *** The index after a build on a new tree *)

Lemma map_set_keys k (v : MerkleTreeNode) m :
  map fst (map_set String.eqb k v m)
  = if existsb (fun k' => String.eqb k' k) (map fst m) then map fst m
    else map fst m ++ [k].
Proof.
  induction m as [|[k1 v1] m IH]; cbn; [reflexivity|].
  destruct (String.eqb k1 k) eqn:E; cbn.
  - apply String.eqb_eq in E. now subst k1.
  - rewrite IH. now destruct (existsb _ _).
Qed.

Lemma map_set_nodup k (v : MerkleTreeNode) m :
  NoDup (map fst m) -> NoDup (map fst (map_set String.eqb k v m)).
Proof.
  intro N. rewrite map_set_keys.
  destruct (existsb (fun k' => String.eqb k' k) (map fst m)) eqn:E; [exact N|].
  apply NoDup_app; [exact N | repeat constructor; intros [] | ].
  intros x Hx [<- | []].
  assert (existsb (fun k' => String.eqb k' k) (map fst m) = true).
  { apply existsb_exists. exists k. split; [exact Hx | apply String.eqb_refl]. }
  congruence.
Qed.

Lemma index_set_nodup L : forall m,
  NoDup (map fst m) -> NoDup (map fst (index_set L m)).
Proof.
  induction L as [|x L IH]; intros m N; [exact N|].
  cbn. apply IH. now apply map_set_nodup.
Qed.

(** The index of a tree built on a new [MerkleTree] holds one entry per
    hash, filed under the hash of its node: [totalNodes] counts different
    hashes, not node objects.  It is at most the number of nodes the build
    created, and smaller as soon as two keys have the same hash. *)
Theorem index_counts_hashes h keys t h' :
  MerkleTree.buildTree keys (MerkleTree.constructor h) = Return tt (t, h') ->
  let created := next_oid h' - next_oid h in
  NoDup (map fst (nodes t))
  /\ (forall k n, In (k, n) (nodes t) ->
        hash n = k /\ next_oid h <= oid n < next_oid h')
  /\ totalNodes (MerkleTree.getTreeStats (t, h')) <= created
  /\ (~ NoDup (map CryptoUtils.generateUserId keys) ->
      totalNodes (MerkleTree.getTreeStats (t, h')) < created).
Proof.
  intros E created.
  destruct (built_facts h keys t h' E) as (r & cr & BP & R & M & Ar & O & Hne).
  set (c0 := next_oid h) in *.
  set (lv := mkLeaves c0 0 keys) in *.
  assert (Llv : length lv = length keys) by apply mkLeaves_length.
  destruct (buildPure_facts (length keys) (c0 + length keys) lv r cr)
    as (_ & _ & _ & _ & He); [|exact BP|].
  { intros x Hx.
    pose proof (seq_map_bounds _ oid lv c0 x (mkLeaves_oids keys c0 0) Hx). lia. }
  set (A := lv ++ cr) in *.
  assert (oids : map oid A = seq c0 (length A)).
  { unfold A. rewrite map_app, length_app, seq_app, He, <- Llv.
    f_equal. apply mkLeaves_oids. }
  assert (LA : length A = created).
  { unfold created, A. rewrite length_app, O, Llv. lia. }
  assert (N : NoDup (map fst (nodes t))).
  { rewrite M. apply index_set_nodup. constructor. }
  assert (Ent : forall k n, In (k, n) (nodes t) -> In n A /\ hash n = k).
  { intros k n Hin. rewrite M in Hin.
    destruct (index_set_inv _ _ _ Hin) as [[] | HH]. exact HH. }
  assert (Inc : incl (map fst (nodes t)) (map hash A)).
  { intros k Hk. apply in_map_iff in Hk. destruct Hk as ([k' n] & <- & Hin).
    destruct (Ent _ _ Hin) as [HA <-]. cbn [fst]. apply (in_map hash A n HA). }
  assert (Tot : totalNodes (MerkleTree.getTreeStats (t, h')) = length (nodes t)).
  { cbn. rewrite R. reflexivity. }
  assert (Le : length (nodes t) <= length A).
  { rewrite <- (length_map fst), <- (length_map hash A).
    now apply NoDup_incl_length. }
  split; [exact N | split; [|split]].
  - intros k n Hin. destruct (Ent _ _ Hin) as [HA Eh]. split; [exact Eh|].
    pose proof (seq_map_bounds _ oid A c0 n oids HA). unfold created in LA. lia.
  - rewrite Tot. lia.
  - intro ND. rewrite Tot.
    destruct (Nat.eq_dec (length (nodes t)) (length A)) as [Eq | Ne]; [|lia].
    exfalso. apply ND.
    assert (NA : NoDup (map hash A)).
    { apply NoDup_incl_NoDup with (l := map fst (nodes t)); auto.
      rewrite !length_map. lia. }
    unfold A in NA. rewrite map_app in NA. apply NoDup_app_remove_r in NA.
    replace (map CryptoUtils.generateUserId keys) with (map hash lv); [exact NA|].
    unfold lv. clear. generalize c0 0.
    induction keys as [|k keys IH]; intros c i; cbn; [reflexivity|].
    f_equal. apply IH.
Qed.

(** *** The structure a build on a new tree leaves *)

Lemma perfect_sub d : forall r n,
  perfect d r -> In n (subnodes r) -> exists d', d' <= d /\ 0 < d' /\ perfect d' n.
Proof.
  induction d as [|d IH]; intros r n P Hn; [destruct P|].
  destruct r as [o hs l rr leaf dt]. cbn [subnodes] in Hn.
  destruct Hn as [<- | Hn]; [exists (S d); split; [lia | split; [lia | exact P]]|].
  cbn [perfect] in P. destruct d as [|d].
  - destruct P as (_ & El & Er). cbn in El, Er. subst. destruct Hn.
  - destruct P as (_ & x & y & El & Er & Px & Py). cbn in El, Er. subst.
    apply in_app_iff in Hn.
    destruct Hn as [Hn | Hn];
      [destruct (IH x n Px Hn) as (d' & Hd & Hp) |
       destruct (IH y n Py Hn) as (d' & Hd & Hp)];
      exists d'; (split; [lia | exact Hp]).
Qed.

Lemma perfect_child d q c :
  perfect d q -> isLeaf q = false -> left q = Some c \/ right q = Some c ->
  MerkleTree.height q = S (MerkleTree.height c).
Proof.
  intros P Lq Hc. pose proof (perfect_height d q P) as Hq.
  destruct d as [|[|d]]; [destruct P | destruct P as (Lt & _); congruence |].
  destruct P as (_ & x & y & El & Er & Px & Py).
  rewrite Hq. f_equal. symmetry.
  destruct Hc as [E | E]; rewrite E in *.
  - injection El as <-. now apply perfect_height.
  - injection Er as <-. now apply perfect_height.
Qed.

Lemma built_structure h keys t h' :
  MerkleTree.buildTree keys (MerkleTree.constructor h) = Return tt (t, h') ->
  let lv := mkLeaves (next_oid h) 0 keys in
  exists r cr,
    root t = Some r
    /\ arrays h' (leaves t) = levelAfter lv
    /\ map oid (lv ++ cr) = seq (next_oid h) (length (lv ++ cr))
    /\ length (lv ++ cr) = next_oid h' - next_oid h
    /\ In r (lv ++ cr)
    /\ (forall k p, In (k, p) (nodes t) -> In p (lv ++ cr))
    /\ (forall p, In p (lv ++ cr) -> isLeaf p = false -> internal_in (lv ++ cr) p)
    /\ (forall p, In p (lv ++ cr) -> isLeaf p = true -> In p lv)
    /\ (forall n, In n (lv ++ cr) -> In n (subnodes r))
    /\ perfect (1 + Nat.log2_up (length keys)) r
    /\ (collisionFree t = true ->
        forall n, In n (lv ++ cr) ->
          n = r \/ exists p, In p (lv ++ cr) /\ isLeaf p = false
                             /\ (left p = Some n \/ right p = Some n)
                             /\ In (hash p, p) (nodes t)).
Proof.
  intros E lv.
  destruct (built_facts h keys t h' E) as (r & cr & BP & R & M & Ar & O & Hne).
  set (c0 := next_oid h) in *. fold lv in BP, M, Ar.
  assert (Llv : length lv = length keys) by apply mkLeaves_length.
  destruct (buildPure_facts (length keys) (c0 + length keys) lv r cr)
    as (Ha & Hb & Hc & Hd & He); [|exact BP|].
  { intros x Hx.
    pose proof (seq_map_bounds _ oid lv c0 x (mkLeaves_oids keys c0 0) Hx). lia. }
  set (A := lv ++ cr) in *.
  assert (oids : map oid A = seq c0 (length A)).
  { unfold A. rewrite map_app, length_app, seq_app, He, <- Llv.
    f_equal. apply mkLeaves_oids. }
  assert (internal_cr : forall p, In p A -> isLeaf p = false -> In p cr).
  { intros p Hp Lp. apply in_app_iff in Hp. destruct Hp as [Hp | Hp]; [|exact Hp].
    apply mkLeaves_leaf in Hp. destruct Hp as [Lt _]. congruence. }
  assert (Hlv : lv <> []).
  { intro E0. rewrite E0 in Llv. destruct keys; [congruence | discriminate]. }
  exists r, cr. split; [exact R | split; [exact Ar | split; [exact oids|]]].
  split; [unfold A; rewrite length_app, O, Llv; lia|].
  split; [exact Ha|]. split.
  { intros k p Hin. rewrite M in Hin.
    destruct (index_set_inv _ _ _ Hin) as [[] | [HH _]]. exact HH. }
  split; [intros p Hp Lp; apply Hb; now apply internal_cr|]. split.
  { intros p Hp Lp. apply in_app_iff in Hp. destruct Hp as [Hp | Hp]; [exact Hp|].
    destruct (Hb p Hp) as [Lf _]. congruence. }
  split; [exact Hd|]. split.
  { pose proof (buildPure_perfect _ _ lv r cr 0 Hlv
                  (mkLeaves_perfect keys c0 0) BP) as P.
    now rewrite Llv in P. }
  intros CF n Hn.
  unfold collisionFree in CF. rewrite R in CF.
  pose proof (internalHashesDistinct_spec _ CF) as Dist.
  destruct (Hc n Hn) as [-> | (p & Hp & Hpc)]; [now left|].
  right. exists p.
  assert (HpA : In p A) by (apply in_app_iff; now right).
  split; [exact HpA | split; [now destruct (Hb p Hp) | split; [exact Hpc|]]].
  rewrite M. apply (index_keeps A c0 p oids HpA).
  intros q Hq Hlt Eh.
  assert (In q cr).
  { apply in_app_iff in Hq. destruct Hq as [Hl | Hq]; [|exact Hq].
    pose proof (seq_map_bounds _ oid lv c0 q (mkLeaves_oids keys c0 0) Hl).
    pose proof (seq_map_bounds _ oid cr _ p He Hp). lia. }
  assert (oid q = oid p); [|lia].
  apply Dist; auto; try (apply Hd; assumption).
  - now destruct (Hb q H0).
  - now destruct (Hb p Hp).
Qed.

(** *** The shape of the walk *)

Section WalkShape.
Variable this : MerkleTree.
Variable A : list MerkleTreeNode.
Variable r : MerkleTreeNode.
Variable c0 : nat.
Hypothesis root_r : root this = Some r.
Hypothesis oids : map oid A = seq c0 (length A).
Hypothesis r_in : In r A.
Hypothesis index_in : forall k p, In (k, p) (nodes this) -> In p A.
Hypothesis internals : forall p, In p A -> isLeaf p = false -> internal_in A p.
Hypothesis below : forall n, In n A -> MerkleTree.height n <= MerkleTree.height r.
Hypothesis above : forall q c, In q A -> isLeaf q = false ->
  left q = Some c \/ right q = Some c ->
  MerkleTree.height q = S (MerkleTree.height c).

Lemma walk_shape k : forall n path,
  In n A -> c0 + length A - oid n <= k ->
  exists steps,
    (forall fuel, k < fuel ->
       MerkleTree.walk fuel this n path = Return (path ++ steps) tt)
    /\ map level steps = seq (length path) (length steps)
    /\ length steps + MerkleTree.height n <= MerkleTree.height r
    /\ ((forall m, In m A -> m <> r ->
           MerkleTree.findIn (nodes this) m <> None) ->
        length steps + MerkleTree.height n = MerkleTree.height r).
Proof.
  induction k as [|k IH]; intros n path Hn Hk.
  { pose proof (seq_map_bounds _ oid A c0 n oids Hn). lia. }
  destruct (Nat.eqb (oid r) (oid n)) eqn:Er.
  - apply Nat.eqb_eq in Er.
    apply (seq_map_inj _ oid A c0 oids r n r_in Hn) in Er. subst n.
    exists []. split; [|split; [reflexivity | split; [cbn; lia | intros _; reflexivity]]].
    intros [|fuel] Hf; [lia|].
    cbn [MerkleTree.walk]. rewrite root_r. cbn [ref_is]. unfold same_node.
    rewrite Nat.eqb_refl. cbn. now rewrite app_nil_r.
  - assert (Nr : n <> r).
    { intros ->. rewrite Nat.eqb_refl in Er. discriminate Er. }
    destruct (MerkleTree.findIn (nodes this) n) as [q|] eqn:Fq.
    + destruct (findIn_Some _ _ _ Fq) as [[kq Hq] Tq].
      apply index_in in Hq.
      apply andb_true_iff in Tq. destruct Tq as [Tc Tl].
      apply negb_true_iff in Tl.
      destruct (internals q Hq Tl) as (_ & l & rr & El & Err & Hl & Hrr & Ol & Orr & Eh).
      rewrite El, Err in Tc. cbn [ref_is] in Tc. unfold same_node in Tc.
      assert (Hh : MerkleTree.height q = S (MerkleTree.height n)).
      { destruct (Nat.eqb (oid l) (oid n)) eqn:Eln.
        - apply Nat.eqb_eq in Eln.
          apply (seq_map_inj _ oid A c0 oids l n Hl Hn) in Eln. subst l.
          apply above; auto.
        - cbn in Tc. apply Nat.eqb_eq in Tc.
          apply (seq_map_inj _ oid A c0 oids rr n Hrr Hn) in Tc. subst rr.
          apply above; auto. }
      assert (Oq : oid n < oid q).
      { destruct (Nat.eqb (oid l) (oid n)) eqn:Eln.
        - apply Nat.eqb_eq in Eln. lia.
        - cbn in Tc. apply Nat.eqb_eq in Tc. lia. }
      set (sib := if Nat.eqb (oid l) (oid n) then rr else l).
      set (st := {| step_hash := hash sib;
                    isLeft := negb (Nat.eqb (oid l) (oid n));
                    level := length path |}).
      destruct (IH q (path ++ [st]) Hq) as (steps & Hwalk & Hlev & Hle & Heq); [lia|].
      exists (st :: steps). split; [|split; [|split]].
      * intros [|fuel] Hf; [lia|].
        cbn [MerkleTree.walk]. rewrite root_r. cbn [ref_is]. unfold same_node.
        rewrite Er. cbn [negb]. unfold MerkleTree._findParent. rewrite Fq.
        rewrite El, Err. cbn [ref_is]. unfold same_node.
        replace (if Nat.eqb (oid l) (oid n) then Some rr else Some l)
          with (Some sib) by (unfold sib; now destruct (Nat.eqb (oid l) (oid n))).
        fold st. rewrite Hwalk by lia. now rewrite <- app_assoc.
      * cbn [map length seq level st]. f_equal.
        rewrite Hlev, length_app. cbn [length].
        now rewrite Nat.add_1_r.
      * cbn [length]. lia.
      * intro Hall. cbn [length]. specialize (Heq Hall). lia.
    + exists []. split; [|split; [reflexivity | split]].
      * intros [|fuel] Hf; [lia|].
        cbn [MerkleTree.walk]. rewrite root_r. cbn [ref_is]. unfold same_node.
        rewrite Er. cbn [negb]. unfold MerkleTree._findParent. rewrite Fq.
        now rewrite app_nil_r.
      * cbn. now apply below.
      * intro Hall. exfalso. now apply (Hall n Hn Nr).
Qed.
End WalkShape.

(** *** The proof [generateMembershipProof] returns *)

Lemma find_none_all (A : Type) (f : A -> bool) (l : list A) :
  (forall x, In x l -> f x = false) -> find f l = None.
Proof.
  induction l as [|a l IH]; intro Hf; [reflexivity|].
  cbn. rewrite (Hf a) by now left. apply IH. intros x Hx. apply Hf. now right.
Qed.

Lemma find_app_l (A : Type) (f : A -> bool) (l l' : list A) x :
  find f l = Some x -> find f (l ++ l') = Some x.
Proof.
  induction l as [|a l IH]; intro E; [discriminate E|].
  cbn in *. destruct (f a); auto.
Qed.

Lemma find_app_none (A : Type) (f : A -> bool) (l l' : list A) :
  find f l = None -> find f (l ++ l') = find f l'.
Proof.
  induction l as [|a l IH]; intro E; [reflexivity|].
  cbn in *. destruct (f a); [discriminate | auto].
Qed.

Lemma find_levelAfter (f : MerkleTreeNode -> bool) xs :
  find f (levelAfter xs) = find f xs.
Proof.
  destruct (levelAfter_cases xs) as [-> | (x & Hx & ->)]; [reflexivity|].
  destruct (find f xs) as [y|] eqn:E.
  - now apply find_app_l.
  - rewrite find_app_none by exact E. cbn.
    now rewrite (find_none _ _ E x Hx).
Qed.

(** The first leaf with a given hash is the leaf of the first key with
    that hash. *)
Lemma find_mkLeaves keys u : forall c i leaf,
  find (fun l => String.eqb (hash l) u) (mkLeaves c i keys) = Some leaf ->
  exists j key,
    nth_error keys j = Some key
    /\ leaf = mkNode (c + j) (CryptoUtils.generateUserId key) None None true
                (Some {| publicKey := key; index := i + j |})
    /\ CryptoUtils.generateUserId key = u
    /\ forall j' key', j' < j -> nth_error keys j' = Some key' ->
                       CryptoUtils.generateUserId key' <> u.
Proof.
  induction keys as [|k keys IH]; intros c i leaf E; [discriminate E|].
  cbn in E. destruct (String.eqb (CryptoUtils.generateUserId k) u) eqn:Ek.
  - injection E as <-. apply String.eqb_eq in Ek.
    exists 0, k. rewrite !Nat.add_0_r. repeat split; auto.
    intros j' key' Hj. lia.
  - destruct (IH _ _ _ E) as (j & key & Hn & El & Eu & First).
    exists (S j), key. rewrite <- !Nat.add_succ_comm.
    repeat split; auto.
    intros [|j'] key' Hj Hn'; cbn in Hn'.
    + injection Hn' as <-. now apply String.eqb_neq.
    + apply (First j' key'); [lia | exact Hn'].
Qed.

Lemma walk_throws fuel : forall this n path e u,
  MerkleTree.walk fuel this n path = Throw e u -> exists a, e = TypeError a.
Proof.
  induction fuel as [|fuel IH]; intros this n path e u E; [discriminate E|].
  cbn [MerkleTree.walk] in E.
  destruct (negb (ref_is (root this) n)); [|discriminate E].
  destruct (MerkleTree._findParent this n) as [q|]; [|discriminate E].
  destruct (if ref_is (left q) n then right q else left q) as [s|].
  - exact (IH _ _ _ _ _ E).
  - injection E as <- _. eauto.
Qed.

(** [generateMembershipProof] throws its "not in the tree" error exactly
    when no key of the built list has the hash of the requested key; the
    tree is left as it was. *)
Theorem proof_not_found_iff keys this h t h' (k : string) (fuel : nat) :
  MerkleTree.buildTree keys (this, h) = Return tt (t, h') ->
  (forall k', In k' keys ->
     CryptoUtils.generateUserId k' <> CryptoUtils.generateUserId k)
  <-> MerkleTree.generateMembershipProof fuel k (t, h')
      = Throw (Error "用户不在树中") (t, h').
Proof.
  intro E.
  destruct (built_any keys this h t h' E) as (_ & r & cr & _ & _ & _ & Ar & _).
  unfold MerkleTree.generateMembershipProof. rewrite Ar, find_levelAfter.
  split.
  - intro Hno. rewrite find_none_all; [reflexivity|].
    intros x Hx. apply String.eqb_neq.
    destruct (mkLeaves_form keys _ _ x Hx) as (o & k' & j & Hk' & ->).
    cbn. now apply Hno.
  - intros T k' Hk' Eh.
    destruct (mkLeaves_has keys (next_oid h) 0 k' Hk') as (n & Hn & En).
    destruct (find_exists _ (fun l => String.eqb (hash l) (CryptoUtils.generateUserId k))
                _ n Hn) as (leaf & Hf).
    { rewrite En, Eh. apply String.eqb_refl. }
    rewrite Hf in T.
    destruct (mkLeaves_form keys _ _ leaf (proj1 (find_some _ _ Hf)))
      as (o & k2 & j & _ & ->).
    cbn [data] in T.
    destruct (MerkleTree.walk fuel t _ []) as [p u | e u |] eqn:W;
      try discriminate T.
    destruct (walk_throws _ _ _ _ _ _ W) as (a & ->). discriminate T.
Qed.

(** Everything about the proof generated for a key of the list. *)
Lemma generated_proof_facts h keys t h' k :
  MerkleTree.buildTree keys (MerkleTree.constructor h) = Return tt (t, h') ->
  In k keys ->
  exists proof key,
    (forall fuel, next_oid h' - next_oid h < fuel ->
       MerkleTree.generateMembershipProof fuel k (t, h') = Return proof (t, h'))
    /\ leafHash proof = CryptoUtils.generateUserId k
    /\ rootHash proof = MerkleTree.getRootHash t
    /\ nth_error keys (leafIndex proof) = Some key
    /\ CryptoUtils.generateUserId key = CryptoUtils.generateUserId k
    /\ (forall j' key', j' < leafIndex proof -> nth_error keys j' = Some key' ->
          CryptoUtils.generateUserId key' <> CryptoUtils.generateUserId k)
    /\ map level (path proof) = seq 0 (length (path proof))
    /\ length (path proof) + 1
       <= treeHeight (MerkleTree.getTreeStats (t, h'))
    /\ (collisionFree t = true ->
        length (path proof) + 1 = treeHeight (MerkleTree.getTreeStats (t, h'))
        /\ MerkleTree.verifyMembershipProof t proof = true).
Proof.
  intros E Hk.
  destruct (built_structure h keys t h' E)
    as (r & cr & R & Ar & oids & LA & Ha & Hidx & Hint & Hleaf & Hd & P & Hpar).
  set (c0 := next_oid h) in *.
  set (lv := mkLeaves c0 0 keys) in *.
  set (A := lv ++ cr) in *.
  set (u := CryptoUtils.generateUserId k).
  assert (Hheight : treeHeight (MerkleTree.getTreeStats (t, h'))
                    = MerkleTree.height r).
  { cbn. rewrite R. reflexivity. }
  assert (below : forall n, In n A -> MerkleTree.height n <= MerkleTree.height r).
  { intros n Hn. destruct (perfect_sub _ r n P (Hd n Hn)) as (d' & Hle & _ & Pn).
    rewrite (perfect_height _ _ Pn), (perfect_height _ _ P). exact Hle. }
  assert (above : forall q c, In q A -> isLeaf q = false ->
            left q = Some c \/ right q = Some c ->
            MerkleTree.height q = S (MerkleTree.height c)).
  { intros q c Hq Lq Hc.
    destruct (perfect_sub _ r q P (Hd q Hq)) as (d' & _ & _ & Pq).
    now apply (perfect_child d' q c). }
  destruct (mkLeaves_has keys c0 0 k Hk) as (n & Hn & En).
  destruct (find_exists _ (fun l => String.eqb (hash l) u) lv n Hn)
    as (leaf & Hfind).
  { rewrite En. apply String.eqb_refl. }
  destruct (find_mkLeaves keys u c0 0 leaf Hfind)
    as (j & key & Hnth & Eleaf & Eu & First).
  assert (HleafA : In leaf A).
  { apply in_app_iff. left. exact (proj1 (find_some _ _ Hfind)). }
  assert (Hhl : MerkleTree.height leaf = 1) by (subst leaf; reflexivity).
  destruct (walk_shape t A r c0 R oids Ha Hidx Hint below above (length A) leaf []
              HleafA) as (steps & Hwalk & Hlev & Hle & Heq).
  { pose proof (seq_map_bounds _ oid A c0 leaf oids HleafA). lia. }
  exists {| leafHash := u; leafIndex := j; path := steps;
            rootHash := Some (hash r) |}, key.
  cbn [leafHash leafIndex path rootHash].
  split; [|split; [reflexivity | split; [|split; [exact Hnth | split; [exact Eu|]]]]].
  - intros fuel Hf. unfold MerkleTree.generateMembershipProof.
    rewrite Ar, find_levelAfter. fold u. rewrite Hfind.
    rewrite Eleaf at 1. cbn [data].
    rewrite Hwalk by lia. cbn [index app].
    unfold MerkleTree.getRootHash. rewrite R. reflexivity.
  - unfold MerkleTree.getRootHash. now rewrite R.
  - split; [exact First | split; [exact Hlev | split; [rewrite Hheight; lia|]]].
    intro CF. specialize (Hpar CF).
    split.
    + rewrite Hheight, <- Heq; [lia|].
      intros m Hm Nm. destruct (Hpar m Hm) as [-> | (p & Hp & Lp & Hc & Hin)];
        [congruence|].
      assert (T : (ref_is (left p) m || ref_is (right p) m) && negb (isLeaf p)
                  = true).
      { rewrite Lp. cbn. rewrite andb_true_r. apply orb_true_iff.
        destruct Hc as [-> | ->]; [left | right]; cbn; apply Nat.eqb_refl. }
      destruct (findIn_exists _ m _ _ Hin T) as (q & Fq). congruence.
    + destruct (walk_ok t A r c0 R oids Ha Hpar Hidx Hint (length A) leaf []
                  HleafA) as (steps2 & Hfold & Hwalk2).
      { pose proof (seq_map_bounds _ oid A c0 leaf oids HleafA). lia. }
      pose proof (Hwalk (S (length A)) (Nat.lt_succ_diag_r _)) as W1.
      pose proof (Hwalk2 (S (length A)) (Nat.lt_succ_diag_r _)) as W2.
      rewrite W1 in W2. injection W2 as <-.
      unfold MerkleTree.verifyMembershipProof. cbn.
      replace u with (hash leaf) by (subst leaf; exact Eu).
      rewrite Hfold. apply String.eqb_refl.
Qed.

(** For every key of the built list [generateMembershipProof] returns: its
    loop ends and nothing is thrown, also when hashes repeat.  The proof
    carries the hash of the key, the root hash of the tree, and as
    [leafIndex] the position of the first key of the list with that hash. *)
Theorem proof_for_member h keys t h' k :
  MerkleTree.buildTree keys (MerkleTree.constructor h) = Return tt (t, h') ->
  In k keys ->
  exists proof key,
    (forall fuel, next_oid h' - next_oid h < fuel ->
       MerkleTree.generateMembershipProof fuel k (t, h') = Return proof (t, h'))
    /\ leafHash proof = CryptoUtils.generateUserId k
    /\ rootHash proof = MerkleTree.getRootHash t
    /\ nth_error keys (leafIndex proof) = Some key
    /\ CryptoUtils.generateUserId key = CryptoUtils.generateUserId k
    /\ (forall j' key', j' < leafIndex proof -> nth_error keys j' = Some key' ->
          CryptoUtils.generateUserId key' <> CryptoUtils.generateUserId k).
Proof.
  intros E Hk.
  destruct (generated_proof_facts h keys t h' k E Hk)
    as (proof & key & G & L & R & N & Eh & F & _).
  exists proof, key. auto 10.
Qed.

(** The path of a generated proof numbers its steps [0, 1, 2, ...] in
    [level]; it has at most [treeHeight - 1] steps, and exactly that many
    when no two internal nodes of the tree share a hash. *)
Theorem proof_path_shape h keys t h' k fuel proof :
  MerkleTree.buildTree keys (MerkleTree.constructor h) = Return tt (t, h') ->
  In k keys ->
  next_oid h' - next_oid h < fuel ->
  MerkleTree.generateMembershipProof fuel k (t, h') = Return proof (t, h') ->
  let height := treeHeight (MerkleTree.getTreeStats (t, h')) in
  map level (path proof) = seq 0 (length (path proof))
  /\ length (path proof) + 1 <= height
  /\ (collisionFree t = true -> length (path proof) + 1 = height).
Proof.
  intros E Hk Hf G height.
  destruct (generated_proof_facts h keys t h' k E Hk)
    as (proof' & key & G' & _ & _ & _ & _ & _ & Lv & Le & Eq).
  rewrite (G' fuel Hf) in G. injection G as <-.
  split; [exact Lv | split; [exact Le|]].
  intro CF. now destruct (Eq CF).
Qed.

(** *** Soundness of [verifyMembershipProof] *)

Lemma append_split (a b c d : string) :
  (a ++ b)%string = (c ++ d)%string -> String.length a = String.length c ->
  a = c /\ b = d.
Proof.
  revert c. induction a as [|x a IH]; intros [|y c] E L; cbn in *;
    try discriminate; [auto|].
  injection E as -> E. destruct (IH c E) as [-> ->]; [lia | auto].
Qed.

Lemma string_length_app (a b : string) :
  String.length (a ++ b)%string = String.length a + String.length b.
Proof. induction a; cbn; auto. Qed.

Lemma foldPath_app cur p1 : forall p2,
  MerkleTree.foldPath cur (p1 ++ p2)
  = MerkleTree.foldPath (MerkleTree.foldPath cur p1) p2.
Proof.
  revert cur. induction p1 as [|st p1 IH]; intros cur p2; [reflexivity|].
  cbn [app]. now rewrite !foldPath_cons, IH.
Qed.

Lemma foldInputs_app cur p1 : forall p2,
  foldInputs cur (p1 ++ p2)
  = foldInputs cur p1 ++ foldInputs (MerkleTree.foldPath cur p1) p2.
Proof.
  revert cur. induction p1 as [|st p1 IH]; intros cur p2; [reflexivity|].
  cbn [app foldInputs]. rewrite IH, foldPath_cons. reflexivity.
Qed.

Lemma foldPath_length L path : forall cur,
  String.length cur = L ->
  (forall x, In x (foldInputs cur path) -> String.length (sha256 x) = L) ->
  String.length (MerkleTree.foldPath cur path) = L.
Proof.
  induction path as [|st path IH]; intros cur Hc Hl; [exact Hc|].
  rewrite foldPath_cons. apply IH.
  - apply Hl. now left.
  - intros x Hx. apply Hl. now right.
Qed.

(** The nodes under the root of a built tree, whatever the tree object was
    before: leaves made from the keys, internal nodes made from two
    children one level below. *)
Lemma tree_nodes_facts keys this h t h' :
  MerkleTree.buildTree keys (this, h) = Return tt (t, h') ->
  exists r,
    root t = Some r
    /\ perfect (1 + Nat.log2_up (length keys)) r
    /\ forall n, In n (subnodes r) ->
         hash n = sha256 (nodeInput n)
         /\ (isLeaf n = true -> In (nodeInput n) keys)
         /\ (isLeaf n = false ->
             exists l rr, left n = Some l /\ right n = Some rr
                          /\ nodeInput n = (hash l ++ hash rr)%string).
Proof.
  intro E.
  destruct (built_any keys this h t h' E) as (Hne & r & cr & BP & R & _).
  set (c0 := next_oid h) in *.
  set (lv := mkLeaves c0 0 keys) in *.
  assert (Llv : length lv = length keys) by apply mkLeaves_length.
  assert (Hlv : lv <> []).
  { intro E0. rewrite E0 in Llv. destruct keys; [congruence | discriminate]. }
  destruct (buildPure_facts (length keys) (c0 + length keys) lv r cr)
    as (Ha & Hb & _); [|exact BP|].
  { intros x Hx.
    pose proof (seq_map_bounds _ oid lv c0 x (mkLeaves_oids keys c0 0) Hx). lia. }
  set (A := lv ++ cr) in *.
  assert (facts : forall n, In n A ->
            hash n = sha256 (nodeInput n)
            /\ (isLeaf n = true -> In (nodeInput n) keys)
            /\ (isLeaf n = false ->
                exists l rr, left n = Some l /\ right n = Some rr
                             /\ nodeInput n = (hash l ++ hash rr)%string)
            /\ forall m, (left n = Some m \/ right n = Some m) -> In m A).
  { intros n Hn. apply in_app_iff in Hn. destruct Hn as [Hn | Hn].
    - destruct (mkLeaves_form keys c0 0 n Hn) as (o & k & j & Hk & ->).
      cbn. repeat split; auto; try discriminate.
      intros m [Em | Em]; discriminate Em.
    - destruct (Hb n Hn) as (Lf & l & rr & El & Er & Hl & Hrr & _ & _ & Eh).
      unfold nodeInput. rewrite Lf, El, Er.
      repeat split; auto; try discriminate.
      + exists l, rr. auto.
      + intros m [Em | Em]; congruence. }
  assert (closed : forall n, In n A -> forall m, In m (subnodes n) -> In m A).
  { induction n as [o hs l rr b d IHl IHr] using node_induction.
    intros Hn m Hm. cbn [subnodes] in Hm.
    destruct Hm as [<- | Hm]; [exact Hn|].
    destruct (facts _ Hn) as (_ & _ & _ & Hch). cbn [left right] in Hch.
    apply in_app_iff in Hm. destruct Hm as [Hm | Hm].
    - destruct l as [x|]; [|destruct Hm]. apply (IHl x eq_refl); auto.
    - destruct rr as [x|]; [|destruct Hm]. apply (IHr x eq_refl); auto. }
  exists r. split; [exact R | split].
  - pose proof (buildPure_perfect _ _ lv r cr 0 Hlv
                  (mkLeaves_perfect keys c0 0) BP) as P.
    now rewrite Llv in P.
  - intros n Hn. destruct (facts n (closed r Ha n Hn)) as (F1 & F2 & F3 & _).
    auto.
Qed.

Section Sound.
Variable L : nat.
Variable keys : list string.
Variable r : MerkleTreeNode.
Variable d : nat.
Hypothesis perf : perfect d r.
Hypothesis node_facts : forall n, In n (subnodes r) ->
  hash n = sha256 (nodeInput n)
  /\ (isLeaf n = true -> In (nodeInput n) keys)
  /\ (isLeaf n = false ->
      exists l rr, left n = Some l /\ right n = Some rr
                   /\ nodeInput n = (hash l ++ hash rr)%string).
Hypothesis key_length : forall k, In k keys -> String.length k <> 2 * L.
Hypothesis node_length : forall n, In n (subnodes r) -> String.length (hash n) = L.

Lemma sound_path path : forall cur p,
  In p (subnodes r) ->
  String.length cur = L ->
  (forall st, In st path -> String.length (step_hash st) = L) ->
  (forall x, In x (foldInputs cur path) -> String.length (sha256 x) = L) ->
  injectiveOn (foldInputs cur path ++ treeInputs r) ->
  MerkleTree.foldPath cur path = hash p ->
  exists n, In n (subnodes r) /\ hash n = cur
            /\ MerkleTree.height n + length path = MerkleTree.height p.
Proof.
  induction path as [|st path IH] using rev_ind; intros cur p Hp Hc Hs Hl J F.
  - exists p. cbn in F. repeat split; auto.
  - rewrite foldPath_app, foldPath_cons in F. cbn [MerkleTree.foldPath] in F.
    rewrite foldInputs_app in J, Hl. cbn [foldInputs] in J, Hl.
    set (c' := MerkleTree.foldPath cur path) in *.
    assert (Lc' : String.length c' = L).
    { apply foldPath_length; [exact Hc|].
      intros x Hx. apply Hl. apply in_app_iff. now left. }
    assert (Lst : String.length (step_hash st) = L).
    { apply Hs. apply in_app_iff. right. now left. }
    destruct (node_facts p Hp) as (Fh & Fleaf & Fint).
    assert (Ein : stepInput c' st = nodeInput p).
    { apply J.
      - apply in_app_iff. left. apply in_app_iff. right. now left.
      - apply in_app_iff. right. unfold treeInputs. now apply in_map.
      - congruence. }
    assert (Lin : String.length (stepInput c' st) = 2 * L).
    { unfold stepInput. destruct (isLeft st); rewrite string_length_app; lia. }
    destruct (isLeaf p) eqn:Lp.
    { exfalso. apply (key_length (nodeInput p)); [now apply Fleaf | congruence]. }
    destruct (Fint eq_refl) as (l & rr & El & Er & En).
    assert (Hl' : In l (subnodes r)).
    { apply subnodes_trans with (p := p); [exact Hp|].
      apply subnodes_child. now left. }
    assert (Hrr : In rr (subnodes r)).
    { apply subnodes_trans with (p := p); [exact Hp|].
      apply subnodes_child. now right. }
    destruct (perfect_sub d r p perf Hp) as (dp & _ & _ & Pp).
    assert (child : exists c, In c (subnodes r) /\ hash c = c'
                              /\ MerkleTree.height p = S (MerkleTree.height c)).
    { rewrite En in Ein. unfold stepInput in Ein.
      destruct (isLeft st).
      - apply append_split in Ein;
          [|rewrite Lst; symmetry; now apply node_length].
        destruct Ein as [_ Ec]. exists rr. repeat split; auto.
        apply (perfect_child dp p rr Pp Lp). now right.
      - assert (String.length c' = String.length (hash l)).
        { rewrite Lc'. symmetry. now apply node_length. }
        apply append_split in Ein; [|assumption].
        destruct Ein as [Ec _]. exists l. repeat split; auto.
        apply (perfect_child dp p l Pp Lp). now left. }
    destruct child as (c & Hcn & Ehc & Hhc).
    destruct (IH cur c Hcn Hc) as (n & Hn & Ehn & Hhn).
    + intros s Hin. apply Hs. apply in_app_iff. now left.
    + intros x Hx. apply Hl. apply in_app_iff. now left.
    + eapply injectiveOn_incl; [|exact J].
      intros x Hx. apply in_app_iff in Hx. apply in_app_iff.
      destruct Hx as [Hx | Hx]; [left; apply in_app_iff; now left | now right].
    + now symmetry.
    + exists n. rewrite length_app. cbn [length]. repeat split; auto. lia.
Qed.
End Sound.

(** Soundness of verification against a built tree.  Assume the hash is
    injective on the strings that are hashed (building the tree and folding
    the proof) and gives them digests of one length [L], the hashes in the
    proof have that length, and no key has length [2 L].  Then a proof that
    verifies against the tree's root hash starts from the hash of a node of
    the tree, [length path] levels below the root; when the path has
    [treeHeight - 1] steps that node is a leaf: [leafHash] is the hash of a
    key of the list. *)
Theorem membership_sound keys this h t h' (proof : MembershipProof) (L : nat) :
  MerkleTree.buildTree keys (this, h) = Return tt (t, h') ->
  MerkleTree.verifyMembershipProof t proof = true ->
  rootHash proof = MerkleTree.getRootHash t ->
  String.length (leafHash proof) = L ->
  (forall st, In st (path proof) -> String.length (step_hash st) = L) ->
  (forall k, In k keys -> String.length k <> 2 * L) ->
  (forall x, In x (foldInputs (leafHash proof) (path proof)
                   ++ map nodeInput (treeNodes t)) ->
             String.length (sha256 x) = L) ->
  injectiveOn (foldInputs (leafHash proof) (path proof)
               ++ map nodeInput (treeNodes t)) ->
  let height := treeHeight (MerkleTree.getTreeStats (t, h')) in
  (exists n, In n (treeNodes t) /\ hash n = leafHash proof
             /\ MerkleTree.height n + length (path proof) = height)
  /\ (length (path proof) + 1 = height ->
      exists key, In key keys
                  /\ leafHash proof = CryptoUtils.generateUserId key).
Proof.
  intros E V Er Hc Hs Hk Hl J height.
  destruct (tree_nodes_facts keys this h t h' E) as (r & R & P & facts).
  unfold treeNodes in *. rewrite R in *.
  assert (Hheight : height = MerkleTree.height r).
  { unfold height. cbn. rewrite R. reflexivity. }
  assert (node_length : forall n, In n (subnodes r) -> String.length (hash n) = L).
  { intros n Hn. destruct (facts n Hn) as (Fh & _). rewrite Fh.
    apply Hl. apply in_app_iff. right. now apply in_map. }
  unfold MerkleTree.verifyMembershipProof in V. rewrite Er in V.
  unfold MerkleTree.getRootHash in V. rewrite R in V. cbn in V.
  apply String.eqb_eq in V.
  destruct (sound_path L keys r _ P facts Hk node_length (path proof)
              (leafHash proof) r (subnodes_self r) Hc Hs)
    as (n & Hn & Ehn & Hhn); auto.
  { intros x Hx. apply Hl. apply in_app_iff. now left. }
  split.
  - exists n. rewrite Hheight. auto.
  - intro Hlen. rewrite Hheight in Hlen.
    assert (Hn1 : MerkleTree.height n = 1) by lia.
    destruct (perfect_sub _ r n P Hn) as (dn & _ & Hpos & Pn).
    rewrite (perfect_height _ _ Pn) in Hn1. subst dn.
    destruct Pn as (Lf & _).
    destruct (facts n Hn) as (Fh & Fleaf & _).
    exists (nodeInput n). split; [now apply Fleaf|].
    now rewrite <- Ehn.
Qed.

(** *** Summaries used by the proof system *)

Lemma built_summary keys this h t h' :
  MerkleTree.buildTree keys (this, h) = Return tt (t, h') ->
  MerkleTree.getRootHash t = merkleRoot keys
  /\ MerkleTree.getRootHash t <> None
  /\ treeHeight (MerkleTree.getTreeStats (t, h')) = Nat.log2_up (length keys) + 1
  /\ stats_rootHash (MerkleTree.getTreeStats (t, h')) = MerkleTree.getRootHash t.
Proof.
  intro E.
  destruct (built_any keys this h t h' E) as (Hne & r & cr & BP & R & _).
  set (lv := mkLeaves (next_oid h) 0 keys) in *.
  assert (Llv : length lv = length keys) by apply mkLeaves_length.
  assert (Hlv : lv <> []).
  { intro E0. rewrite E0 in Llv. destruct keys; [congruence | discriminate]. }
  pose proof (buildPure_perfect _ _ lv r cr 0 Hlv
                (mkLeaves_perfect keys (next_oid h) 0) BP) as P.
  rewrite Llv in P.
  split; [|split; [|split]].
  - unfold MerkleTree.getRootHash, merkleRoot. rewrite R.
    apply buildPure_root_hash in BP. rewrite <- BP.
    f_equal. unfold lv. clear. generalize (next_oid h) 0.
    induction keys as [|k keys IH]; intros c i; cbn; [reflexivity|].
    f_equal. apply IH.
  - unfold MerkleTree.getRootHash. rewrite R. discriminate.
  - cbn. rewrite R. cbn. rewrite (perfect_height _ _ P). lia.
  - cbn. rewrite R. reflexivity.
Qed.

(** What [generateMembershipProof] can throw. *)
Lemma generate_throws fuel k st e st' :
  MerkleTree.generateMembershipProof fuel k st = Throw e st' ->
  e = Error "用户不在树中" \/ exists a, e = TypeError a.
Proof.
  destruct st as [this h]. unfold MerkleTree.generateMembershipProof.
  destruct (find _ _) as [leaf|]; [|intro E; injection E as <- _; now left].
  destruct (data leaf) as [d|]; [|intro E; injection E as <- _; right; eauto].
  destruct (MerkleTree.walk fuel this leaf []) as [p u | e' u |] eqn:W;
    try discriminate.
  intro E. injection E as <- _. right. exact (walk_throws _ _ _ _ _ _ W).
Qed.
End WithHost.
End MerkleFacts.

(** ** The proof system *)
Module ZKFacts.
Import ZKSpec.
Section WithHost.
Context `{Host}.

Lemma tryBlock_no_fault this p w :
  ZKProofSystem.try_fault (ZKProofSystem.tryBlock this p w) = None ->
  exists tree mp c r,
    merkleTree this = Some tree /\ membershipProof p = Some mp
    /\ commitment p = Some c /\ response p = Some r.
Proof.
  unfold ZKProofSystem.tryBlock, ZKProofSystem._verifyResponse.
  destruct (merkleTree this) as [tree|]; [|discriminate].
  destruct (membershipProof p) as [mp|]; [|discriminate].
  destruct (commitment p) as [c|]; [|discriminate].
  destruct (response p) as [r|]; [|discriminate].
  intros _. exists tree, mp, c, r. auto.
Qed.

Lemma verify_report this p w tree mp c r :
  merkleTree this = Some tree -> membershipProof p = Some mp ->
  commitment p = Some c -> response p = Some r ->
  ZKProofSystem.verifyZKProof (Some p) (this, w)
  = Return (reportOf (membershipCheck tree mp) (challengeCheck c mp p)
              (responseCheck c p r) (freshnessCheck p w))
      (this, snd (ZKProofSystem.Date_now w)).
Proof.
  intros Et Em Ec Er.
  unfold ZKProofSystem.verifyZKProof, ZKProofSystem.tryBlock,
    ZKProofSystem._verifyResponse, ZKProofSystem._verifyTimestamp.
  rewrite Et, Em, Ec, Er. cbn -[Z.mul Z.leb Z.sub String.eqb].
  fold (membershipCheck tree mp) (challengeCheck c mp p)
    (responseCheck c p r) (freshnessCheck p w).
  unfold reportOf.
  destruct (membershipCheck tree mp), (challengeCheck c mp p),
    (responseCheck c p r), (freshnessCheck p w); reflexivity.
Qed.

(** *** Before initialization *)

(** C4, amended: while no tree has been set up ([merkleTree] is [null]),
    [generateZKProof] throws the "not initialized" error and leaves the
    state as it was; [verifyZKProof] on a non-null bundle does not throw:
    it returns a report that is not valid and holds one failed step, the
    one the [catch] block writes, and leaves the state as it was. *)
Theorem before_initialization (this : ZKProofSystem) (w : World) :
  merkleTree this = None ->
  (forall fuel userIndex,
      ZKProofSystem.generateZKProof fuel userIndex (this, w)
      = Throw (Error notInitializedMessage) (this, w))
  /\ (forall p,
      ZKProofSystem.verifyZKProof (Some p) (this, w)
      = Return
          {| isValid := false;
             verificationSteps :=
               [ZKProofSystem.faultStep
                  (TypeError "this.merkleTree.verifyMembershipProof")];
             summary := {| totalSteps := 1; passedSteps := 0;
                           finalResult := "证明无效" |} |}
          (this, w)).
Proof.
  intro E. split.
  - intros fuel userIndex. unfold ZKProofSystem.generateZKProof.
    now rewrite E.
  - intro p. unfold ZKProofSystem.verifyZKProof, ZKProofSystem.tryBlock.
    now rewrite E.
Qed.

(** *** The report *)

(** C5: when the [try] block of [verifyZKProof] ends without a fault, the
    call returns a report with exactly the four steps membership,
    challenge, response, freshness, in this order; the result of each step
    is its own check, computed from the bundle whatever the other checks
    gave, and [isValid] is the conjunction of the four.  If the bundle
    passes steps 1 to 3 and only [response.hash] is then replaced by a
    different string, steps 1 and 2 are still reported true, step 3 is
    false and the report is not valid. *)
Theorem four_step_report (this : ZKProofSystem) (p : ProofBundle) (w : World) :
  ZKProofSystem.try_fault (ZKProofSystem.tryBlock this p w) = None ->
  exists tree mp c r,
    merkleTree this = Some tree /\ membershipProof p = Some mp
    /\ commitment p = Some c /\ response p = Some r
    /\ let r1 := membershipCheck tree mp in
       let r2 := challengeCheck c mp p in
       let r3 := responseCheck c p r in
       let r4 := freshnessCheck p w in
       exists report w',
         ZKProofSystem.verifyZKProof (Some p) (this, w) = Return report (this, w')
         /\ map step (verificationSteps report)
            = ["默克尔树成员证明验证"; "挑战值验证"; "响应一致性验证"; "时间戳验证"]
         /\ map result (verificationSteps report) = [r1; r2; r3; r4]
         /\ isValid report = r1 && r2 && r3 && r4
         /\ totalSteps (summary report) = 4
         /\ (r1 = true -> r2 = true -> r3 = true ->
             forall s, s <> response_hash r ->
               exists report',
                 ZKProofSystem.verifyZKProof (Some (setResponseHash s p)) (this, w)
                 = Return report' (this, w')
                 /\ map step (verificationSteps report')
                    = map step (verificationSteps report)
                 /\ map result (verificationSteps report')
                    = [true; true; false; r4]
                 /\ isValid report' = false).
Proof.
  intro NF.
  destruct (tryBlock_no_fault this p w NF) as (tree & mp & c & r & Et & Em & Ec & Er).
  exists tree, mp, c, r. repeat (split; [assumption|]).
  intros r1 r2 r3 r4.
  exists (reportOf r1 r2 r3 r4), (snd (ZKProofSystem.Date_now w)).
  split; [now apply verify_report|].
  repeat (split; [reflexivity|]).
  intros T1 T2 T3 s Hs.
  set (r' := {| response_hash := s; response_data := response_data r;
                response_timestamp := response_timestamp r |}).
  assert (Er' : response (setResponseHash s p) = Some r').
  { unfold setResponseHash. cbn. now rewrite Er. }
  exists (reportOf (membershipCheck tree mp)
            (challengeCheck c mp (setResponseHash s p))
            (responseCheck c (setResponseHash s p) r')
            (freshnessCheck (setResponseHash s p) w)).
  split; [now apply verify_report|].
  assert (E3 : responseCheck c (setResponseHash s p) r' = false).
  { unfold responseCheck. cbn [challenge setResponseHash response_hash r'].
    apply String.eqb_neq. intro E. apply Hs. rewrite <- E.
    unfold r3, responseCheck in T3. apply String.eqb_eq in T3. now symmetry. }
  rewrite E3.
  change (challengeCheck c mp (setResponseHash s p)) with r2.
  change (membershipCheck tree mp) with r1.
  change (freshnessCheck (setResponseHash s p) w) with r4.
  rewrite T1, T2. repeat split; reflexivity.
Qed.

(** *** Freshness *)

(** C7: step 4 passes exactly when the clock reading minus the bundle's
    timestamp is at most 5 minutes, in milliseconds; a timestamp one
    millisecond older than the window fails, one millisecond younger
    passes; and this is the result the report shows as its fourth step. *)
Theorem freshness_window (timestamp0 : Z) (w : World) :
  let now := dateNow (ticks w) in
  let window := (5 * 60 * 1000)%Z in
  (fst (ZKProofSystem._verifyTimestamp timestamp0 w) = true
   <-> (now - timestamp0 <= window)%Z)
  /\ fst (ZKProofSystem._verifyTimestamp (now - window - 1)%Z w) = false
  /\ fst (ZKProofSystem._verifyTimestamp (now - window + 1)%Z w) = true
  /\ (forall this p report st',
        ZKProofSystem.try_fault (ZKProofSystem.tryBlock this p w) = None ->
        ZKProofSystem.verifyZKProof (Some p) (this, w) = Return report st' ->
        nth_error (verificationSteps report) 3
        = Some (ZKProofSystem.timestampStep
                  (fst (ZKProofSystem._verifyTimestamp (timestamp p) w)))).
Proof.
  intros now window. unfold ZKProofSystem._verifyTimestamp. cbn [fst].
  change (dateNow (ticks w)) with now. change (5 * 60 * 1000)%Z with window.
  split; [apply Z.leb_le | split; [|split]].
  - apply Z.leb_gt. lia.
  - apply Z.leb_le. lia.
  - intros this p report st' NF E.
    destruct (tryBlock_no_fault this p w NF)
      as (tree & mp & c & r & Et & Em & Ec & Er).
    rewrite (verify_report this p w tree mp c r Et Em Ec Er) in E.
    injection E as <- _. reflexivity.
Qed.

(** *** Initialization *)

Lemma keyLoop_length n : forall i pks keys d,
  length (fst (fst (ZKProofSystem.keyLoop n i pks keys d))) = length pks + n.
Proof.
  induction n as [|n IH]; intros i pks keys d; cbn [ZKProofSystem.keyLoop].
  - cbn. lia.
  - unfold CryptoUtils.generatePublicKey. rewrite IH, length_app. cbn. lia.
Qed.

Lemma initialize_in_range z st :
  (2 <= z <= 32)%Z ->
  exists res st', ZKProofSystem.initializeSystem (Num z) st = Return res st'.
Proof.
  intros Hz. destruct st as [this w].
  unfold ZKProofSystem.initializeSystem, js_gt, js_lt.
  replace (z <? 2)%Z with false by (symmetry; apply Z.ltb_ge; lia).
  replace (32 <? z)%Z with false by (symmetry; apply Z.ltb_ge; lia).
  cbn [orb ZKProofSystem.iterations].
  pose proof (keyLoop_length (Z.to_nat z) 0%Z [] [] (draws w)) as L.
  destruct (ZKProofSystem.keyLoop (Z.to_nat z) 0 [] [] (draws w))
    as [[pks keys] d].
  cbn in L.
  assert (Hne : pks <> []).
  { intros ->. cbn in L. lia. }
  destruct (MerkleFacts.built_returns (heap w) pks Hne) as (t & h' & E).
  destruct (MerkleTree.constructor (heap w)) as [tree h1].
  rewrite E. eauto.
Qed.

(** What the code does on [NaN], which passes both comparisons of the
    guard: the identity map is cleared, a tree object is installed, and
    [buildTree] rejects the empty key list. *)
Lemma initialize_NaN this w :
  ZKProofSystem.initializeSystem NaN (this, w)
  = Throw (Error "公钥列表不能为空")
      ({| merkleTree := Some (fst (MerkleTree.constructor (heap w)));
          userKeys := [];
          currentProof := currentProof this |},
       ZKProofSystem.set_heap (ZKProofSystem.set_draws w (draws w))
         (snd (MerkleTree.constructor (heap w)))).
Proof. reflexivity. Qed.

(** C9: [initializeSystem(userCount)] throws the out-of-range error exactly
    when [userCount < 2] or [userCount > 32]; the state it leaves is then
    the state it was called on.  For every integer from 2 to 32 the call
    returns. *)
Theorem initialize_range (userCount : JsNumber) (st : ZKProofSystem.St) :
  let outOfRange := js_lt userCount (Num 2) || js_gt userCount (Num 32) in
  (outOfRange = true ->
     ZKProofSystem.initializeSystem userCount st
     = Throw (Error rangeMessage) st)
  /\ (outOfRange = false ->
      forall st', ZKProofSystem.initializeSystem userCount st
                  <> Throw (Error rangeMessage) st')
  /\ (forall z, userCount = Num z ->
        (outOfRange = true <-> (z < 2 \/ 32 < z)%Z)
        /\ ((2 <= z <= 32)%Z ->
            exists res st',
              ZKProofSystem.initializeSystem userCount st = Return res st')).
Proof.
  intro outOfRange.
  assert (range : forall z, userCount = Num z ->
            (outOfRange = true <-> (z < 2 \/ 32 < z)%Z)).
  { intros z ->. unfold outOfRange, js_gt, js_lt.
    rewrite orb_true_iff, !Z.ltb_lt. tauto. }
  split; [|split].
  - intro O. destruct st as [this w].
    unfold ZKProofSystem.initializeSystem. fold outOfRange. now rewrite O.
  - intros O st' E. destruct userCount as [z|].
    + destruct (initialize_in_range z st) as (res & st1 & E1).
      * destruct (Z_lt_dec z 2) as [L|L], (Z_lt_dec 32 z) as [G|G];
          try lia;
          assert (outOfRange = true) by (apply (range z eq_refl); lia);
          congruence.
      * congruence.
    + destruct st as [this w]. rewrite initialize_NaN in E.
      unfold rangeMessage in E. discriminate E.
  - intros z Ez. split; [now apply range|].
    intro Hz. subst userCount. now apply initialize_in_range.
Qed.

(** *** What initialization registers *)

Lemma userKeys_set_new (k : Z) (v : UserData) m :
  (forall e, In e m -> fst e <> k) ->
  map_set Z.eqb k v m = m ++ [(k, v)].
Proof.
  induction m as [|[k1 v1] m IH]; intro Hn; [reflexivity|].
  cbn. assert (k1 <> k) by (apply (Hn (k1, v1)); now left).
  replace (Z.eqb k1 k) with false by (symmetry; now apply Z.eqb_neq).
  rewrite IH; [reflexivity|]. intros e He. apply Hn. now right.
Qed.

Lemma keyLoop_spec n : forall a pks keys d,
  (forall e, In e keys -> (fst e < Z.of_nat a)%Z) ->
  ZKProofSystem.keyLoop n (Z.of_nat a) pks keys (d + a)
  = (pks ++ map (drawnKey d) (seq a n),
     keys ++ map (userEntry d) (seq a n),
     d + a + n).
Proof.
  induction n as [|n IH]; intros a pks keys d Hk; cbn [ZKProofSystem.keyLoop].
  - cbn. now rewrite !app_nil_r, Nat.add_0_r.
  - unfold CryptoUtils.generatePublicKey at 1.
    rewrite userKeys_set_new.
    2:{ intros e He. specialize (Hk e He). lia. }
    replace (Z.of_nat a + 1)%Z with (Z.of_nat (S a)) by lia.
    replace (S (d + a)) with (d + S a) by lia.
    rewrite IH.
    + cbn [seq map]. rewrite <- !app_assoc. cbn [app].
      replace (d + S a + n) with (d + a + S n) by lia. reflexivity.
    + intros e He. apply in_app_iff in He. destruct He as [He | [<- | []]].
      * specialize (Hk e He). lia.
      * cbn. lia.
Qed.

Lemma initialize_returns_range z st res st' :
  ZKProofSystem.initializeSystem (Num z) st = Return res st' -> (2 <= z <= 32)%Z.
Proof.
  destruct st as [this w]. intro I.
  unfold ZKProofSystem.initializeSystem, js_gt, js_lt in I.
  destruct (Z.ltb_spec z 2); [discriminate I|].
  destruct (Z.ltb_spec 32 z); [discriminate I|]. lia.
Qed.

Lemma initialize_spec z this w :
  (2 <= z <= 32)%Z ->
  let n := Z.to_nat z in
  exists tree h2,
    MerkleTree.buildTree (drawnKeys (draws w) n) (MerkleTree.constructor (heap w))
    = Return tt (tree, h2)
    /\ ZKProofSystem.initializeSystem (Num z) (this, w)
       = Return
           {| init_userCount := Num z;
              init_rootHash := MerkleTree.getRootHash tree;
              treeStats := MerkleTree.getTreeStats (tree, h2);
              users := map (userPreviewOf (draws w)) (seq 0 n) |}
           ({| merkleTree := Some tree;
               userKeys := map (userEntry (draws w)) (seq 0 n);
               currentProof := currentProof this |},
            {| heap := h2; draws := draws w + n; ticks := ticks w |}).
Proof.
  intros Hz n.
  unfold ZKProofSystem.initializeSystem, js_gt, js_lt.
  replace (z <? 2)%Z with false by (symmetry; apply Z.ltb_ge; lia).
  replace (32 <? z)%Z with false by (symmetry; apply Z.ltb_ge; lia).
  cbn [orb ZKProofSystem.iterations]. fold n.
  pose proof (keyLoop_spec n 0 [] [] (draws w)) as KL.
  rewrite !Nat.add_0_r in KL. cbn [Z.of_nat app] in KL.
  rewrite KL by (intros e []). clear KL.
  fold (drawnKeys (draws w) n).
  assert (Hne : drawnKeys (draws w) n <> []).
  { intro E0. apply (f_equal (@length _)) in E0.
    unfold drawnKeys in E0. rewrite length_map, length_seq in E0.
    cbn in E0. lia. }
  destruct (MerkleFacts.built_returns (heap w) _ Hne) as (t & h' & E).
  exists t, h'. split; [exact E|].
  destruct (MerkleTree.constructor (heap w)) as [tree h1].
  rewrite E. unfold ZKProofSystem.set_heap, ZKProofSystem.set_draws.
  cbn [heap draws ticks]. rewrite map_map. reflexivity.
Qed.

(** [initializeSystem(n)] for [n] from 2 to 32 discards the registry it had
    and registers the identities [0 .. n-1], each with a key from a random
    draw of its own; the tree is a new tree built from these keys in this
    order, so the root hash returned is the level-by-level hash of the key
    hashes and the height is [ceil(log2 n) + 1]; the result lists the [n]
    identities in order.  The clock is not read, and [currentProof] is left
    as it was: a bundle generated before stays in the system. *)
Theorem initialize_registers (z : Z) (this : ZKProofSystem) (w : World) :
  (2 <= z <= 32)%Z ->
  let n := Z.to_nat z in
  let keys := drawnKeys (draws w) n in
  exists res tree h2,
    ZKProofSystem.initializeSystem (Num z) (this, w)
    = Return res
        ({| merkleTree := Some tree;
            userKeys := map (userEntry (draws w)) (seq 0 n);
            currentProof := currentProof this |},
         {| heap := h2; draws := draws w + n; ticks := ticks w |})
    /\ MerkleTree.buildTree keys (MerkleTree.constructor (heap w))
       = Return tt (tree, h2)
    /\ init_userCount res = Num z
    /\ init_rootHash res = MerkleSpec.merkleRoot keys
    /\ init_rootHash res <> None
    /\ treeHeight (treeStats res) = Nat.log2_up n + 1
    /\ users res = map (userPreviewOf (draws w)) (seq 0 n).
Proof.
  intros Hz n keys.
  destruct (initialize_spec z this w Hz) as (tree & h2 & B & I).
  fold n in B, I. fold keys in B.
  destruct (MerkleTree.constructor (heap w)) as [t0 h1] eqn:C.
  destruct (MerkleFacts.built_summary keys t0 h1 tree h2 B)
    as (Rt & Rn & Ht & _).
  eexists _, tree, h2. split; [exact I|].
  cbn [init_userCount init_rootHash treeStats users].
  split; [exact B | split; [reflexivity | split; [exact Rt | split; [exact Rn|]]]].
  split; [|reflexivity].
  rewrite Ht. unfold keys, drawnKeys. now rewrite length_map, length_seq.
Qed.

(** *** Looking up an identity *)

Lemma map_get_entries d n : forall a z,
  map_get Z.eqb z (map (userEntry d) (seq a n))
  = if ((Z.of_nat a <=? z) && (z <? Z.of_nat (a + n)))%Z
    then Some (snd (userEntry d (Z.to_nat z))) else None.
Proof.
  induction n as [|n IH]; intros a z.
  - cbn [seq map map_get]. rewrite Nat.add_0_r.
    destruct (Z.leb_spec (Z.of_nat a) z), (Z.ltb_spec z (Z.of_nat a));
      try reflexivity; lia.
  - cbn [seq map map_get userEntry fst snd].
    destruct (Z.eqb_spec (Z.of_nat a) z) as [<- | Ne].
    + rewrite Nat2Z.id.
      replace (Z.of_nat a <=? Z.of_nat a)%Z with true
        by (symmetry; apply Z.leb_le; lia).
      replace (Z.of_nat a <? Z.of_nat (a + S n))%Z with true
        by (symmetry; apply Z.ltb_lt; lia).
      reflexivity.
    + fold (userEntry d). rewrite IH.
      replace (S a + n) with (a + S n) by lia.
      destruct (Z.leb_spec (Z.of_nat (S a)) z), (Z.leb_spec (Z.of_nat a) z);
        try reflexivity; try lia.
Qed.

Lemma userKeys_get_entries d n i :
  ZKProofSystem.userKeys_get i (map (userEntry d) (seq 0 n))
  = if registeredIndex n i
    then match i with
         | Num z => Some (snd (userEntry d (Z.to_nat z)))
         | NaN => None
         end
    else None.
Proof.
  destruct i as [z|]; [|reflexivity].
  unfold ZKProofSystem.userKeys_get, registeredIndex.
  now rewrite map_get_entries.
Qed.

(** *** What [generateZKProof] returns *)

Lemma generate_spec fuel i this w tree ud mp u :
  merkleTree this = Some tree ->
  ZKProofSystem.userKeys_get i (userKeys this) = Some ud ->
  MerkleTree.generateMembershipProof fuel (user_publicKey ud) (tree, heap w)
  = Return mp u ->
  let p := generatedBundle (user_publicKey ud) mp i w in
  let st' := ({| merkleTree := merkleTree this; userKeys := userKeys this;
                 currentProof := Some p |}, afterGenerate w) in
  ZKProofSystem.generateZKProof fuel i (this, w)
  = match rootHash mp with
    | None => Throw (TypeError "hash.substring") st'
    | Some root =>
        Return (p,
                {| commitmentHash :=
                     CryptoUtils.truncateHash
                       (sha256 (user_publicKey ud
                                ++ fst (CryptoUtils.generateSalt 32 (draws w)))%string) 8;
                   challengeHash := CryptoUtils.truncateHash (challenge p) 8;
                   responseHash :=
                     CryptoUtils.truncateHash
                       (sha256 (fst (CryptoUtils.generateSalt 32 (draws w))
                                ++ challenge p)%string) 8;
                   pathLength := length (path mp);
                   summary_rootHash := CryptoUtils.truncateHash root 8 |}) st'
    end.
Proof.
  intros Et Eu Em p st'. subst st' p.
  unfold ZKProofSystem.generateZKProof. rewrite Et, Eu, Em.
  reflexivity.
Qed.

Lemma generate_inv fuel i this w p s st' :
  ZKProofSystem.generateZKProof fuel i (this, w) = Return (p, s) st' ->
  exists tree ud mp u,
    merkleTree this = Some tree
    /\ ZKProofSystem.userKeys_get i (userKeys this) = Some ud
    /\ MerkleTree.generateMembershipProof fuel (user_publicKey ud) (tree, heap w)
       = Return mp u
    /\ p = generatedBundle (user_publicKey ud) mp i w
    /\ pathLength s = length (path mp)
    /\ st' = ({| merkleTree := merkleTree this; userKeys := userKeys this;
                 currentProof := Some p |}, afterGenerate w).
Proof.
  intro E.
  destruct (merkleTree this) as [tree|] eqn:Et.
  2:{ unfold ZKProofSystem.generateZKProof in E. rewrite Et in E. discriminate E. }
  destruct (ZKProofSystem.userKeys_get i (userKeys this)) as [ud|] eqn:Eu.
  2:{ unfold ZKProofSystem.generateZKProof in E. rewrite Et, Eu in E.
      discriminate E. }
  destruct (MerkleTree.generateMembershipProof fuel (user_publicKey ud)
              (tree, heap w)) as [mp u | e u |] eqn:Em.
  2,3: unfold ZKProofSystem.generateZKProof in E; rewrite Et, Eu, Em in E;
       discriminate E.
  rewrite (generate_spec fuel i this w tree ud mp u Et Eu Em) in E.
  rewrite Et in E.
  destruct (rootHash mp) as [root|]; [|discriminate E].
  injection E as <- <- <-.
  exists tree, ud, mp, u. auto 10.
Qed.

Lemma verify_generated this w tree pk mp i :
  merkleTree this = Some tree ->
  let p := generatedBundle pk mp i w in
  forall w1,
  ZKProofSystem.verifyZKProof (Some p) (this, w1)
  = Return (reportOf (membershipCheck tree mp) true true (freshnessCheck p w1))
      (this, snd (ZKProofSystem.Date_now w1)).
Proof.
  intros Et p w1.
  rewrite (verify_report this p w1 tree mp _ _ Et eq_refl eq_refl eq_refl).
  unfold challengeCheck, responseCheck, p, generatedBundle.
  cbn [challenge randomness response_hash].
  now rewrite !String.eqb_refl.
Qed.

(** A bundle that [generateZKProof] returned is stored as [currentProof];
    making it took one random draw and three readings of the clock and left
    the heap, the tree and the registry as they were; the bundle carries the
    index it was asked for.  When it is handed to [verifyZKProof] in the
    state [generateZKProof] left, the challenge and the response step pass,
    whatever the tree and the hash function are, so the report is valid
    exactly when the membership step and the freshness step pass; freshness
    compares the fourth reading of the clock with the third. *)
Theorem generate_then_verify fuel i this w p s this' w' :
  ZKProofSystem.generateZKProof fuel i (this, w) = Return (p, s) (this', w') ->
  exists tree mp,
    merkleTree this = Some tree
    /\ membershipProof p = Some mp
    /\ userIndex p = i
    /\ pathLength s = length (path mp)
    /\ this' = {| merkleTree := merkleTree this; userKeys := userKeys this;
                  currentProof := Some p |}
    /\ w' = {| heap := heap w; draws := S (draws w); ticks := 3 + ticks w |}
    /\ let fresh :=
         (dateNow (3 + ticks w) - dateNow (2 + ticks w) <=? 5 * 60 * 1000)%Z in
       ZKProofSystem.verifyZKProof (Some p) (this', w')
       = Return (reportOf (MerkleTree.verifyMembershipProof tree mp)
                   true true fresh)
           (this', {| heap := heap w; draws := S (draws w);
                      ticks := 4 + ticks w |}).
Proof.
  intro E.
  destruct (generate_inv fuel i this w p s (this', w') E)
    as (tree & ud & mp & u & Et & Eu & Em & Ep & Es & Est).
  injection Est as -> ->.
  exists tree, mp. subst p.
  split; [exact Et | split; [reflexivity | split; [reflexivity|]]].
  split; [exact Es | split; [reflexivity | split; [reflexivity|]]].
  intro fresh.
  pose proof (verify_generated
                {| merkleTree := merkleTree this; userKeys := userKeys this;
                   currentProof :=
                     Some (generatedBundle (user_publicKey ud) mp i w) |}
                w tree (user_publicKey ud) mp i Et) as V.
  cbv zeta in V. rewrite V. reflexivity.
Qed.

(** *** Identities that are not registered *)

(** In a system that [initializeSystem(n)] set up, [generateZKProof(i)]
    throws the "no such user" error exactly when [i] is not one of
    [0 .. n-1] ([NaN] included); the state is then left as it was. *)
Theorem generate_unknown_user z this w res this1 w1 (i : JsNumber) (fuel : nat) :
  ZKProofSystem.initializeSystem (Num z) (this, w) = Return res (this1, w1) ->
  (registeredIndex (Z.to_nat z) i = false
   <-> ZKProofSystem.generateZKProof fuel i (this1, w1)
       = Throw (Error "用户不存在") (this1, w1))
  /\ (registeredIndex (Z.to_nat z) i = false
      <-> exists st, ZKProofSystem.generateZKProof fuel i (this1, w1)
                     = Throw (Error "用户不存在") st).
Proof.
  intro I.
  pose proof (initialize_returns_range z _ _ _ I) as Hz.
  destruct (initialize_spec z this w Hz) as (tree & h2 & B & I').
  rewrite I' in I. injection I as _ <- <-.
  set (this1 := {| merkleTree := Some tree; userKeys := _; currentProof := _ |}).
  set (w1 := {| heap := h2; draws := _; ticks := _ |}).
  assert (get : ZKProofSystem.userKeys_get i (userKeys this1)
                = if registeredIndex (Z.to_nat z) i
                  then match i with
                       | Num x => Some (snd (userEntry (draws w) (Z.to_nat x)))
                       | NaN => None
                       end
                  else None) by apply userKeys_get_entries.
  assert (fwd : registeredIndex (Z.to_nat z) i = false ->
                ZKProofSystem.generateZKProof fuel i (this1, w1)
                = Throw (Error "用户不存在") (this1, w1)).
  { intro R. rewrite R in get. unfold ZKProofSystem.generateZKProof.
    cbn [merkleTree this1]. fold this1. now rewrite get. }
  assert (bwd : forall st, ZKProofSystem.generateZKProof fuel i (this1, w1)
                           = Throw (Error "用户不存在") st ->
                registeredIndex (Z.to_nat z) i = false).
  { intros st T.
    destruct (registeredIndex (Z.to_nat z) i) eqn:R; [exfalso | reflexivity].
    destruct i as [x|]; [|discriminate R].
    set (ud := snd (userEntry (draws w) (Z.to_nat x))) in *.
    destruct (MerkleTree.generateMembershipProof fuel (user_publicKey ud)
                (tree, heap w1)) as [mp u | e u |] eqn:Em.
    - rewrite (generate_spec fuel (Num x) this1 w1 tree ud mp u eq_refl get Em)
        in T.
      destruct (rootHash mp); discriminate T.
    - unfold ZKProofSystem.generateZKProof in T.
      cbn [merkleTree this1] in T. fold this1 in T. rewrite get, Em in T.
      injection T as -> _.
      destruct (MerkleFacts.generate_throws _ _ _ _ _ Em) as [Ee | (a & Ee)];
        discriminate Ee.
    - unfold ZKProofSystem.generateZKProof in T.
      cbn [merkleTree this1] in T. fold this1 in T. rewrite get, Em in T.
      discriminate T. }
  split; split; auto.
  - intro T. now apply (bwd (this1, w1)).
  - intro R. eexists. now apply fwd.
  - intros (st & T). now apply (bwd st).
Qed.

(** *** From initialization to a valid report *)

(** In a system that [initializeSystem(n)] set up, [generateZKProof(i)]
    returns a bundle for every [i] from [0] to [n-1] (its loop ends within
    as many rounds as the build made nodes); the path of its membership
    proof has at most [ceil(log2 n)] steps.  If no two internal nodes of the
    tree share a hash and the clock moved by at most five minutes between
    the stamping of the bundle and its verification, [verifyZKProof] reports
    it valid with four steps passed. *)
Theorem initialized_round_trip z this w res this1 w1 (i : Z) (fuel : nat) :
  ZKProofSystem.initializeSystem (Num z) (this, w) = Return res (this1, w1) ->
  (0 <= i < z)%Z ->
  next_oid (heap w1) - next_oid (heap w) < fuel ->
  exists tree p s this2 w2,
    merkleTree this1 = Some tree
    /\ ZKProofSystem.generateZKProof fuel (Num i) (this1, w1)
       = Return (p, s) (this2, w2)
    /\ currentProof this2 = Some p
    /\ pathLength s <= Nat.log2_up (Z.to_nat z)
    /\ (MerkleSpec.collisionFree tree = true ->
        (dateNow (3 + ticks w1) - dateNow (2 + ticks w1) <= 5 * 60 * 1000)%Z ->
        exists report st3,
          ZKProofSystem.verifyZKProof (Some p) (this2, w2) = Return report st3
          /\ isValid report = true
          /\ passedSteps (summary report) = 4
          /\ pathLength s = Nat.log2_up (Z.to_nat z)).
Proof.
  intros I Hi Hf.
  pose proof (initialize_returns_range z _ _ _ I) as Hz.
  destruct (initialize_spec z this w Hz) as (tree & h2 & B & I').
  rewrite I' in I. injection I as _ <- <-. cbn [heap] in Hf.
  set (n := Z.to_nat z) in *.
  set (d := draws w) in *.
  set (this1 := {| merkleTree := Some tree; userKeys := _; currentProof := _ |}).
  set (w1 := {| heap := h2; draws := _; ticks := _ |}).
  set (j := Z.to_nat i).
  set (ud := snd (userEntry d j)).
  assert (get : ZKProofSystem.userKeys_get (Num i) (userKeys this1) = Some ud).
  { unfold this1. cbn [userKeys]. rewrite userKeys_get_entries.
    unfold registeredIndex.
    replace (0 <=? i)%Z with true by (symmetry; apply Z.leb_le; lia).
    replace (i <? Z.of_nat n)%Z with true by (symmetry; apply Z.ltb_lt; lia).
    reflexivity. }
  assert (Hk : In (user_publicKey ud) (drawnKeys d n)).
  { unfold ud, userEntry, drawnKeys. cbn [snd user_publicKey].
    apply in_map. apply in_seq. lia. }
  assert (Ln : length (drawnKeys d n) = n).
  { unfold drawnKeys. now rewrite length_map, length_seq. }
  destruct (MerkleTree.constructor (heap w)) as [t0 h1] eqn:C.
  assert (O1 : next_oid h1 = next_oid (heap w)).
  { unfold MerkleTree.constructor, new_array in C. injection C as _ <-.
    reflexivity. }
  assert (B' : MerkleTree.buildTree (drawnKeys d n)
                 (MerkleTree.constructor (heap w)) = Return tt (tree, h2))
    by (now rewrite C).
  destruct (MerkleFacts.generated_proof_facts (heap w) _ tree h2 _ B' Hk)
    as (mp & key & G & _ & Rm & _ & _ & _ & _ & Le & Eq).
  destruct (MerkleFacts.built_summary _ t0 h1 tree h2 B)
    as (_ & Rn & Ht & _).
  rewrite Ht, Ln in Le, Eq.
  specialize (G fuel Hf).
  destruct (rootHash mp) as [rt|] eqn:Er; [|congruence].
  pose proof (generate_spec fuel (Num i) this1 w1 tree ud mp _ eq_refl get G)
    as GS.
  cbv zeta in GS. rewrite Er in GS.
  eexists tree, _, _, _, _.
  split; [reflexivity | split; [exact GS | split; [reflexivity|]]].
  cbn [pathLength]. split; [lia|].
  intros CF Fresh. destruct (Eq CF) as (Len & Vm).
  pose proof (verify_generated
                {| merkleTree := merkleTree this1; userKeys := userKeys this1;
                   currentProof :=
                     Some (generatedBundle (user_publicKey ud) mp (Num i) w1) |}
                w1 tree (user_publicKey ud) mp (Num i) eq_refl) as V.
  cbv zeta in V. rewrite V.
  eexists _, _. split; [reflexivity|].
  unfold membershipCheck. rewrite Vm.
  unfold freshnessCheck, afterGenerate. cbn [ticks timestamp generatedBundle].
  replace (_ <=? _)%Z with true by (symmetry; apply Z.leb_le; exact Fresh).
  cbn. repeat split. lia.
Qed.

(** *** What the verifier consults *)

(** [verifyZKProof] uses the system only to find out that a tree object is
    there: two systems that have one, whatever their trees and registries,
    give the same report for the same bundle at the same clock. *)
Theorem verdict_ignores_registry this1 this2 tree1 tree2 (p : ProofBundle) w :
  merkleTree this1 = Some tree1 ->
  merkleTree this2 = Some tree2 ->
  exists report w',
    ZKProofSystem.verifyZKProof (Some p) (this1, w) = Return report (this1, w')
    /\ ZKProofSystem.verifyZKProof (Some p) (this2, w) = Return report (this2, w').
Proof.
  intros E1 E2.
  unfold ZKProofSystem.verifyZKProof, ZKProofSystem.tryBlock.
  rewrite E1, E2.
  destruct (membershipProof p) as [mp|]; [|eauto].
  change (MerkleTree.verifyMembershipProof tree2 mp)
    with (MerkleTree.verifyMembershipProof tree1 mp).
  destruct (commitment p) as [c|]; [|eauto].
  destruct (ZKProofSystem._verifyResponse c (challenge p) (response p));
    [eauto|].
  destruct (ZKProofSystem._verifyTimestamp (timestamp p) w). eauto.
Qed.

(** A bundle made from four freely chosen strings and a time within the
    window is reported valid, with four steps passed, by every system that
    has a tree object: no key and no hash of the tree goes into it. *)
Theorem keyless_bundle_verifies this tree w (h commitmentHash rnd : string)
    (ts : Z) (i : JsNumber) :
  merkleTree this = Some tree ->
  (dateNow (ticks w) - ts <= 5 * 60 * 1000)%Z ->
  exists report w',
    ZKProofSystem.verifyZKProof (Some (keylessBundle h commitmentHash rnd ts i))
      (this, w)
    = Return report (this, w')
    /\ isValid report = true
    /\ map result (verificationSteps report) = [true; true; true; true]
    /\ passedSteps (summary report) = 4.
Proof.
  intros Et Fresh.
  rewrite (verify_report this (keylessBundle h commitmentHash rnd ts i) w tree
             _ _ _ Et eq_refl eq_refl eq_refl).
  eexists _, _. split; [reflexivity|].
  unfold membershipCheck, challengeCheck, responseCheck, freshnessCheck,
    MerkleTree.verifyMembershipProof, keylessBundle.
  cbn [challenge randomness response_hash timestamp path leafHash rootHash
       MerkleTree.foldPath].
  rewrite !String.eqb_refl.
  replace (_ <=? _)%Z with true by (symmetry; apply Z.leb_le; exact Fresh).
  cbn. rewrite !String.eqb_refl. auto.
Qed.

(** *** The status report *)

(** After [initializeSystem(n)] returned, [getSystemStatus()] reports an
    initialized system with [n] users, height [ceil(log2 n) + 1], the
    shortened root hash of the result, and a current proof exactly when the
    system held one before the call; after [reset()] it reports "not
    initialized", and [generateZKProof] throws that as its error. *)
Theorem status_after_initialize z this w res this1 w1 :
  ZKProofSystem.initializeSystem (Num z) (this, w) = Return res (this1, w1) ->
  exists root total,
    init_rootHash res = Some root
    /\ ZKProofSystem.getSystemStatus (this1, w1)
       = inr (Initialized (Z.to_nat z) (CryptoUtils.truncateHash root 8)
                (Nat.log2_up (Z.to_nat z) + 1) total
                (match currentProof this with Some _ => true | None => false end))
    /\ total = totalNodes (treeStats res)
    /\ ZKProofSystem.getSystemStatus (ZKProofSystem.reset (this1, w1))
       = inr (NotInitialized notInitializedMessage)
    /\ forall fuel i,
         ZKProofSystem.generateZKProof fuel i (ZKProofSystem.reset (this1, w1))
         = Throw (Error notInitializedMessage) (ZKProofSystem.reset (this1, w1)).
Proof.
  intro I.
  pose proof (initialize_returns_range z _ _ _ I) as Hz.
  destruct (initialize_spec z this w Hz) as (tree & h2 & B & I').
  rewrite I' in I. injection I as <- <- <-.
  destruct (MerkleTree.constructor (heap w)) as [t0 h1] eqn:C.
  destruct (MerkleFacts.built_summary _ t0 h1 tree h2 B)
    as (_ & Rn & Ht & Hr).
  assert (exists root, MerkleTree.getRootHash tree = Some root) as (root & Er).
  { destruct (MerkleTree.getRootHash tree); [eauto | congruence]. }
  exists root, (totalNodes (MerkleTree.getTreeStats (tree, h2))).
  cbn [init_rootHash treeStats].
  split; [exact Er | split; [|split; [reflexivity | split; reflexivity]]].
  unfold ZKProofSystem.getSystemStatus. cbn [merkleTree heap userKeys currentProof].
  rewrite Hr, Er, Ht. unfold map_size, drawnKeys.
  now rewrite !length_map, !length_seq.
Qed.

(** [initializeSystem(NaN)] passes the range guard and fails in
    [buildTree]; by then the registry is cleared and a tree object without a
    root is installed.  In the state it leaves, [getSystemStatus()] raises a
    [TypeError] (it shortens a [null] root hash), [generateZKProof] throws
    "no such user" rather than "not initialized", and [verifyZKProof] runs
    its four steps. *)
Theorem status_after_failed_initialize this w :
  exists st',
    ZKProofSystem.initializeSystem NaN (this, w)
    = Throw (Error "公钥列表不能为空") st'
    /\ userKeys (fst st') = []
    /\ currentProof (fst st') = currentProof this
    /\ ZKProofSystem.getSystemStatus st' = inl (TypeError "hash.substring")
    /\ (forall fuel i,
          ZKProofSystem.generateZKProof fuel i st'
          = Throw (Error "用户不存在") st')
    /\ (forall p mp c r,
          membershipProof p = Some mp -> commitment p = Some c ->
          response p = Some r ->
          exists report st'',
            ZKProofSystem.verifyZKProof (Some p) st' = Return report st''
            /\ totalSteps (summary report) = 4).
Proof.
  eexists. split; [apply initialize_NaN|].
  cbn [fst userKeys currentProof].
  split; [reflexivity | split; [reflexivity | split; [reflexivity | split]]].
  - intros fuel i. unfold ZKProofSystem.generateZKProof. cbn [merkleTree userKeys].
    destruct i; reflexivity.
  - intros p mp c r Em Ec Er.
    erewrite verify_report by (try reflexivity; eassumption).
    eexists _, _. split; reflexivity.
Qed.
End WithHost.
End ZKFacts.

(** * Worked examples

    Runs of the model on concrete inputs, with the bracketing hash
    [toyHost]. *)
Module Examples.
Import MerkleSpec ZKSpec Demo.

(** [buildTree] returns on [abc] and on [aaa]. *)
Lemma built_abc :
  MerkleTree.buildTree abc (MerkleTree.constructor empty_heap)
  = Return tt (fst (built abc), snd (built abc)).
Proof. vm_compute. reflexivity. Qed.

Lemma built_aaa :
  MerkleTree.buildTree aaa (MerkleTree.constructor empty_heap)
  = Return tt (fst (built aaa), snd (built aaa)).
Proof. vm_compute. reflexivity. Qed.

(** The bracketing hash is injective. *)
Lemma toy_injective (x y : string) : sha256 x = sha256 y -> x = y.
Proof.
  cbn. intro E. injection E as E. now apply append_inv_tail in E.
Qed.

(** The round trip on the tree of [abc], for the key ["b"]. *)
Lemma membership_roundtrip_witness :
  In "b" abc
  /\ collisionFree (fst (built abc)) = true
  /\ exists proof,
       MerkleTree.verifyMembershipProof (fst (built abc)) proof = true
       /\ forall fuel, next_oid (snd (built abc)) - next_oid empty_heap < fuel ->
            MerkleTree.generateMembershipProof fuel "b"
              (fst (built abc), snd (built abc))
            = Return proof (fst (built abc), snd (built abc)).
Proof.
  assert (Hin : In "b" abc) by (cbn; auto).
  assert (CF : collisionFree (fst (built abc)) = true) by (vm_compute; reflexivity).
  split; [exact Hin | split; [exact CF|]].
  exact (MerkleFacts.membership_roundtrip empty_heap abc "b" _ _ built_abc Hin CF).
Defined.

(** Without the condition on internal hashes the round trip fails: in the
    tree of [aaa] both parents have the same hash, the index keeps the second
    one only, the walk from the first leaf finds no parent, and the proof
    with the empty path is rejected. *)
Lemma roundtrip_fails_on_repeated_keys :
  ~ (forall (H : Host) h keys k t h',
       MerkleTree.buildTree keys (MerkleTree.constructor h) = Return tt (t, h') ->
       In k keys ->
       exists proof,
         MerkleTree.verifyMembershipProof t proof = true
         /\ forall fuel, next_oid h' - next_oid h < fuel ->
              MerkleTree.generateMembershipProof fuel k (t, h')
              = Return proof (t, h')).
Proof.
  intro C.
  destruct (C toyHost empty_heap aaa "a" _ _ built_aaa (or_introl eq_refl))
    as (proof & V & G).
  assert (F : next_oid (snd (built aaa)) - next_oid empty_heap < 10)
    by (vm_compute; lia).
  specialize (G 10 F). vm_compute in G. injection G as <-.
  vm_compute in V. discriminate V.
Qed.

(** The three-key example on [abc]: the path generated for ["b"]. *)
Lemma three_key_example_witness :
  let L0 := CryptoUtils.generateUserId "a" in
  let L1 := CryptoUtils.generateUserId "b" in
  let L2 := CryptoUtils.generateUserId "c" in
  let P0 := CryptoUtils.combineHashes L0 L1 in
  let P1 := CryptoUtils.combineHashes L2 L2 in
  let R := CryptoUtils.combineHashes P0 P1 in
  L0 <> L1 /\ P0 <> P1 /\ P0 <> R
  /\ MerkleTree.generateMembershipProof 3 "b" (fst (built abc), snd (built abc))
     = Return proof_b (fst (built abc), snd (built abc))
  /\ MerkleTree.verifyMembershipProof (fst (built abc)) proof_b = true.
Proof.
  intros L0 L1 L2 P0 P1 R.
  assert (N1 : L0 <> L1) by (vm_compute; discriminate).
  assert (N2 : P0 <> P1) by (vm_compute; discriminate).
  assert (N3 : P0 <> R) by (vm_compute; discriminate).
  split; [exact N1 | split; [exact N2 | split; [exact N3|]]].
  destruct (MerkleFacts.three_key_example empty_heap "a" "b" "c" _ _ built_abc)
    as (_ & _ & _ & G).
  exact (G N1 N2 N3 3 (le_n 3)).
Defined.

(** The path of the three-key example is not what is generated when the
    three keys are equal: the proof then has an empty path. *)
Lemma three_key_path_fails_on_repeated_keys :
  ~ (forall (H : Host) h k0 k1 k2 t h' fuel,
       MerkleTree.buildTree [k0; k1; k2] (MerkleTree.constructor h)
       = Return tt (t, h') ->
       2 < fuel ->
       let L0 := CryptoUtils.generateUserId k0 in
       let L1 := CryptoUtils.generateUserId k1 in
       let L2 := CryptoUtils.generateUserId k2 in
       let P0 := CryptoUtils.combineHashes L0 L1 in
       let P1 := CryptoUtils.combineHashes L2 L2 in
       let R := CryptoUtils.combineHashes P0 P1 in
       MerkleTree.generateMembershipProof fuel k1 (t, h')
       = Return {| leafHash := L1; leafIndex := 1;
                   path := [ {| step_hash := L0; isLeft := true; level := 0 |};
                             {| step_hash := P1; isLeft := false; level := 1 |} ];
                   rootHash := Some R |} (t, h')).
Proof.
  intro C.
  pose proof (C toyHost empty_heap "a" "a" "a" _ _ 3 built_aaa (le_n 3)) as G.
  vm_compute in G. discriminate G.
Qed.

(** After building from the three keys of [abc] the leaf array has four
    entries, the last two being the same leaf, and [leafNodes] is 4. *)
Lemma leaves_after_build_witness :
  length (arrays (snd (built abc)) (leaves (fst (built abc)))) = 4
  /\ leafNodes (MerkleTree.getTreeStats (fst (built abc), snd (built abc))) = 4
  /\ nth_error (arrays (snd (built abc)) (leaves (fst (built abc)))) 3
     = nth_error (arrays (snd (built abc)) (leaves (fst (built abc)))) 2.
Proof.
  destruct (MerkleFacts.leaves_after_build empty_heap abc _ _ built_abc)
    as (_ & Len & Stat & Extra).
  split; [exact Len | split; [exact Stat | exact (Extra eq_refl)]].
Defined.

(** The tree of [abc] has height 3. *)
Lemma tree_height_witness :
  treeHeight (MerkleTree.getTreeStats (fst (built abc), snd (built abc))) = 3.
Proof.
  destruct (MerkleFacts.tree_height empty_heap abc _ _ built_abc)
    as (_ & _ & Hh & _).
  exact Hh.
Defined.

(** Tampering with [proof_b]: another sibling hash at step 1, one character
    changed in the sibling hash of step 0, another root hash. *)
Lemma tamper_sensitivity_witness :
  MerkleTree.verifyMembershipProof (fst (built abc)) proof_b = true
  /\ MerkleTree.verifyMembershipProof (fst (built abc))
       (tamperSibling 1 "<<c><d>>" proof_b) = false
  /\ MerkleTree.verifyMembershipProof (fst (built abc))
       (tamperSibling 0 (changeChar 1 "x" "<a>") proof_b) = false
  /\ MerkleTree.verifyMembershipProof (fst (built abc))
       (withRootHash (Some "<<<a><c>><<b><b>>>") proof_b) = false.
Proof.
  assert (V : MerkleTree.verifyMembershipProof (fst (built abc)) proof_b = true)
    by (vm_compute; reflexivity).
  destruct (MerkleFacts.tamper_sensitivity (fst (built abc)) proof_b V)
    as (S1 & S2 & S3).
  split; [exact V | split; [|split]].
  - apply (S1 1 {| step_hash := "<<c><c>>"; isLeft := false; level := 1 |}).
    + reflexivity.
    + cbn. discriminate.
    + intros x y _ _. apply toy_injective.
  - apply (S2 0 {| step_hash := "<a>"; isLeft := true; level := 0 |} 1
             "x"%char "a"%char).
    + reflexivity.
    + reflexivity.
    + discriminate.
    + intros x y _ _. apply toy_injective.
  - apply S3. cbn. discriminate.
Defined.

(** On a new [ZKProofSystem]: [generateZKProof] throws, [verifyZKProof]
    returns an invalid report. *)
Lemma before_initialization_witness :
  merkleTree ZKProofSystem.constructor = None
  /\ ZKProofSystem.generateZKProof 10 (Num 0) (ZKProofSystem.constructor, world0)
     = Throw (Error notInitializedMessage) (ZKProofSystem.constructor, world0)
  /\ isValid
       match ZKProofSystem.verifyZKProof (Some bundle1)
               (ZKProofSystem.constructor, world0) with
       | Return report _ => report
       | _ => reportOf true true true true
       end = false.
Proof.
  destruct (ZKFacts.before_initialization ZKProofSystem.constructor world0 eq_refl)
    as (G & V).
  split; [reflexivity | split; [apply G|]].
  rewrite (V bundle1). reflexivity.
Defined.

(** [verifyZKProof] does not throw on a new [ZKProofSystem]. *)
Lemma verify_does_not_throw_before_initialization :
  ~ (forall (H : Host) this w p,
       merkleTree this = None ->
       exists e st, ZKProofSystem.verifyZKProof (Some p) (this, w) = Throw e st).
Proof.
  intro C.
  destruct (C toyHost ZKProofSystem.constructor world0 bundle1 eq_refl)
    as (e & st & E).
  vm_compute in E. discriminate E.
Qed.

(** The report on [bundle1], and on [bundle1] with its response hash
    replaced. *)
Lemma four_step_report_witness :
  ZKProofSystem.try_fault
    (ZKProofSystem.tryBlock (fst system3) bundle1 (snd system3)) = None
  /\ exists report w',
       ZKProofSystem.verifyZKProof (Some bundle1) system3
       = Return report (fst system3, w')
       /\ map result (verificationSteps report)
          = [true; true; true;
             freshnessCheck bundle1 (snd system3)]
       /\ isValid report = true
       /\ exists report',
            ZKProofSystem.verifyZKProof (Some (setResponseHash "tampered" bundle1))
              system3
            = Return report' (fst system3, w')
            /\ map result (verificationSteps report')
               = [true; true; false; freshnessCheck bundle1 (snd system3)]
            /\ isValid report' = false.
Proof.
  assert (NF : ZKProofSystem.try_fault
                 (ZKProofSystem.tryBlock (fst system3) bundle1 (snd system3))
               = None) by (vm_compute; reflexivity).
  split; [exact NF|].
  destruct (ZKFacts.four_step_report (fst system3) bundle1 (snd system3) NF)
    as (tree & mp & c & r & Et & Em & Ec & Er & report & w' & E & _ & Res & Val
        & _ & Tamper).
  vm_compute in Et, Em, Ec, Er.
  injection Et as <-. injection Em as <-. injection Ec as <-. injection Er as <-.
  set (r1 := membershipCheck _ _) in *.
  set (r2 := challengeCheck _ _ _) in *.
  set (r3 := responseCheck _ _ _) in *.
  assert (T1 : r1 = true) by (vm_compute; reflexivity).
  assert (T2 : r2 = true) by (vm_compute; reflexivity).
  assert (T3 : r3 = true) by (vm_compute; reflexivity).
  assert (T4 : freshnessCheck bundle1 (snd system3) = true)
    by (vm_compute; reflexivity).
  destruct (Tamper T1 T2 T3 "tampered") as (report' & E' & _ & Res' & Val').
  { vm_compute. discriminate. }
  rewrite T1, T2, T3 in Res. rewrite T1, T2, T3, T4 in Val.
  exists report, w'.
  split; [exact E | split; [exact Res | split; [exact Val|]]].
  exists report'. split; [exact E' | split; [exact Res' | exact Val']].
Defined.

(** With the clock at 1000000: timestamps just outside, just inside and on
    the edge of the window. *)
Lemma freshness_window_witness :
  fst (ZKProofSystem._verifyTimestamp 699999 world0) = false
  /\ fst (ZKProofSystem._verifyTimestamp 700001 world0) = true
  /\ (fst (ZKProofSystem._verifyTimestamp 700000 world0) = true
      <-> (1000000 - 700000 <= 300000)%Z).
Proof.
  destruct (ZKFacts.freshness_window 700000 world0) as (Iff & Old & Young & _).
  split; [exact Old | split; [exact Young | exact Iff]].
Defined.

(** [initializeSystem] on 1, 33 and 2. *)
Lemma initialize_range_witness :
  ZKProofSystem.initializeSystem (Num 1) system3
  = Throw (Error rangeMessage) system3
  /\ ZKProofSystem.initializeSystem (Num 33) system3
     = Throw (Error rangeMessage) system3
  /\ exists res st',
       ZKProofSystem.initializeSystem (Num 2) system3 = Return res st'.
Proof.
  split; [|split].
  - destruct (ZKFacts.initialize_range (Num 1) system3) as (T & _). now apply T.
  - destruct (ZKFacts.initialize_range (Num 33) system3) as (T & _). now apply T.
  - destruct (ZKFacts.initialize_range (Num 2) system3) as (_ & _ & R).
    destruct (R 2%Z eq_refl) as (_ & Ret). apply Ret. lia.
Defined.

(** ** Formatting *)


(** Thirty-two bytes render to a string that [isValidHash] accepts. *)
Lemma toHex_valid_witness :
  CryptoUtils.isValidHash (CryptoUtils.toHex (repeat Byte.x0a 32)) = true.
Proof.
  apply (proj2 (proj2 (CryptoFacts.toHex_valid (repeat Byte.x0a 32)))).
  reflexivity.
Defined.

Lemma toHex_injective_witness :
  CryptoUtils.toHex [Byte.x0a; Byte.xff] = "0aff"
  /\ [Byte.x0a; Byte.xff] = [Byte.x0a; Byte.xff].
Proof.
  split; [reflexivity|].
  apply (CryptoFacts.toHex_injective [Byte.x0a; Byte.xff] [Byte.x0a; Byte.xff]).
  reflexivity.
Defined.

(** ** The tree *)

Lemma built_de_abc :
  MerkleTree.buildTree abc (fst (built de), snd (built de))
  = Return tt (fst (rebuilt de abc), snd (rebuilt de abc)).
Proof. vm_compute. reflexivity. Qed.

Lemma built_abc_de :
  MerkleTree.buildTree de (fst (built abc), snd (built abc))
  = Return tt (fst (rebuilt abc de), snd (rebuilt abc de)).
Proof. vm_compute. reflexivity. Qed.

(** No key, an error; three keys, a root. *)
Lemma buildTree_returns_iff_witness :
  MerkleTree.buildTree [] fresh = Throw (Error "公钥列表不能为空") fresh
  /\ exists t h', MerkleTree.buildTree abc (built de) = Return tt (t, h')
                  /\ MerkleTree.getRootHash t <> None.
Proof.
  split.
  - apply (proj1 (MerkleFacts.buildTree_returns_iff [] fresh)). reflexivity.
  - apply (proj2 (MerkleFacts.buildTree_returns_iff abc (built de))). discriminate.
Defined.

(** Building from [de] on the tree of [abc]: the hashes of [abc] stay in
    the index. *)
Lemma rebuild_keeps_index_witness :
  In "<a>" (map fst (nodes (fst (rebuilt abc de))))
  /\ 6 <= totalNodes (MerkleTree.getTreeStats
                        (fst (rebuilt abc de), snd (rebuilt abc de))).
Proof.
  destruct (MerkleFacts.rebuild_keeps_index de _ _ _ _ built_abc_de) as (K & S).
  split.
  - apply K. vm_compute. auto.
  - exact S.
Defined.

(** The tree of [abc] has the same root hash whether it is built on a new
    tree or on the tree of [de]. *)
Lemma root_hash_of_keys_witness :
  MerkleTree.getRootHash (fst (rebuilt de abc)) = merkleRoot abc
  /\ MerkleTree.getRootHash (fst (built abc))
     = MerkleTree.getRootHash (fst (rebuilt de abc)).
Proof.
  destruct (MerkleFacts.root_hash_of_keys abc _ _ _ _ built_de_abc) as (R & Same).
  split; [exact R|].
  exact (Same _ _ _ _ built_abc).
Defined.

(** Three keys: seven lines. *)
Lemma visualization_lines_witness :
  length (MerkleTree.visualizationLines (fst (built abc))) = 7.
Proof.
  destruct (MerkleFacts.visualization_lines abc _ _ _ _ built_abc) as (L & Hh & _).
  rewrite L, Hh. reflexivity.
Defined.

Lemma leaf_nodes_round_trip_witness :
  exists infos,
    MerkleTree.getLeafNodes (fst (built abc), snd (built abc))
    = Return infos (fst (built abc), snd (built abc))
    /\ map info_publicKey (firstn 3 infos) = abc
    /\ map info_index (firstn 3 infos) = [0; 1; 2].
Proof.
  destruct (MerkleFacts.leaf_nodes_round_trip abc _ _ _ _ built_abc)
    as (infos & G & K & I & _).
  exists infos. split; [exact G | split; [exact K | exact I]].
Defined.

(** Three equal keys: six nodes are created, two hashes are indexed. *)
Lemma index_counts_hashes_witness :
  ~ NoDup (map CryptoUtils.generateUserId aaa)
  /\ totalNodes (MerkleTree.getTreeStats (fst (built aaa), snd (built aaa)))
     < next_oid (snd (built aaa)) - next_oid empty_heap.
Proof.
  assert (D : ~ NoDup (map CryptoUtils.generateUserId aaa)).
  { intro N. apply NoDup_cons_iff in N. destruct N as (N & _).
    apply N. now left. }
  split; [exact D|].
  destruct (MerkleFacts.index_counts_hashes empty_heap aaa _ _ built_aaa)
    as (_ & _ & _ & Lt).
  exact (Lt D).
Defined.

(** ["z"] is not a key of [abc]. *)
Lemma proof_not_found_iff_witness :
  MerkleTree.generateMembershipProof 5 "z" (fst (built abc), snd (built abc))
  = Throw (Error "用户不在树中") (fst (built abc), snd (built abc)).
Proof.
  apply (proj1 (MerkleFacts.proof_not_found_iff abc _ _ _ _ "z" 5 built_abc)).
  intros k' [<- | [<- | [<- | []]]]; vm_compute; discriminate.
Defined.

(** A proof is generated also in the tree of [aaa]. *)
Lemma proof_for_member_witness :
  In "a" aaa
  /\ exists proof,
       MerkleTree.generateMembershipProof 10 "a" (fst (built aaa), snd (built aaa))
       = Return proof (fst (built aaa), snd (built aaa))
       /\ leafHash proof = "<a>"
       /\ rootHash proof = MerkleTree.getRootHash (fst (built aaa)).
Proof.
  assert (Hin : In "a" aaa) by (cbn; auto).
  split; [exact Hin|].
  destruct (MerkleFacts.proof_for_member empty_heap aaa _ _ "a" built_aaa Hin)
    as (proof & key & G & L & R & _).
  exists proof. split; [|split; [exact L | exact R]].
  apply G. vm_compute. lia.
Defined.

(** The path generated for ["b"] in the tree of [abc] has two steps. *)
Lemma proof_path_shape_witness :
  map level (path proof_b) = [0; 1]
  /\ length (path proof_b) + 1
     = treeHeight (MerkleTree.getTreeStats (fst (built abc), snd (built abc))).
Proof.
  assert (Hin : In "b" abc) by (cbn; auto).
  assert (F : next_oid (snd (built abc)) - next_oid empty_heap < 10)
    by (vm_compute; lia).
  assert (G : MerkleTree.generateMembershipProof 10 "b"
                (fst (built abc), snd (built abc))
              = Return proof_b (fst (built abc), snd (built abc)))
    by (vm_compute; reflexivity).
  destruct (MerkleFacts.proof_path_shape empty_heap abc _ _ "b" 10 proof_b
              built_abc Hin F G) as (Lv & _ & Eq).
  split; [exact Lv|].
  apply Eq. vm_compute. reflexivity.
Defined.

(** Under the table hash, the proof for ["a"] in the tree of [ab] verifies,
    and its leaf hash is the hash of a key. *)
Lemma membership_sound_witness :
  @MerkleTree.verifyMembershipProof tableHost (fst built_table) proof_a_table
  = true
  /\ exists key, In key ab
                 /\ leafHash proof_a_table
                    = @CryptoUtils.generateUserId tableHost key.
Proof.
  assert (V : @MerkleTree.verifyMembershipProof tableHost (fst built_table)
                proof_a_table = true) by (vm_compute; reflexivity).
  split; [exact V|].
  destruct (@MerkleFacts.membership_sound tableHost ab (fst fresh) (snd fresh)
              (fst built_table) (snd built_table) proof_a_table 1)
    as (_ & Leaf).
  - vm_compute. reflexivity.
  - exact V.
  - vm_compute. reflexivity.
  - reflexivity.
  - intros st [<- | []]. reflexivity.
  - intros k [<- | [<- | []]]; cbn; lia.
  - intros x Hx. vm_compute in Hx.
    destruct Hx as [<- | [<- | [<- | [<- | []]]]]; reflexivity.
  - intros x y Hx Hy E. vm_compute in Hx, Hy.
    destruct Hx as [<- | [<- | [<- | [<- | []]]]];
      destruct Hy as [<- | [<- | [<- | [<- | []]]]];
      first [reflexivity | (vm_compute in E; discriminate E)].
  - apply Leaf. vm_compute. reflexivity.
Defined.

(** ** The proof system *)

Lemma initialized3 :
  exists res,
    ZKProofSystem.initializeSystem (Num 3) (ZKProofSystem.constructor, world0)
    = Return res (fst system3, snd system3).
Proof. vm_compute. eexists. reflexivity. Qed.

Lemma generated1 :
  ZKProofSystem.generateZKProof 10 (Num 1) (fst system3, snd system3)
  = Return (bundle1, summary1) (fst system3_generated, snd system3_generated).
Proof. vm_compute. reflexivity. Qed.

(** Three identities on a new system. *)
Lemma initialize_registers_witness :
  exists res st',
    ZKProofSystem.initializeSystem (Num 3) (ZKProofSystem.constructor, world0)
    = Return res st'
    /\ treeHeight (treeStats res) = 3
    /\ map preview_index (users res) = [0; 1; 2]%Z
    /\ map (fun e => user_publicKey (snd e)) (userKeys (fst st'))
       = ["key0"; "key1"; "key2"].
Proof.
  destruct (ZKFacts.initialize_registers 3 ZKProofSystem.constructor world0)
    as (res & tree & h2 & I & _ & _ & _ & _ & Ht & U); [lia|].
  exists res. eexists. split; [exact I|].
  split; [exact Ht | split; [rewrite U; reflexivity | reflexivity]].
Defined.

(** [bundle1], verified where it was generated: steps 2 and 3 pass. *)
Lemma generate_then_verify_witness :
  exists report st,
    ZKProofSystem.verifyZKProof (Some bundle1)
      (fst system3_generated, snd system3_generated)
    = Return report st
    /\ nth_error (map result (verificationSteps report)) 1 = Some true
    /\ nth_error (map result (verificationSteps report)) 2 = Some true
    /\ currentProof (fst system3_generated) = Some bundle1.
Proof.
  destruct (ZKFacts.generate_then_verify 10 (Num 1) _ _ _ _ _ _ generated1)
    as (tree & mp & _ & _ & _ & _ & Eth & _ & V).
  eexists _, _. split; [exact V|].
  split; [reflexivity | split; [reflexivity|]].
  rewrite Eth. reflexivity.
Defined.

(** Identity 3 and [NaN] are not registered in [system3]; identity 2 is. *)
Lemma generate_unknown_user_witness :
  ZKProofSystem.generateZKProof 10 (Num 3) (fst system3, snd system3)
  = Throw (Error "用户不存在") (fst system3, snd system3)
  /\ ZKProofSystem.generateZKProof 10 NaN (fst system3, snd system3)
     = Throw (Error "用户不存在") (fst system3, snd system3)
  /\ ZKProofSystem.generateZKProof 10 (Num 2) (fst system3, snd system3)
     <> Throw (Error "用户不存在") (fst system3, snd system3).
Proof.
  destruct initialized3 as (res & I).
  split; [|split].
  - apply (proj1 (ZKFacts.generate_unknown_user 3 _ _ _ _ _ (Num 3) 10 I)).
    reflexivity.
  - apply (proj1 (ZKFacts.generate_unknown_user 3 _ _ _ _ _ NaN 10 I)).
    reflexivity.
  - intro T.
    apply (proj1 (ZKFacts.generate_unknown_user 3 _ _ _ _ _ (Num 2) 10 I)) in T.
    discriminate T.
Defined.

(** From [initializeSystem(3)] to a valid report for identity 1. *)
Lemma initialized_round_trip_witness :
  exists p s st2,
    ZKProofSystem.generateZKProof 10 (Num 1) (fst system3, snd system3)
    = Return (p, s) st2
    /\ pathLength s <= 2
    /\ exists report st3,
         ZKProofSystem.verifyZKProof (Some p) st2 = Return report st3
         /\ isValid report = true
         /\ passedSteps (summary report) = 4.
Proof.
  destruct initialized3 as (res & I).
  destruct (ZKFacts.initialized_round_trip 3 _ _ _ _ _ 1 10 I)
    as (tree & p & s & this2 & w2 & Et & G & _ & Le & Valid).
  - lia.
  - vm_compute. lia.
  - exists p, s, (this2, w2). split; [exact G | split; [exact Le|]].
    vm_compute in Et. injection Et as <-.
    destruct Valid as (report & st3 & V & Ok & Passed & _).
    + vm_compute. reflexivity.
    + vm_compute. discriminate.
    + exists report, st3. auto.
Defined.

(** [bundle1] gets the same report from [system3] and from a system whose
    tree was never built. *)
Lemma verdict_ignores_registry_witness :
  exists report w',
    ZKProofSystem.verifyZKProof (Some bundle1) (fst system3, snd system3)
    = Return report (fst system3, w')
    /\ ZKProofSystem.verifyZKProof (Some bundle1) (fst systemNaN, snd system3)
       = Return report (fst systemNaN, w').
Proof.
  eapply (ZKFacts.verdict_ignores_registry (fst system3) (fst systemNaN));
    reflexivity.
Defined.

(** [system3] reports the bundle [keyless] valid. *)
Lemma keyless_bundle_verifies_witness :
  exists report w',
    ZKProofSystem.verifyZKProof (Some keyless) (fst system3, snd system3)
    = Return report (fst system3, w')
    /\ isValid report = true
    /\ map result (verificationSteps report) = [true; true; true; true]
    /\ passedSteps (summary report) = 4.
Proof.
  eapply (ZKFacts.keyless_bundle_verifies (fst system3) _ (snd system3)
            "h" "c" "r" 1000000 (Num 7)).
  - reflexivity.
  - vm_compute. discriminate.
Defined.

(** The status of [system3]. *)
Lemma status_after_initialize_witness :
  exists root total,
    ZKProofSystem.getSystemStatus (fst system3, snd system3)
    = inr (Initialized 3 (CryptoUtils.truncateHash root 8) 3 total false)
    /\ ZKProofSystem.getSystemStatus
         (ZKProofSystem.reset (fst system3, snd system3))
       = inr (NotInitialized notInitializedMessage).
Proof.
  destruct initialized3 as (res & I).
  destruct (ZKFacts.status_after_initialize 3 _ _ _ _ _ I)
    as (root & total & _ & S & _ & R & _).
  exists root, total. split; [exact S | exact R].
Defined.

(** The status after [initializeSystem(NaN)] on a new system. *)
Lemma status_after_failed_initialize_witness :
  exists st',
    ZKProofSystem.initializeSystem NaN (ZKProofSystem.constructor, world0)
    = Throw (Error "公钥列表不能为空") st'
    /\ ZKProofSystem.getSystemStatus st' = inl (TypeError "hash.substring")
    /\ exists report st'',
         ZKProofSystem.verifyZKProof (Some bundle1) st' = Return report st''
         /\ totalSteps (summary report) = 4.
Proof.
  destruct (ZKFacts.status_after_failed_initialize ZKProofSystem.constructor world0)
    as (st' & T & _ & _ & S & _ & V).
  exists st'. split; [exact T | split; [exact S|]].
  apply (V bundle1 _ _ _ eq_refl eq_refl eq_refl).
Defined.
End Examples.
